(** * codeRipper: lifecycle, jobs, chunking, vector index, search and tutor

  A shallow embedding of the core of the repository-intelligence
  platform, followed by theorems about it.  Each Rocq module mirrors
  the Python module of the same name:

  - [errors]        app/core/errors.py (and the built-in exceptions used)
  - [text], [py]    the string and list operations of Python that are used
  - [llm]           app/core/llm.py (token estimate)
  - [repository]    app/models/repository.py
  - [job], [code_chunk], [tutor_session]
                    app/models/job.py, code_chunk.py, tutor_session.py
  - [database]      the relational store behind the session
  - [lifecycle]     app/services/lifecycle.py
  - [ingestion]     app/services/ingestion.py (forced reset only)
  - [jobs]          app/services/jobs.py
  - [chunking]      app/core/chunking.py
  - [config]        app/config.py and the outside capabilities
  - [vector_store]  app/core/vector_store.py
  - [schemas]       app/schemas (response models)
  - [search]        app/services/search.py
  - [tutor]         app/services/tutor.py

  Conventions.  Python [int] is [Z]; [str] is [string], read as a
  sequence of code points below 128; [None]-able values are [option];
  a raised exception is [Raise e] in the [result] type.  Logging calls
  are omitted.  Objects attached to the SQLAlchemy session and the rows
  they are flushed to are one and the same value in the store, and a
  table with a primary key is a map from the key to the row. *)

From Stdlib Require Import ZArith QArith List String Ascii Lia Bool Sorted.
From Stdlib Require Import Decimal DecimalString.
From stdpp Require Import base gmap strings list.

#[local] Open Scope Z_scope.
#[local] Set Warnings "-register-all".

(** ** Exceptions and results *)

Module errors.

(** The two places a [ValueError] comes from in the lifecycle code. *)
Inductive value_error : Type :=
| InvalidTransition (current target : string)
    (* lifecycle.py: raise ValueError(f"Invalid transition from ...") *)
| NotAValidRepoStatus (value : string).
    (* enum lookup RepoStatus(self.status) on an unknown string *)

Inductive exn : Type :=
| ValueError (why : value_error)
| RepoNotFoundError (repo_id : string)
| RepoNotReadyError (repo_id current_state required_state : string)
| SessionNotFoundError (session_id : string)
| AttributeError
| TypeError
| ValidationError
| DBAPIError.
    (* sqlalchemy.exc.DBAPIError (and its subclass IntegrityError), raised
       by a flush that the database driver rejects *)

Inductive result (A : Type) : Type :=
| Ok (a : A)
| Raise (e : exn).
Arguments Ok {A} a.
Arguments Raise {A} e.

Definition is_ValueError (e : exn) : Prop :=
  match e with ValueError _ => True | _ => False end.

End errors.

(** ** Text helpers shared by the Python string operations *)

Module text.

(** [str.isspace] on one character. *)
Definition is_space (c : ascii) : bool :=
  let n := nat_of_ascii c in
  ((9 <=? n) && (n <=? 13) || (28 <=? n) && (n <=? 32))%nat.

(** [\w] of the [re] module. *)
Definition is_word (c : ascii) : bool :=
  let n := nat_of_ascii c in
  ((48 <=? n) && (n <=? 57) || (65 <=? n) && (n <=? 90)
   || (97 <=? n) && (n <=? 122) || (n =? 95))%nat.

Definition newline : ascii := ascii_of_nat 10.

(** [s.split("\n")]: never the empty list. *)
Fixpoint split_newline (s : string) : list string :=
  match s with
  | EmptyString => [EmptyString]
  | String c rest =>
      if Ascii.eqb c newline then EmptyString :: split_newline rest
      else match split_newline rest with
           | h :: t => String c h :: t
           | [] => [String c EmptyString]
           end
  end.

(** ["\n".join(lines)]. *)
Fixpoint join_newline (lines : list string) : string :=
  match lines with
  | [] => EmptyString
  | [l] => l
  | l :: rest => l +:+ String newline (join_newline rest)
  end.

(** [sep.join(parts)]. *)
Fixpoint join (sep : string) (parts : list string) : string :=
  match parts with
  | [] => EmptyString
  | [p] => p
  | p :: rest => p +:+ sep +:+ join sep rest
  end.

(** [len(s.split())]: the number of maximal runs of non-space
    characters; [in_word] tells whether the previous character
    belonged to such a run. *)
Fixpoint count_words_from (in_word : bool) (s : string) : Z :=
  match s with
  | EmptyString => 0
  | String c rest =>
      if is_space c then count_words_from false rest
      else (if in_word then 0 else 1) + count_words_from true rest
  end.

Definition count_words (s : string) : Z := count_words_from false s.

(** [s.lstrip()]. *)
Fixpoint lstrip (s : string) : string :=
  match s with
  | EmptyString => EmptyString
  | String c rest => if is_space c then lstrip rest else s
  end.

Fixpoint rev_string_onto (s acc : string) : string :=
  match s with
  | EmptyString => acc
  | String c rest => rev_string_onto rest (String c acc)
  end.

Definition rev_string (s : string) : string := rev_string_onto s EmptyString.

(** [s.rstrip()] and [s.strip()]. *)
Definition rstrip (s : string) : string := rev_string (lstrip (rev_string s)).
Definition strip (s : string) : string := rstrip (lstrip s).

Definition len (s : string) : Z := Z.of_nat (String.length s).

(** [s[:n]] and [s[n:]] for [n >= 0]. *)
Fixpoint take (n : nat) (s : string) : string :=
  match n, s with
  | S n', String c rest => String c (take n' rest)
  | _, _ => EmptyString
  end.

Fixpoint drop (n : nat) (s : string) : string :=
  match n, s with
  | S n', String _ rest => drop n' rest
  | _, _ => s
  end.

(** [s.startswith(p)]; on success the remainder is returned. *)
Fixpoint strip_prefix (p s : string) : option string :=
  match p, s with
  | EmptyString, _ => Some s
  | String a p', String b s' =>
      if Ascii.eqb a b then strip_prefix p' s' else None
  | String _ _, EmptyString => None
  end.

Definition startswith (p s : string) : bool :=
  match strip_prefix p s with Some _ => true | None => false end.

(** [p in s]. *)
Fixpoint contains (p s : string) : bool :=
  startswith p s
  || match s with
     | EmptyString => false
     | String _ rest => contains p rest
     end.

Definition endswith (p s : string) : bool :=
  startswith (rev_string p) (rev_string s).

(** Python truthiness of an optional string: neither [None] nor empty. *)
Definition truthy (o : option string) : bool :=
  match o with
  | Some s => negb (s =? EmptyString)%string
  | None => false
  end.

Definition lower_char (c : ascii) : ascii :=
  let n := nat_of_ascii c in
  if ((65 <=? n) && (n <=? 90))%nat then ascii_of_nat (n + 32) else c.

Fixpoint lower (s : string) : string :=
  match s with
  | EmptyString => EmptyString
  | String c rest => String (lower_char c) (lower rest)
  end.

End text.

(** ** app/core/llm.py *)

Module llm.

(** [count_tokens]: [int(len(text.split()) * 1.3)].  The float product
    truncated to an integer is the integer quotient of [13 * n] by 10
    for every word count a file can have. *)
Definition count_tokens (t : string) : Z := (13 * text.count_words t) / 10.

End llm.

(** ** app/models/repository.py *)

Module repository.
Import errors.

Inductive RepoStatus : Type :=
| CREATED | CLONED | STRUCTURED | INDEXED | DOCS_GENERATED | READY | FAILED.

#[export] Instance RepoStatus_eq_dec : EqDecision RepoStatus.
Proof. solve_decision. Defined.

(** The [.value] of an enum member. *)
Definition value (s : RepoStatus) : string :=
  match s with
  | CREATED => "CREATED"
  | CLONED => "CLONED"
  | STRUCTURED => "STRUCTURED"
  | INDEXED => "INDEXED"
  | DOCS_GENERATED => "DOCS_GENERATED"
  | READY => "READY"
  | FAILED => "FAILED"
  end.

Definition all_statuses : list RepoStatus :=
  [CREATED; CLONED; STRUCTURED; INDEXED; DOCS_GENERATED; READY; FAILED].

(** [RepoStatus(s)]: lookup by value, [ValueError] when there is none. *)
Definition RepoStatus_of (s : string) : result RepoStatus :=
  match List.find (fun st => (value st =? s)%string) all_statuses with
  | Some st => Ok st
  | None => Raise (ValueError (NotAValidRepoStatus s))
  end.

Definition VALID_TRANSITIONS (current : RepoStatus) : list RepoStatus :=
  match current with
  | CREATED => [CLONED; FAILED]
  | CLONED => [STRUCTURED; FAILED]
  | STRUCTURED => [INDEXED; FAILED]
  | INDEXED => [DOCS_GENERATED; FAILED]
  | DOCS_GENERATED => [READY; FAILED]
  | READY => [FAILED]
  | FAILED => [CREATED]
  end.

Definition API_STATE_REQUIREMENTS (operation : string) : option RepoStatus :=
  if (operation =? "summary")%string then Some STRUCTURED
  else if (operation =? "structure")%string then Some STRUCTURED
  else if (operation =? "entrypoints")%string then Some STRUCTURED
  else if (operation =? "index")%string then Some STRUCTURED
  else if (operation =? "search")%string then Some INDEXED
  else if (operation =? "session")%string then Some INDEXED
  else if (operation =? "ask")%string then Some INDEXED
  else if (operation =? "docs_readme")%string then Some DOCS_GENERATED
  else if (operation =? "docs_architecture")%string then Some DOCS_GENERATED
  else None.

Definition state_order (s : RepoStatus) : Z :=
  match s with
  | CREATED => 0
  | CLONED => 1
  | STRUCTURED => 2
  | INDEXED => 3
  | DOCS_GENERATED => 4
  | READY => 5
  | FAILED => -1
  end.

(** The columns of the [repositories] table (timestamps and ORM
    relationships left out). *)
Record Repository : Type := {
  id : string;
  repo_url : string;
  name : string;
  owner : string;
  primary_language : option string;
  commit_hash : option string;
  status : string;
  error_message : option string;
  total_files : option Z;
  total_size_bytes : option Z;
  total_chunks : option Z;
  readme_content : option string;
  architecture_content : option string;
}.

Definition set_status (r : Repository) (s : string) : Repository :=
  {| id := id r; repo_url := repo_url r; name := name r; owner := owner r;
     primary_language := primary_language r; commit_hash := commit_hash r;
     status := s; error_message := error_message r;
     total_files := total_files r; total_size_bytes := total_size_bytes r;
     total_chunks := total_chunks r; readme_content := readme_content r;
     architecture_content := architecture_content r |}.

Definition set_error_message (r : Repository) (m : option string) : Repository :=
  {| id := id r; repo_url := repo_url r; name := name r; owner := owner r;
     primary_language := primary_language r; commit_hash := commit_hash r;
     status := status r; error_message := m;
     total_files := total_files r; total_size_bytes := total_size_bytes r;
     total_chunks := total_chunks r; readme_content := readme_content r;
     architecture_content := architecture_content r |}.

(** [Repository.can_transition_to]. *)
Definition can_transition_to (self : Repository) (new_status : RepoStatus)
  : result bool :=
  match RepoStatus_of (status self) with
  | Raise e => Raise e
  | Ok current =>
      Ok (bool_decide (new_status ∈ VALID_TRANSITIONS current))
  end.

(** The pair (current status, target) is an entry of [VALID_TRANSITIONS]. *)
Definition in_transition_table (current : string) (target : RepoStatus) : Prop :=
  ∃ cur, RepoStatus_of current = Ok cur ∧ target ∈ VALID_TRANSITIONS cur.

(** [Repository.has_reached_state]. *)
Definition has_reached_state (self : Repository) (required_state : RepoStatus)
  : result bool :=
  match RepoStatus_of (status self) with
  | Raise e => Raise e
  | Ok current =>
      if bool_decide (current = FAILED) then Ok false
      else Ok (state_order required_state <=? state_order current)
  end.

(** [str(x)] of an optional string inside an f-string. *)
Definition format_optional (o : option string) : string :=
  match o with Some s => s | None => "None" end.

(** [Repository.check_api_readiness]: the pair (is_ready, error_message). *)
Definition check_api_readiness (self : Repository) (operation : string)
  : result (bool * option string) :=
  match API_STATE_REQUIREMENTS operation with
  | None => Ok (true, None)
  | Some required =>
      match RepoStatus_of (status self) with
      | Raise e => Raise e
      | Ok current =>
          if bool_decide (current = FAILED) then
            Ok (false, Some ("Repository is in FAILED state: "
                             +:+ format_optional (error_message self)))
          else match has_reached_state self required with
               | Raise e => Raise e
               | Ok reached =>
                   if negb reached then
                     Ok (false, Some ("Repository must be in " +:+ value required
                                      +:+ " state or later. Current: "
                                      +:+ value current))
                   else Ok (true, None)
               end
      end
  end.

End repository.

(** ** app/models/job.py *)

Module job.

Inductive JobType : Type := INGEST | INDEX | DOCS.

Definition type_value (t : JobType) : string :=
  match t with INGEST => "ingest" | INDEX => "index" | DOCS => "docs" end.

Inductive JobStatus : Type := PENDING | RUNNING | COMPLETED | FAILED.

Definition value (s : JobStatus) : string :=
  match s with
  | PENDING => "pending"
  | RUNNING => "running"
  | COMPLETED => "completed"
  | FAILED => "failed"
  end.

(** The columns of the [jobs] table; times are microseconds since the
    epoch. *)
Record Job : Type := {
  id : string;
  repo_id : string;
  type : string;
  status : string;
  progress : Z;
  error_message : option string;
  started_at : option Z;
  completed_at : option Z;
  attempt : Z;
  max_attempts : Z;
  created_at : Z;
}.

Definition is_terminal (self : Job) : bool :=
  (status self =? value COMPLETED)%string || (status self =? value FAILED)%string.

Definition can_retry (self : Job) : bool :=
  (status self =? value FAILED)%string && (attempt self <? max_attempts self).

End job.

(** ** app/models/code_chunk.py *)

Module code_chunk.

(** The columns of the [code_chunks] table (timestamp left out). *)
Record CodeChunk : Type := {
  id : string;
  repo_id : string;
  file_path : string;
  start_line : Z;
  end_line : Z;
  symbol_type : option string;
  symbol_name : option string;
  language : option string;
  content : string;
  token_count : option Z;
  embedding_index : option Z;
}.

End code_chunk.

(** ** app/models/tutor_session.py *)

Module tutor_session.

Record TutorSession : Type := {
  id : string;
  repo_id : string;
  repo_context_summary : option string;
  rolling_conversation_summary : option string;
  created_at : Z;
  last_activity_at : Z;
}.

Definition set_rolling_conversation_summary (s : TutorSession) (v : option string)
  : TutorSession :=
  {| id := id s; repo_id := repo_id s;
     repo_context_summary := repo_context_summary s;
     rolling_conversation_summary := v;
     created_at := created_at s; last_activity_at := last_activity_at s |}.

Definition set_last_activity_at (s : TutorSession) (t : Z) : TutorSession :=
  {| id := id s; repo_id := repo_id s;
     repo_context_summary := repo_context_summary s;
     rolling_conversation_summary := rolling_conversation_summary s;
     created_at := created_at s; last_activity_at := t |}.

(** A row of [tutor_messages].  Rows are kept in creation order, which
    stands for the [created_at] column; the generated primary key is
    left out. *)
Record TutorMessage : Type := {
  session_id : string;
  role : string;
  content : string;
  references : option string;
}.

End tutor_session.

(** ** app/database.py: the relational store behind an [AsyncSession] *)

Module database.

(** The tables; those read by primary key are maps from the key, the
    message table is kept in creation order. *)
Record Db : Type := {
  repositories : gmap string repository.Repository;
  jobs : gmap string job.Job;
  code_chunks : gmap string code_chunk.CodeChunk;
  tutor_sessions : gmap string tutor_session.TutorSession;
  tutor_messages : list tutor_session.TutorMessage;
}.

Definition empty : Db :=
  {| repositories := ∅; jobs := ∅; code_chunks := ∅;
     tutor_sessions := ∅; tutor_messages := [] |}.

(** Flushing a repository, job or session object writes its row. *)
Definition put_repository (db : Db) (r : repository.Repository) : Db :=
  {| repositories := <[repository.id r := r]> (repositories db);
     jobs := jobs db; code_chunks := code_chunks db;
     tutor_sessions := tutor_sessions db;
     tutor_messages := tutor_messages db |}.

Definition put_job (db : Db) (j : job.Job) : Db :=
  {| repositories := repositories db;
     jobs := <[job.id j := j]> (jobs db); code_chunks := code_chunks db;
     tutor_sessions := tutor_sessions db;
     tutor_messages := tutor_messages db |}.

Definition put_session (db : Db) (s : tutor_session.TutorSession) : Db :=
  {| repositories := repositories db;
     jobs := jobs db; code_chunks := code_chunks db;
     tutor_sessions := <[tutor_session.id s := s]> (tutor_sessions db);
     tutor_messages := tutor_messages db |}.

(** [db.add(message)] followed by a flush: appended in creation order. *)
Definition add_message (db : Db) (m : tutor_session.TutorMessage) : Db :=
  {| repositories := repositories db;
     jobs := jobs db; code_chunks := code_chunks db;
     tutor_sessions := tutor_sessions db;
     tutor_messages := tutor_messages db ++ [m] |}.

End database.

(** ** app/services/lifecycle.py *)

Module lifecycle.
Import errors.
Import repository.

(** [get_repository]. *)
Definition get_repository (db : database.Db) (repo_id : string)
  : result Repository :=
  match database.repositories db !! repo_id with
  | Some repo => Ok repo
  | None => Raise (RepoNotFoundError repo_id)
  end.

(** [transition_status].  Besides the outcome, the store and the state
    of the [repo] object after the call are returned, whether the call
    returned or raised. *)
Definition transition_status (db : database.Db) (repo : Repository)
    (new_status : RepoStatus) (error_message : option string)
  : result Repository * (database.Db * Repository) :=
  match can_transition_to repo new_status with
  | Raise e => (Raise e, (db, repo))
  | Ok false =>
      (Raise (ValueError (InvalidTransition (status repo) (value new_status))),
       (db, repo))
  | Ok true =>
      let repo1 := set_status repo (value new_status) in
      let repo2 :=
        if bool_decide (new_status = FAILED) && text.truthy error_message
        then set_error_message repo1 error_message
        else repo1 in
      (* await db.commit(); await db.refresh(repo) *)
      (Ok repo2, (database.put_repository db repo2, repo2))
  end.

(** [check_api_readiness] of the service layer. *)
Definition check_api_readiness (db : database.Db) (repo_id operation : string)
  : result Repository :=
  match get_repository db repo_id with
  | Raise e => Raise e
  | Ok repo =>
      match repository.check_api_readiness repo operation with
      | Raise e => Raise e
      | Ok (is_ready, _) =>
          if negb is_ready then
            let required :=
              match API_STATE_REQUIREMENTS operation with
              | Some r => r
              | None => CREATED
              end in
            Raise (RepoNotReadyError repo_id (status repo) (value required))
          else Ok repo
      end
  end.

(** [mark_failed]. *)
Definition mark_failed (db : database.Db) (repo : Repository)
    (error_message : string)
  : result Repository * (database.Db * Repository) :=
  transition_status db repo FAILED (Some error_message).

End lifecycle.

(** ** app/services/ingestion.py: the forced reset of an existing row *)

Module ingestion.
Import repository.

(** The [if existing and force:] branch of [ingest_repository]:
    [existing.status = CREATED; existing.error_message = None; commit]. *)
Definition reset_existing (db : database.Db) (existing : Repository)
  : database.Db * Repository :=
  let repo := set_error_message (set_status existing (value CREATED)) None in
  (database.put_repository db repo, repo).

End ingestion.

(** ** app/services/jobs.py *)

Module jobs.
Import job.

Definition set_progress (j : Job) (p : Z) : Job :=
  {| id := id j; repo_id := repo_id j; type := type j; status := status j;
     progress := p; error_message := error_message j;
     started_at := started_at j; completed_at := completed_at j;
     attempt := attempt j; max_attempts := max_attempts j;
     created_at := created_at j |}.

Definition set_status (j : Job) (s : string) : Job :=
  {| id := id j; repo_id := repo_id j; type := type j; status := s;
     progress := progress j; error_message := error_message j;
     started_at := started_at j; completed_at := completed_at j;
     attempt := attempt j; max_attempts := max_attempts j;
     created_at := created_at j |}.

Definition set_started_at (j : Job) (t : option Z) : Job :=
  {| id := id j; repo_id := repo_id j; type := type j; status := status j;
     progress := progress j; error_message := error_message j;
     started_at := t; completed_at := completed_at j;
     attempt := attempt j; max_attempts := max_attempts j;
     created_at := created_at j |}.

Definition set_completed_at (j : Job) (t : option Z) : Job :=
  {| id := id j; repo_id := repo_id j; type := type j; status := status j;
     progress := progress j; error_message := error_message j;
     started_at := started_at j; completed_at := t;
     attempt := attempt j; max_attempts := max_attempts j;
     created_at := created_at j |}.

Definition set_error_message (j : Job) (m : option string) : Job :=
  {| id := id j; repo_id := repo_id j; type := type j; status := status j;
     progress := progress j; error_message := m;
     started_at := started_at j; completed_at := completed_at j;
     attempt := attempt j; max_attempts := max_attempts j;
     created_at := created_at j |}.

(** [create_job]; the fresh identifier and the clock reading come from
    the caller. *)
Definition create_job (db : database.Db) (fresh_id : string) (now : Z)
    (repo_id : string) (job_type : JobType) : database.Db * Job :=
  let j := {| id := fresh_id; repo_id := repo_id; type := type_value job_type;
              status := value PENDING; progress := 0; error_message := None;
              started_at := None; completed_at := None;
              attempt := 1; max_attempts := 3; created_at := now |} in
  (database.put_job db j, j).

(** [start_job]. *)
Definition start_job (db : database.Db) (now : Z) (j : Job) : database.Db * Job :=
  let j' := set_started_at (set_status j (value RUNNING)) (Some now) in
  (database.put_job db j', j').

(** [update_progress]: [job.progress = min(max(progress, 0), 100)]. *)
Definition update_progress (db : database.Db) (j : Job) (progress : Z)
  : database.Db * Job :=
  let j' := set_progress j (Z.min (Z.max progress 0) 100) in
  (database.put_job db j', j').

(** [complete_job]. *)
Definition complete_job (db : database.Db) (now : Z) (j : Job) : database.Db * Job :=
  let j' := set_completed_at (set_progress (set_status j (value COMPLETED)) 100)
              (Some now) in
  (database.put_job db j', j').

(** [fail_job]. *)
Definition fail_job (db : database.Db) (now : Z) (j : Job) (error_message : string)
  : database.Db * Job :=
  let j' := set_completed_at
              (set_error_message (set_status j (value FAILED)) (Some error_message))
              (Some now) in
  (database.put_job db j', j').

End jobs.

(** ** app/core/chunking.py *)

Module chunking.

(** A pattern of [SKIP_PATTERNS], by the shape of its regular
    expression: a literal searched anywhere, or a literal followed by
    [$]. *)
Inductive skip_pattern : Type :=
| Anywhere (literal : string)
| AtEnd (literal : string).

Definition SKIP_PATTERNS : list skip_pattern :=
  [ Anywhere ".git/"; Anywhere "node_modules/"; Anywhere "__pycache__/";
    AtEnd ".pyc"; AtEnd ".pyo"; Anywhere ".egg-info/"; AtEnd ".so";
    AtEnd ".dll"; AtEnd ".exe"; AtEnd ".bin"; AtEnd ".lock";
    AtEnd "package-lock.json"; AtEnd "yarn.lock"; AtEnd ".min.js";
    AtEnd ".min.css"; AtEnd ".map"; AtEnd ".whl"; AtEnd ".tar.gz";
    AtEnd ".zip"; AtEnd ".png"; AtEnd ".jpg"; AtEnd ".jpeg"; AtEnd ".gif";
    AtEnd ".ico"; AtEnd ".svg"; AtEnd ".pdf"; Anywhere ".woff"; AtEnd ".ttf" ].

(** [re.search(pattern, path_str)]; [$] matches at the end of the string
    and just before a newline that ends it. *)
Definition re_search (p : skip_pattern) (path_str : string) : bool :=
  match p with
  | Anywhere lit => text.contains lit path_str
  | AtEnd lit =>
      text.endswith lit path_str
      || text.endswith (lit +:+ String text.newline EmptyString) path_str
  end.

Definition should_skip_file (path_str : string) : bool :=
  existsb (fun p => re_search p path_str) SKIP_PATTERNS.

(** The final component of a path. *)
Fixpoint path_name (p : string) : string :=
  match p with
  | EmptyString => EmptyString
  | String c rest =>
      if text.contains "/" rest then path_name rest
      else if Ascii.eqb c "/" then rest else p
  end.

(** The part of [s] that starts at its last dot, if it has one. *)
Fixpoint from_last_dot (s : string) : option string :=
  match s with
  | EmptyString => None
  | String c rest =>
      match from_last_dot rest with
      | Some x => Some x
      | None => if Ascii.eqb c "." then Some s else None
      end
  end.

(** [Path.suffix] (as up to CPython 3.12): the last dot of the name
    starts the suffix unless it is the first or the last character of
    the name. *)
Definition path_suffix (p : string) : string :=
  let name := path_name p in
  match from_last_dot name with
  | Some suffix =>
      if (String.length suffix <? String.length name)%nat
         && (1 <? String.length suffix)%nat
      then suffix else EmptyString
  | None => EmptyString
  end.

Definition LANGUAGE_MAP : list (string * string) :=
  [ (".py", "python"); (".js", "javascript"); (".ts", "typescript");
    (".jsx", "javascript"); (".tsx", "typescript"); (".go", "go");
    (".rs", "rust"); (".java", "java"); (".rb", "ruby"); (".php", "php");
    (".c", "c"); (".cpp", "cpp"); (".h", "c"); (".hpp", "cpp");
    (".cs", "csharp"); (".swift", "swift"); (".kt", "kotlin");
    (".scala", "scala"); (".r", "r"); (".R", "r"); (".sql", "sql");
    (".sh", "bash"); (".bash", "bash"); (".zsh", "zsh"); (".yaml", "yaml");
    (".yml", "yaml"); (".json", "json"); (".xml", "xml"); (".html", "html");
    (".css", "css"); (".md", "markdown"); (".txt", "text") ]%string.

Definition map_get (m : list (string * string)) (k : string) : option string :=
  match List.find (fun kv => (fst kv =? k)%string) m with
  | Some kv => Some (snd kv)
  | None => None
  end.

(** [detect_language]. *)
Definition detect_language (path_str : string) : option string :=
  map_get LANGUAGE_MAP (text.lower (path_suffix path_str)).

(** The [CodeChunk] dataclass. *)
Record CodeChunk : Type := {
  file_path : string;
  start_line : Z;
  end_line : Z;
  content : string;
  language : option string;
  symbol_type : option string;
  symbol_name : option string;
  token_count : option Z;
}.

(** *** Sliding window *)

(** The loop variables [current_chunk_lines], [current_start_line] and
    [current_tokens]. *)
Record window : Type := {
  current_chunk_lines : list string;
  current_start_line : Z;
  current_tokens : Z;
}.

(** The inner loop [for prev_line in reversed(current_chunk_lines)]:
    lines are taken from the end of the chunk while the token budget
    allows; the result is ([overlap_lines], [overlap_tokens_count]). *)
Fixpoint overlap_loop (overlap_tokens : Z) (reversed_lines : list string)
    (overlap_lines : list string) (overlap_tokens_count : Z)
  : list string * Z :=
  match reversed_lines with
  | [] => (overlap_lines, overlap_tokens_count)
  | prev_line :: rest =>
      let prev_tokens := llm.count_tokens prev_line in
      if overlap_tokens <? overlap_tokens_count + prev_tokens
      then (overlap_lines, overlap_tokens_count)
      else overlap_loop overlap_tokens rest (prev_line :: overlap_lines)
             (overlap_tokens_count + prev_tokens)
  end.

Definition overlap_of (overlap_tokens : Z) (chunk_lines : list string)
  : list string * Z :=
  overlap_loop overlap_tokens (rev chunk_lines) [] 0.

(** The body of [if current_tokens + line_tokens > max_tokens and
    current_chunk_lines:] at line [i]: the current window is yielded as a
    chunk ending at line [i - 1], and the next window is seeded with the
    overlap. *)
Definition yield_and_restart (file_path : string) (language : option string)
    (overlap_tokens : Z) (i : Z) (st : list CodeChunk * window)
  : list CodeChunk * window :=
  let '(yielded, w) := st in
  let chunk :=
    {| file_path := file_path;
       start_line := current_start_line w;
       end_line := i - 1;
       content := text.join_newline (current_chunk_lines w);
       language := language;
       symbol_type := None; symbol_name := None;
       token_count := Some (current_tokens w) |} in
  let '(overlap_lines, overlap_tokens_count) :=
    overlap_of overlap_tokens (current_chunk_lines w) in
  (yielded ++ [chunk],
   {| current_chunk_lines := overlap_lines;
      current_start_line := i - Z.of_nat (length overlap_lines);
      current_tokens := overlap_tokens_count |}).

(** [current_chunk_lines.append(line); current_tokens += line_tokens]. *)
Definition append_line (line : string) (line_tokens : Z)
    (st : list CodeChunk * window) : list CodeChunk * window :=
  let '(yielded, w) := st in
  (yielded,
   {| current_chunk_lines := current_chunk_lines w ++ [line];
      current_start_line := current_start_line w;
      current_tokens := current_tokens w + line_tokens |}).

(** One iteration of [for i, line in enumerate(lines, 1)]; the chunks
    yielded so far are the first component of the state. *)
Definition sliding_step (file_path : string) (language : option string)
    (max_tokens overlap_tokens : Z) (i : Z) (line : string)
    (st : list CodeChunk * window) : list CodeChunk * window :=
  let line_tokens := llm.count_tokens line in
  append_line line line_tokens
    (if (max_tokens <? current_tokens (snd st) + line_tokens)
        && negb (bool_decide (current_chunk_lines (snd st) = []))
     then yield_and_restart file_path language overlap_tokens i st
     else st).

Fixpoint sliding_loop (file_path : string) (language : option string)
    (max_tokens overlap_tokens : Z) (i : Z) (lines : list string)
    (st : list CodeChunk * window) : list CodeChunk * window :=
  match lines with
  | [] => st
  | line :: rest =>
      sliding_loop file_path language max_tokens overlap_tokens (i + 1) rest
        (sliding_step file_path language max_tokens overlap_tokens i line st)
  end.

(** [sliding_window_chunk]; the generator's yields, in order. *)
Definition sliding_window_chunk (content file_path : string)
    (language : option string) (max_tokens overlap_tokens : Z)
  : list CodeChunk :=
  let lines := text.split_newline content in
  if bool_decide (lines = []) then []
  else
    let '(yielded, w) :=
      sliding_loop file_path language max_tokens overlap_tokens 1 lines
        ([], {| current_chunk_lines := []; current_start_line := 1;
                current_tokens := 0 |}) in
    if negb (bool_decide (current_chunk_lines w = [])) then
      yielded ++
        [ {| file_path := file_path;
             start_line := current_start_line w;
             end_line := Z.of_nat (length lines);
             content := text.join_newline (current_chunk_lines w);
             language := language;
             symbol_type := None; symbol_name := None;
             token_count := Some (current_tokens w) |} ]
    else yielded.

(** *** Python symbols *)

(** After [keyword]: [\s+(\w+)], giving the captured name. *)
Fixpoint skip_spaces (s : string) : string :=
  match s with
  | EmptyString => EmptyString
  | String c rest => if text.is_space c then skip_spaces rest else s
  end.

Fixpoint word_prefix (s : string) : string :=
  match s with
  | EmptyString => EmptyString
  | String c rest =>
      if text.is_word c then String c (word_prefix rest) else EmptyString
  end.

(** [\s+] at the start of [s]: the rest after the run of spaces. *)
Definition spaces_then (s : string) : option string :=
  match s with
  | String c rest => if text.is_space c then Some (skip_spaces rest) else None
  | EmptyString => None
  end.

(** [keyword\s+(\w+)] matched at the start of [s]. *)
Definition keyword_name (keyword s : string) : option string :=
  match text.strip_prefix keyword s with
  | None => None
  | Some rest =>
      match spaces_then rest with
      | None => None
      | Some rest' =>
          let name := word_prefix rest' in
          if (name =? EmptyString)%string then None else Some name
      end
  end.

(** [class_pattern.match(stripped)], for [^class\s+(\w+)]. *)
Definition class_match (stripped : string) : option string :=
  keyword_name "class" stripped.

(** [func_pattern.match(stripped)], for [^(?:async\s+)?def\s+(\w+)]. *)
Definition func_match (stripped : string) : option string :=
  match text.strip_prefix "async" stripped with
  | Some rest =>
      match spaces_then rest with
      | Some rest' => keyword_name "def" rest'
      | None => None
      end
  | None => keyword_name "def" stripped
  end.

(** The [current_symbol] dictionary. *)
Record symbol : Type := {
  sym_type : string;
  sym_name : string;
  sym_start : Z;
}.

Record scan : Type := {
  current_symbol : option symbol;
  current_lines : list string;
  current_indent : Z;
}.

Definition indent_of (line : string) : Z :=
  text.len line - text.len (text.lstrip line).

Definition is_signature (line : string) : bool :=
  let stripped := text.lstrip line in
  match class_match stripped, func_match stripped with
  | None, None => false
  | _, _ => true
  end.

Definition symbol_chunk (file_path : string) (sym : symbol) (lines : list string)
    (end_line : Z) : CodeChunk :=
  {| file_path := file_path;
     start_line := sym_start sym;
     end_line := end_line;
     content := text.join_newline lines;
     language := Some "python"%string;
     symbol_type := Some (sym_type sym);
     symbol_name := Some (sym_name sym);
     token_count := Some (llm.count_tokens (text.join_newline lines)) |}.

(** The branch [if class_match or func_match:] at line [i]: an open
    symbol is yielded as a chunk ending at line [i - 1], and the symbol
    of this signature line becomes the current one. *)
Definition start_symbol (file_path : string) (i : Z) (line type name : string)
    (st : list CodeChunk * scan) : list CodeChunk * scan :=
  let '(yielded, sc) := st in
  (match current_symbol sc with
   | Some sym =>
       if negb (bool_decide (current_lines sc = []))
       then yielded ++ [symbol_chunk file_path sym (current_lines sc) (i - 1)]
       else yielded
   | None => yielded
   end,
   {| current_symbol :=
        Some {| sym_type := type; sym_name := name; sym_start := i |};
      current_lines := [line];
      current_indent := indent_of line |}).

(** The branch [elif current_symbol:] (and the implicit else, which does
    nothing): the line is appended when it is blank or indented at least
    as much as the signature, otherwise the symbol ends before it. *)
Definition continue_symbol (file_path : string) (i : Z) (line : string)
    (st : list CodeChunk * scan) : list CodeChunk * scan :=
  let '(yielded, sc) := st in
  let stripped := text.lstrip line in
  let indent := indent_of line in
  match current_symbol sc with
  | Some sym =>
      if (stripped =? EmptyString)%string || (current_indent sc <? indent) then
        (yielded,
         {| current_symbol := current_symbol sc;
            current_lines := current_lines sc ++ [line];
            current_indent := current_indent sc |})
      else if (indent =? current_indent sc) then
        (yielded,
         {| current_symbol := current_symbol sc;
            current_lines := current_lines sc ++ [line];
            current_indent := current_indent sc |})
      else
        (yielded ++ [symbol_chunk file_path sym (current_lines sc) (i - 1)],
         {| current_symbol := None;
            current_lines := [];
            current_indent := current_indent sc |})
  | None => (yielded, sc)
  end.

(** One iteration of the scan over [enumerate(lines, 1)]. *)
Definition symbol_step (file_path : string) (i : Z) (line : string)
    (st : list CodeChunk * scan) : list CodeChunk * scan :=
  let stripped := text.lstrip line in
  match class_match stripped, func_match stripped with
  | Some name, _ => start_symbol file_path i line "class" name st
  | None, Some name => start_symbol file_path i line "function" name st
  | None, None => continue_symbol file_path i line st
  end.

Fixpoint symbol_loop (file_path : string) (i : Z) (lines : list string)
    (st : list CodeChunk * scan) : list CodeChunk * scan :=
  match lines with
  | [] => st
  | line :: rest =>
      symbol_loop file_path (i + 1) rest (symbol_step file_path i line st)
  end.

(** [extract_python_symbols]. *)
Definition extract_python_symbols (content file_path : string) : list CodeChunk :=
  let lines := text.split_newline content in
  let '(yielded, sc) :=
    symbol_loop file_path 1 lines
      ([], {| current_symbol := None; current_lines := [];
              current_indent := 0 |}) in
  match current_symbol sc with
  | Some sym =>
      if negb (bool_decide (current_lines sc = []))
      then yielded ++ [symbol_chunk file_path sym (current_lines sc)
                         (Z.of_nat (length lines))]
      else yielded
  | None => yielded
  end.

(** *** Files *)

(** What [chunk_file] sees of a file: its path as a string, its path
    relative to the repository root, and what [read_file_safe] returns
    for it. *)
Record source_file : Type := {
  path : string;
  relative_path : string;
  read_file_safe : option string;
}.

(** The three guards under which [chunk_file] yields nothing. *)
Definition skipped_entirely (f : source_file) : bool :=
  should_skip_file (path f)
  || match read_file_safe f with
     | None => true
     | Some content =>
         (content =? EmptyString)%string || (text.len (text.strip content) <? 50)
     end.

(** [chunk_file]. *)
Definition chunk_file (f : source_file) : list CodeChunk :=
  if should_skip_file (path f) then []
  else
    match read_file_safe f with
    | None => []
    | Some content =>
        if (content =? EmptyString)%string then []
        else if text.len (text.strip content) <? 50 then []
        else
          let language := detect_language (path f) in
          let chunks :=
            if bool_decide (language = Some "python"%string)
            then extract_python_symbols content (relative_path f)
            else [] in
          if negb (bool_decide (chunks = [])) then chunks
          else sliding_window_chunk content (relative_path f) language 1500 200
    end.

(** *** Vocabulary for line coverage *)

(** Line [i] lies in the line range of chunk [c]. *)
Definition covers (c : CodeChunk) (i : Z) : Prop :=
  start_line c ≤ i ≤ end_line c.

Definition covered (chunks : list CodeChunk) (i : Z) : Prop :=
  ∃ c, c ∈ chunks ∧ covers c i.

(** The integers from [lo] to [hi], both included. *)
Definition zrange (lo hi : Z) : list Z :=
  map (fun k => lo + Z.of_nat k) (seq 0 (Z.to_nat (hi - lo + 1))).

(** The span of each chunk that is not shared with the chunk before it:
    the whole range for the first chunk, and the lines after the previous
    chunk's last line for the others. *)
Fixpoint spans_after (prev_end : Z) (chunks : list CodeChunk) : list (Z * Z) :=
  match chunks with
  | [] => []
  | c :: rest => (prev_end + 1, end_line c) :: spans_after (end_line c) rest
  end.

Definition non_overlap_spans (chunks : list CodeChunk) : list (Z * Z) :=
  match chunks with
  | [] => []
  | c :: rest => (start_line c, end_line c) :: spans_after (end_line c) rest
  end.

(** The lines of the file in the line range of a chunk. *)
Definition chunk_lines (lines : list string) (c : CodeChunk) : list string :=
  firstn (Z.to_nat (end_line c - start_line c + 1))
    (skipn (Z.to_nat (start_line c - 1)) lines).

(** Line [i] (1-based) of a file; the empty string out of range. *)
Definition line_at (lines : list string) (i : Z) : string :=
  nth (Z.to_nat (i - 1)) lines EmptyString.

(** Line [j] may follow signature line [s] inside its symbol. *)
Definition continues (lines : list string) (s j : Z) : Prop :=
  is_signature (line_at lines j) = false
  ∧ (text.lstrip (line_at lines j) = EmptyString
     ∨ indent_of (line_at lines s) ≤ indent_of (line_at lines j)).

(** Line [i] starts a symbol or is taken into the symbol opened by the
    last signature line [s] at or before it: every line after [s] up to
    [i] is blank or indented at least as much as [s], and is no signature
    itself. *)
Definition absorbed (lines : list string) (i : Z) : Prop :=
  ∃ s, 1 ≤ s ≤ i
       ∧ is_signature (line_at lines s) = true
       ∧ ∀ j, s < j ≤ i → continues lines s j.

End chunking.

(** ** Loop invariants of the chunking strategies *)

Module chunking_invariants.
Import chunking.

(** The last line of the last chunk yielded so far; 0 before any. *)
Definition last_end (yielded : list CodeChunk) : Z :=
  match last yielded with
  | Some c => end_line c
  | None => 0
  end.

(** How many trailing lines of chunk [c] seed the next window. *)
Definition overlap_length (overlap_tokens : Z) (lines : list string)
    (c : CodeChunk) : Z :=
  Z.of_nat (length (fst (overlap_of overlap_tokens (chunk_lines lines c)))).

(** A yielded chunk lies within the file and holds the text of its lines. *)
Definition chunk_within (lines : list string) (c : CodeChunk) : Prop :=
  1 ≤ start_line c ≤ end_line c
  ∧ end_line c ≤ Z.of_nat (length lines)
  ∧ content c = text.join_newline (chunk_lines lines c).

(** Consecutive chunks are linked by the overlap. *)
Definition linked (overlap_tokens : Z) (lines : list string)
    (chunks : list CodeChunk) : Prop :=
  ∀ j prev next,
    chunks !! j = Some prev → chunks !! S j = Some next →
    start_line next
    = end_line prev - overlap_length overlap_tokens lines prev + 1
    ∧ 0 ≤ overlap_length overlap_tokens lines prev
        ≤ end_line prev - start_line prev + 1.

(** The state of the sliding-window loop once the lines [pre] of the
    file [lines] have been consumed; [b] bounds the last line yielded. *)
Definition sliding_inv (overlap_tokens : Z) (lines pre : list string) (b : Z)
    (st : list CodeChunk * window) : Prop :=
  let '(yielded, w) := st in
  1 ≤ current_start_line w ≤ b + 1
  ∧ current_chunk_lines w = skipn (Z.to_nat (current_start_line w - 1)) pre
  ∧ (yielded = [] → current_start_line w = 1)
  ∧ 0 ≤ last_end yielded ≤ b
  ∧ current_start_line w ≤ last_end yielded + 1
  ∧ (∀ c, last yielded = Some c →
       current_start_line w
       = end_line c - overlap_length overlap_tokens lines c + 1
       ∧ 0 ≤ overlap_length overlap_tokens lines c
           ≤ end_line c - start_line c + 1)
  ∧ linked overlap_tokens lines yielded
  ∧ flat_map (fun sp => zrange (fst sp) (snd sp)) (non_overlap_spans yielded)
    = zrange 1 (last_end yielded)
  ∧ (∀ i, 1 ≤ i ≤ last_end yielded → covered yielded i)
  ∧ Forall (chunk_within lines) yielded.

(** Line [i] lies in the symbol the scan has open. *)
Definition open_covers (sc : scan) (i : Z) : Prop :=
  ∃ sym, current_symbol sc = Some sym ∧ sym_start sym ≤ i.

(** The state of the symbol scan once the lines [pre] of the file
    [lines] have been consumed. *)
Definition symbol_inv (lines pre : list string) (st : list CodeChunk * scan)
  : Prop :=
  let '(yielded, sc) := st in
  let k := Z.of_nat (length pre) in
  Forall (fun c => 1 ≤ start_line c ≤ end_line c ∧ end_line c ≤ k) yielded
  ∧ (∀ i, 1 ≤ i ≤ k → (covered yielded i ∨ open_covers sc i) ↔ absorbed lines i)
  ∧ match current_symbol sc with
    | Some sym =>
        1 ≤ sym_start sym ≤ k
        ∧ is_signature (line_at lines (sym_start sym)) = true
        ∧ current_indent sc = indent_of (line_at lines (sym_start sym))
        ∧ current_lines sc ≠ []
        ∧ ∀ j, sym_start sym < j ≤ k → continues lines (sym_start sym) j
    | None => ¬ absorbed lines k
    end.

End chunking_invariants.

(** ** Python list slicing *)

Module py.

(** [l[start:stop]] with Python's treatment of negative and
    out-of-range bounds ([None] for an omitted bound). *)
Definition slice {A : Type} (l : list A) (start stop : option Z) : list A :=
  let n := Z.of_nat (length l) in
  let norm (x : Z) := if x <? 0 then Z.max (x + n) 0 else Z.min x n in
  let a := match start with Some x => norm x | None => 0 end in
  let b := match stop with Some x => norm x | None => n end in
  firstn (Z.to_nat (b - a)) (skipn (Z.to_nat a) l).

End py.

(** ** app/config.py and the capabilities supplied from outside *)

Module config.

(** The settings the modelled code reads, with their defaults. *)
Record Settings : Type := {
  storage_path : string;
  similarity_threshold : Q;
  max_conversation_tokens : Z;
  max_conversation_history : Z;
  session_ttl_hours : Z;
}.

Definition defaults : Settings :=
  {| storage_path := "data";
     similarity_threshold := 0.65%Q;
     max_conversation_tokens := 500;
     max_conversation_history := 5;
     session_ttl_hours := 24 |}.

Definition indexes_path (s : Settings) : string := storage_path s +:+ "/indexes".

(** A value produced by [json.loads]. *)
Inductive json : Type :=
| JNull
| JBool (b : bool)
| JNumber (q : Q)
| JString (s : string)
| JArray (items : list json)
| JObject (fields : list (string * json)).

(** A chat message [{"role": ..., "content": ...}]. *)
Record chat_message : Type := {
  msg_role : string;
  msg_content : string;
}.

(** What the core takes from its collaborators: the loaded settings,
    the embedding model, FAISS's float32 vectors with L2 normalisation
    and inner product (scores are the rational values of the floats),
    [IndexFlatIP.search] over the stored vectors, NumPy's comparison of a
    float32 score with a Python float, the completion endpoint,
    [fnmatch.fnmatch], [json], and pydantic's validation of a [float]
    and of a [bool] field. *)
Class Capabilities : Type := {
  settings : Settings;
  Vec : Type;
  normalize_L2 : Vec → Vec;
  inner_product : Vec → Vec → Q;
  index_search : list Vec → Vec → Z → list (Q * Z);
  score_ge : Q → Q → bool;
  generate_embedding : string → Vec;
  generate_chat_completion : list chat_message → Q → string;
  fnmatch : string → string → bool;
  json_loads : string → option json;
  json_dumps : json → string;
  pydantic_float : json → option Q;
  pydantic_bool : json → option bool;
}.

End config.

(** ** app/core/vector_store.py *)

Module vector_store.
Import config.

Section with_capabilities.
Context `{Capabilities}.

(** [faiss.IndexFlatIP]: the stored vectors, in insertion order. *)
Record IndexFlatIP : Type := {
  d : Z;
  xb : list Vec;
}.

Definition ntotal (index : IndexFlatIP) : Z := Z.of_nat (length (xb index)).

(** One (score, label) pair of a FAISS answer. *)
Definition hit : Type := (Q * Z)%type.

(** Hits are ordered by descending score. *)
Definition by_score_desc (x y : hit) : Prop := (fst y <= fst x)%Q.

(** [index.search(query, k)]: the (score, label) pairs FAISS returns
    for the vectors the index holds.  Which of several hits of equal
    score are kept, and in which order, is FAISS's choice and may differ
    from one [k] to another. *)
Definition faiss_search (index : IndexFlatIP) (query : Vec) (k : Z) : list hit :=
  index_search (xb index) query k.

(** What an exhaustive inner-product index answers for [1 <= k <= ntotal]:
    [k] hits, each the slot of a stored vector with its inner product, no
    slot twice, best first. *)
Definition exact_top_k : Prop :=
  ∀ (stored : list Vec) (query : Vec) (k : Z),
    0 < k ≤ Z.of_nat (length stored) →
    let hits := index_search stored query k in
    Z.of_nat (length hits) = k
    ∧ NoDup (map snd hits)
    ∧ Forall (fun h => ∃ slot v, snd h = Z.of_nat slot
                        ∧ stored !! slot = Some v
                        ∧ fst h = inner_product query v) hits
    ∧ StronglySorted by_score_desc hits.

(** The [SearchResult] named tuple. *)
Record SearchResult : Type := {
  index : Z;
  score : Q;
}.

(** The attributes of a [VectorStore] instance. *)
Record VectorStore : Type := {
  repo_id : string;
  dimension : Z;
  vs_index : option IndexFlatIP;
  id_map : list string;
}.

Definition EMBEDDING_DIM : Z := 384.

(** [VectorStore(repo_id)]. *)
Definition init (repo_id : string) : VectorStore :=
  {| repo_id := repo_id; dimension := EMBEDDING_DIM;
     vs_index := None; id_map := [] |}.

Definition _index_path (self : VectorStore) : string :=
  indexes_path settings +:+ "/" +:+ repo_id self +:+ "/index.faiss".

Definition _map_path (self : VectorStore) : string :=
  indexes_path settings +:+ "/" +:+ repo_id self +:+ "/id_map.json".

(** [create_index]. *)
Definition create_index (self : VectorStore) : VectorStore :=
  {| repo_id := repo_id self; dimension := dimension self;
     vs_index := Some {| d := dimension self; xb := [] |};
     id_map := [] |}.

(** [add_embeddings] for vectors of the index's dimension. *)
Definition add_embeddings (self : VectorStore) (embeddings : list Vec)
    (chunk_ids : list string) : VectorStore :=
  let self1 := match vs_index self with
               | None => create_index self
               | Some _ => self
               end in
  {| repo_id := repo_id self1; dimension := dimension self1;
     vs_index :=
       match vs_index self1 with
       | Some idx =>
           Some {| d := d idx; xb := xb idx ++ map normalize_L2 embeddings |}
       | None => None
       end;
     id_map := id_map self1 ++ chunk_ids |}.

(** [search]; [idx >= 0 and score >= threshold] compares a float32
    score with a Python float, which is [score_ge]. *)
Definition search (self : VectorStore) (query_embedding : Vec) (top_k : Z)
    (threshold : Q) : list SearchResult :=
  match vs_index self with
  | None => []
  | Some idx =>
      if ntotal idx =? 0 then []
      else
        let query := normalize_L2 query_embedding in
        let hits := faiss_search idx query (Z.min top_k (ntotal idx)) in
        map (fun h => {| index := snd h; score := fst h |})
          (List.filter (fun h => (0 <=? snd h) && score_ge (fst h) threshold) hits)
  end.

(** [get_chunk_id]. *)
Definition get_chunk_id (self : VectorStore) (index : Z) : option string :=
  if (0 <=? index) && (index <? Z.of_nat (length (id_map self)))
  then id_map self !! Z.to_nat index
  else None.

(** [size]. *)
Definition size (self : VectorStore) : Z :=
  match vs_index self with
  | None => 0
  | Some idx => ntotal idx
  end.

(** The persisted artifacts, by what they decode to: a file written by
    [faiss.write_index], or one written by [json.dump] of the id map. *)
Inductive artifact : Type :=
| FaissFile (index : IndexFlatIP)
| JsonFile (ids : list string).

(** [save]: both artifacts are written, or nothing when there is no
    index. *)
Definition save (self : VectorStore) (disk : gmap string artifact)
  : gmap string artifact :=
  match vs_index self with
  | None => disk
  | Some idx =>
      <[_map_path self := JsonFile (id_map self)]>
        (<[_index_path self := FaissFile idx]> disk)
  end.

(** [load]: the flag returned and the instance afterwards.  A file of
    the wrong kind makes the reader raise, which [load] turns into
    [False]; the index, read first, stays assigned in that case. *)
Definition load (self : VectorStore) (disk : gmap string artifact)
  : bool * VectorStore :=
  match disk !! _index_path self, disk !! _map_path self with
  | Some index_file, Some map_file =>
      match index_file with
      | FaissFile idx =>
          let self1 := {| repo_id := repo_id self; dimension := dimension self;
                          vs_index := Some idx; id_map := id_map self |} in
          match map_file with
          | JsonFile ids =>
              (true, {| repo_id := repo_id self; dimension := dimension self;
                        vs_index := Some idx; id_map := ids |})
          | FaissFile _ => (false, self1)
          end
      | JsonFile _ => (false, self)
      end
  | _, _ => (false, self)
  end.

(** [delete]. *)
Definition delete (self : VectorStore) (disk : gmap string artifact)
  : bool * gmap string artifact :=
  (bool_decide (is_Some (disk !! _index_path self))
   || bool_decide (is_Some (disk !! _map_path self)),
   base.delete (_map_path self) (base.delete (_index_path self) disk)).

End with_capabilities.
End vector_store.

(** ** app/schemas: the response models used by search and tutor *)

Module schemas.
Import errors.

(** [SearchResult] of app/schemas/intelligence.py. *)
Record SearchResult : Type := {
  file_path : string;
  symbol : option string;
  symbol_type : option string;
  start_line : Z;
  end_line : Z;
  content : string;
  score : Q;
  language : option string;
}.

(** Constructing a [SearchResult] validates [0 <= score <= 1]. *)
Definition make_SearchResult (r : SearchResult) : result SearchResult :=
  if Qle_bool 0 (score r) && Qle_bool (score r) 1 then Ok r
  else Raise ValidationError.

(** [CodeReference] of app/schemas/tutor.py. *)
Record CodeReference : Type := {
  file : string;
  ref_symbol : option string;
  lines : string;
  ref_content : option string;
}.

(** [AskResponse] of app/schemas/tutor.py. *)
Record AskResponse : Type := {
  session_id : string;
  question : string;
  answer : string;
  references : list CodeReference;
  confidence : Q;
  answered : bool;
}.

(** Constructing an [AskResponse] validates [0 <= confidence <= 1]. *)
Definition make_AskResponse (r : AskResponse) : result AskResponse :=
  if Qle_bool 0 (confidence r) && Qle_bool (confidence r) 1 then Ok r
  else Raise ValidationError.

End schemas.

(** ** app/services/search.py *)

Module search.
Import errors config.

Section with_capabilities.
Context `{Capabilities}.

(** [min_score or settings.similarity_threshold]: a missing or zero
    [min_score] gives the configured threshold. *)
Definition threshold_of (min_score : option Q) : Q :=
  match min_score with
  | Some m => if Qeq_bool m 0 then similarity_threshold settings else m
  | None => similarity_threshold settings
  end.

(** The list comprehension building [chunk_ids]. *)
Definition chunk_ids_of (vs : vector_store.VectorStore)
    (search_results : list vector_store.SearchResult) : list string :=
  omap (fun r =>
          match vector_store.get_chunk_id vs (vector_store.index r) with
          | Some cid => if text.truthy (Some cid) then Some cid else None
          | None => None
          end)
       search_results.

(** The rows of [select(CodeChunk).where(CodeChunk.id.in_(chunk_ids))],
    keyed by id. *)
Definition chunks_by_id (db : database.Db) (chunk_ids : list string)
  : gmap string code_chunk.CodeChunk :=
  filter (fun kv => fst kv ∈ chunk_ids) (database.code_chunks db).

(** The body of [for search_result in search_results]: [None] for
    [continue], otherwise the constructed result. *)
Definition result_for (vs : vector_store.VectorStore)
    (by_id : gmap string code_chunk.CodeChunk) (file_filter : option string)
    (search_result : vector_store.SearchResult)
  : option (result schemas.SearchResult) :=
  match vector_store.get_chunk_id vs (vector_store.index search_result) with
  | None => None
  | Some chunk_id =>
      if negb (text.truthy (Some chunk_id)) then None
      else
        match by_id !! chunk_id with
        | None => None
        | Some chunk =>
            let filtered_out :=
              match file_filter with
              | Some pattern =>
                  text.truthy (Some pattern)
                  && negb (fnmatch (code_chunk.file_path chunk) pattern)
              | None => false
              end in
            if filtered_out then None
            else
              Some (schemas.make_SearchResult
                      {| schemas.file_path := code_chunk.file_path chunk;
                         schemas.symbol := code_chunk.symbol_name chunk;
                         schemas.symbol_type := code_chunk.symbol_type chunk;
                         schemas.start_line := code_chunk.start_line chunk;
                         schemas.end_line := code_chunk.end_line chunk;
                         schemas.content := code_chunk.content chunk;
                         schemas.score := vector_store.score search_result;
                         schemas.language := code_chunk.language chunk |})
        end
  end.

(** The loop appending to [results]; the first failing construction
    raises. *)
Fixpoint build_results (vs : vector_store.VectorStore)
    (by_id : gmap string code_chunk.CodeChunk) (file_filter : option string)
    (search_results : list vector_store.SearchResult)
  : result (list schemas.SearchResult) :=
  match search_results with
  | [] => Ok []
  | search_result :: rest =>
      match result_for vs by_id file_filter search_result with
      | None => build_results vs by_id file_filter rest
      | Some (Raise e) => Raise e
      | Some (Ok r) =>
          match build_results vs by_id file_filter rest with
          | Ok rs => Ok (r :: rs)
          | Raise e => Raise e
          end
      end
  end.

(** [search_code]: the page of results and the total. *)
Definition search_code (db : database.Db)
    (disk : gmap string vector_store.artifact) (repo_id query : string)
    (limit offset : Z) (min_score : option Q) (file_filter : option string)
  : result (list schemas.SearchResult * Z) :=
  match lifecycle.check_api_readiness db repo_id "search" with
  | Raise e => Raise e
  | Ok _ =>
      let threshold := threshold_of min_score in
      let query_embedding := generate_embedding query in
      let '(loaded, vs) := vector_store.load (vector_store.init repo_id) disk in
      if negb loaded then Ok ([], 0)
      else
        let search_results :=
          vector_store.search vs query_embedding (limit + offset + 50) threshold in
        if bool_decide (search_results = []) then Ok ([], 0)
        else
          let chunk_ids := chunk_ids_of vs search_results in
          let by_id := chunks_by_id db chunk_ids in
          match build_results vs by_id file_filter search_results with
          | Raise e => Raise e
          | Ok results =>
              let total := Z.of_nat (length results) in
              Ok (py.slice results (Some offset) (Some (offset + limit)), total)
          end
  end.

(** The number of vectors in the persisted index of a repository (0
    when none can be loaded). *)
Definition index_size (disk : gmap string vector_store.artifact)
    (repo_id : string) : Z :=
  vector_store.size (snd (vector_store.load (vector_store.init repo_id) disk)).

(** The page of a search outcome; empty when the search raised. *)
Definition page_of (r : result (list schemas.SearchResult * Z))
  : list schemas.SearchResult :=
  match r with
  | Ok (page, _) => page
  | Raise _ => []
  end.

End with_capabilities.
End search.

(** ** app/services/tutor.py *)

Module tutor.
Import errors config.

Section with_capabilities.
Context `{Capabilities}.

(** What a tutor request can read and change: the relational store,
    the persisted indexes, the clock (microseconds), and the record of
    the calls made to the completion capability. *)
Record World : Type := {
  db : database.Db;
  disk : gmap string vector_store.artifact;
  now : Z;
  completion_calls : list (list chat_message);
}.

Definition with_db (w : World) (db' : database.Db) : World :=
  {| db := db'; disk := disk w; now := now w;
     completion_calls := completion_calls w |}.

Definition record_completion_call (w : World) (messages : list chat_message)
  : World :=
  {| db := db w; disk := disk w; now := now w;
     completion_calls := completion_calls w ++ [messages] |}.

Definition dq : string := String (ascii_of_nat 34) EmptyString.
Definition quoted (s : string) : string := dq +:+ s +:+ dq.
Definition nl : string := String text.newline EmptyString.

Definition NOT_FOUND_ANSWER : string := "This could not be found in the repository.".

Definition TUTOR_SYSTEM_PROMPT : string :=
  "You are a code tutor helping developers understand a codebase.
You MUST follow these rules strictly:

1. ONLY answer based on the provided code context
2. ALWAYS cite specific files and line numbers for every claim
3. If you cannot find the answer in the provided context, say: "
  +:+ quoted NOT_FOUND_ANSWER +:+ "
4. Never make up or assume information not in the context
5. Be concise but thorough

Format your response as JSON with this structure:
{
  " +:+ quoted "answer" +:+ ": " +:+ quoted "Your explanation here" +:+ ",
  " +:+ quoted "references" +:+ ": [{" +:+ quoted "file" +:+ ": "
  +:+ quoted "path/to/file.py" +:+ ", " +:+ quoted "lines" +:+ ": "
  +:+ quoted "10-25" +:+ ", " +:+ quoted "symbol" +:+ ": "
  +:+ quoted "function_name" +:+ "}],
  " +:+ quoted "confidence" +:+ ": 0.85,
  " +:+ quoted "answered" +:+ ": true
}

If you cannot answer, use:
{
  " +:+ quoted "answer" +:+ ": " +:+ quoted NOT_FOUND_ANSWER +:+ ",
  " +:+ quoted "references" +:+ ": [],
  " +:+ quoted "confidence" +:+ ": 0.0,
  " +:+ quoted "answered" +:+ ": false
}".

(** [str(n)] for an integer. *)
Definition str_of_Z (n : Z) : string := NilZero.string_of_int (Z.to_int n).

Definition or_default (o : option string) (default : string) : string :=
  if text.truthy o then match o with Some s => s | None => default end
  else default.

(** [get_session]: the session, unless it is missing or expired. *)
Definition get_session (w : World) (session_id : string)
  : result tutor_session.TutorSession :=
  match database.tutor_sessions (db w) !! session_id with
  | None => Raise (SessionNotFoundError session_id)
  | Some session =>
      let age := now w - tutor_session.last_activity_at session in
      if session_ttl_hours settings * 3600 * 1000000 <? age
      then Raise (SessionNotFoundError session_id)
      else Ok session
  end.

(** [get_recent_messages]: the newest [limit] messages of the session,
    oldest first. *)
Definition get_recent_messages (d : database.Db) (session_id : string)
    (limit : nat) : list tutor_session.TutorMessage :=
  let of_session :=
    List.filter
      (fun m => (tutor_session.session_id m =? session_id)%string)
      (database.tutor_messages d) in
  rev (firstn limit (rev of_session)).

(** The loop [while count_tokens(summary) > max: summary = summary[100:]];
    it ends at the latest on the empty string when the budget is not
    negative, which bounds the number of rounds by the length. *)
Fixpoint trim_summary (rounds : nat) (summary : string) : string :=
  match rounds with
  | O => summary
  | S rounds' =>
      if max_conversation_tokens settings <? llm.count_tokens summary
      then trim_summary rounds' (text.drop 100 summary)
      else summary
  end.

(** [update_rolling_summary]: the session object afterwards. *)
Definition update_rolling_summary (d : database.Db)
    (session : tutor_session.TutorSession) : tutor_session.TutorSession :=
  let messages := get_recent_messages d (tutor_session.id session) 10 in
  if (length messages <? 4)%nat then session
  else
    let summary_parts :=
      map (fun msg =>
             if (tutor_session.role msg =? "user")%string
             then "Q: " +:+ text.take 100 (tutor_session.content msg)
             else "A: " +:+ text.take 100 (tutor_session.content msg))
          (py.slice messages (Some (-6)) None) in
    let summary := text.join " | " summary_parts in
    tutor_session.set_rolling_conversation_summary session
      (Some (trim_summary (S (String.length summary)) summary)).

(** The context block built from the search results. *)
Definition code_context_of (results : list schemas.SearchResult) : string :=
  text.join (nl +:+ nl +:+ "---" +:+ nl +:+ nl)
    (map (fun r =>
            "File: " +:+ schemas.file_path r +:+ " (lines "
            +:+ str_of_Z (schemas.start_line r) +:+ "-"
            +:+ str_of_Z (schemas.end_line r) +:+ ")" +:+ nl
            +:+ "Symbol: " +:+ or_default (schemas.symbol r) "N/A" +:+ nl
            +:+ "```" +:+ or_default (schemas.language r) EmptyString +:+ nl
            +:+ schemas.content r +:+ nl +:+ "```")
         results).

(** The message list sent to the completion capability. *)
Definition build_messages (session : tutor_session.TutorSession)
    (history : list tutor_session.TutorMessage)
    (results : list schemas.SearchResult) (question : string)
  : list chat_message :=
  [{| msg_role := "system"; msg_content := TUTOR_SYSTEM_PROMPT |}]
  ++ (if text.truthy (tutor_session.rolling_conversation_summary session)
      then [{| msg_role := "system";
               msg_content :=
                 "Previous conversation summary: "
                 +:+ or_default
                       (tutor_session.rolling_conversation_summary session) EmptyString |}]
      else [])
  ++ map (fun m => {| msg_role := tutor_session.role m;
                      msg_content := tutor_session.content m |})
       (py.slice history (Some (- max_conversation_history settings)) None)
  ++ [{| msg_role := "user";
         msg_content :=
           "Code Context:" +:+ nl +:+ code_context_of results +:+ nl +:+ nl
           +:+ "Question: " +:+ question +:+ nl +:+ nl
           +:+ "Remember: Answer ONLY based on the code context above. Cite specific files and lines." |}].

(** [d.get(key)] on the fields of a JSON object. *)
Definition json_get (fields : list (string * json)) (key : string) : option json :=
  match List.find (fun kv => (fst kv =? key)%string) fields with
  | Some kv => Some (snd kv)
  | None => None
  end.

(** What the parsing step of [ask_question] produces: the values read
    with [.get], as they are, and the references, which are constructed
    (and so validated) there. *)
Record parsed : Type := {
  p_answer : json;
  p_references : list schemas.CodeReference;
  p_confidence : json;
  p_answered : json;
}.

(** One entry of ["references"]: it must be an object whose [file] and
    [lines] are strings and whose [symbol] is a string or absent. *)
Definition reference_of (ref : json) : result schemas.CodeReference :=
  match ref with
  | JObject fields =>
      let str_field key :=
        match json_get fields key with
        | None => Ok EmptyString
        | Some (JString s) => Ok s
        | Some _ => Raise ValidationError
        end in
      match str_field "file"%string, str_field "lines"%string with
      | Ok f, Ok l =>
          match json_get fields "symbol" with
          | None | Some JNull =>
              Ok {| schemas.file := f; schemas.ref_symbol := None;
                    schemas.lines := l; schemas.ref_content := None |}
          | Some (JString s) =>
              Ok {| schemas.file := f; schemas.ref_symbol := Some s;
                    schemas.lines := l; schemas.ref_content := None |}
          | Some _ => Raise ValidationError
          end
      | Raise e, _ => Raise e
      | _, Raise e => Raise e
      end
  | _ => Raise AttributeError
  end.

Fixpoint references_of (refs : list json) : result (list schemas.CodeReference) :=
  match refs with
  | [] => Ok []
  | ref :: rest =>
      match reference_of ref with
      | Raise e => Raise e
      | Ok r =>
          match references_of rest with
          | Raise e => Raise e
          | Ok rs => Ok (r :: rs)
          end
      end
  end.

(** The [try: ... except json.JSONDecodeError:] block.  A completion that
    is JSON but no object, or whose references cannot be constructed,
    makes the request fail here; the answer, the confidence and the
    answered flag are taken as they come and are validated only when the
    response is built. *)
Definition parse_response (response_text : string)
    (results : list schemas.SearchResult) : result parsed :=
  match json_loads response_text with
  | None =>
      Ok {| p_answer := JString response_text;
            p_references :=
              map (fun r =>
                     {| schemas.file := schemas.file_path r;
                        schemas.ref_symbol := None;
                        schemas.lines :=
                          str_of_Z (schemas.start_line r) +:+ "-"
                          +:+ str_of_Z (schemas.end_line r);
                        schemas.ref_content := None |})
                  (py.slice results None (Some 3));
            p_confidence := JNumber 0.5%Q;
            p_answered := JBool true |}
  | Some (JObject fields) =>
      let get_or key default :=
        match json_get fields key with
        | None => default
        | Some v => v
        end in
      let references :=
        match json_get fields "references" with
        | None => Ok []
        | Some (JArray refs) => references_of refs
        | Some (JObject []) => Ok []
        | Some (JString EmptyString) => Ok []
        | Some (JObject _) | Some (JString _) => Raise AttributeError
        | Some _ => Raise TypeError
        end in
      match references with
      | Ok rs =>
          Ok {| p_answer := get_or "answer"%string (JString response_text);
                p_references := rs;
                p_confidence := get_or "confidence"%string (JNumber 0.5%Q);
                p_answered := get_or "answered"%string (JBool true) |}
      | Raise e => Raise e
      end
  | Some _ => Raise AttributeError
  end.

(** [AskResponse(session_id=..., ..., confidence=confidence,
    answered=answered)] for values read from the completion: pydantic
    validates (and where it can, converts) the confidence as a float in
    the range from 0 to 1 and the flag as a bool. *)
Definition validated_AskResponse (session_id question answer : string)
    (references : list schemas.CodeReference) (confidence answered : json)
  : result schemas.AskResponse :=
  match pydantic_float confidence, pydantic_bool answered with
  | Some c, Some b =>
      schemas.make_AskResponse
        {| schemas.session_id := session_id;
           schemas.question := question;
           schemas.answer := answer;
           schemas.references := references;
           schemas.confidence := c;
           schemas.answered := b |}
  | _, _ => Raise ValidationError
  end.

(** [json.dumps([r.model_dump() for r in references])]. *)
Definition dump_references (references : list schemas.CodeReference) : string :=
  let opt (o : option string) :=
    match o with Some s => JString s | None => JNull end in
  json_dumps
    (JArray
       (map (fun r =>
               JObject [ ("file"%string, JString (schemas.file r));
                         ("symbol"%string, opt (schemas.ref_symbol r));
                         ("lines"%string, JString (schemas.lines r));
                         ("content"%string, opt (schemas.ref_content r)) ])
            references)).

(** [ask_question]: the outcome and the world afterwards. *)
Definition ask_question (w : World) (repo_id session_id question : string)
  : result schemas.AskResponse * World :=
  match get_session w session_id with
  | Raise e => (Raise e, w)
  | Ok session =>
      if negb (tutor_session.repo_id session =? repo_id)%string
      then (Raise (SessionNotFoundError session_id), w)
      else
        match search.search_code (db w) (disk w) repo_id question 5 0
                (Some (similarity_threshold settings)) None with
        | Raise e => (Raise e, w)
        | Ok (results, _) =>
            if bool_decide (results = []) then
              (* No relevant code found *)
              (schemas.make_AskResponse
                 {| schemas.session_id := session_id;
                    schemas.question := question;
                    schemas.answer := NOT_FOUND_ANSWER;
                    schemas.references := [];
                    schemas.confidence := 0.0%Q;
                    schemas.answered := false |},
               w)
            else
              let history := get_recent_messages (db w) session_id 10 in
              let messages := build_messages session history results question in
              let response_text := generate_chat_completion messages 0.3%Q in
              let w1 := record_completion_call w messages in
              match parse_response response_text results with
              | Raise e => (Raise e, w1)
              | Ok p =>
                  let user_msg :=
                    {| tutor_session.session_id := session_id;
                       tutor_session.role := "user";
                       tutor_session.content := question;
                       tutor_session.references := None |} in
                  (* db.add(user_msg); await db.flush() *)
                  let db1 := database.add_message (db w1) user_msg in
                  (* db.add(assistant_msg): pending until the commit, and
                     not seen by the query of update_rolling_summary, the
                     session being created with autoflush=False *)
                  let session' := update_rolling_summary db1 session in
                  match p_answer p with
                  | JString answer =>
                      let assistant_msg :=
                        {| tutor_session.session_id := session_id;
                           tutor_session.role := "assistant";
                           tutor_session.content := answer;
                           tutor_session.references :=
                             Some (dump_references (p_references p)) |} in
                      let db2 := database.add_message db1 assistant_msg in
                      (* a changed row gets last_activity_at = now() on update *)
                      let session'' :=
                        if bool_decide
                             (tutor_session.rolling_conversation_summary session'
                              = tutor_session.rolling_conversation_summary session)
                        then session'
                        else tutor_session.set_last_activity_at session' (now w1) in
                      let db3 := database.put_session db2 session'' in
                      let w2 := with_db w1 db3 in
                      (validated_AskResponse session_id question answer
                         (p_references p) (p_confidence p) (p_answered p),
                       w2)
                  | _ =>
                      (* an answer that is no str is rejected by the driver
                         when the commit flushes the assistant row; the
                         session is rolled back *)
                      (Raise DBAPIError, w1)
                  end
              end
        end
  end.

End with_capabilities.
End tutor.

(** ** A reference index: exhaustive search in a stable order *)

Module faiss_reference.

Section generic.
Context {V : Type} (inner_product : V → V → Q).

(** Ordered insertion by descending score; among equal scores the hit
    inserted last comes first. *)
Fixpoint insert_hit (x : Q * Z) (sorted : list (Q * Z)) : list (Q * Z) :=
  match sorted with
  | [] => [x]
  | y :: rest =>
      if Qle_bool (fst y) (fst x) then x :: sorted
      else y :: insert_hit x rest
  end.

(** All stored vectors scored against [query], best first; equal scores
    keep slot order. *)
Definition ranked (stored : list V) (query : V) : list (Q * Z) :=
  fold_right insert_hit []
    (imap (fun slot v => (inner_product query v, Z.of_nat slot)) stored).

(** The [k] best hits. *)
Definition index_search (stored : list V) (query : V) (k : Z) : list (Q * Z) :=
  firstn (Z.to_nat k) (ranked stored query).

End generic.

End faiss_reference.

(** ** Sample records used to exercise the definitions *)

Module samples.

Definition repo (status : string) (error_message : option string)
  : repository.Repository :=
  {| repository.id := "r-1";
     repository.repo_url := "https://github.com/octo/demo";
     repository.name := "demo"; repository.owner := "octo";
     repository.primary_language := None; repository.commit_hash := None;
     repository.status := status; repository.error_message := error_message;
     repository.total_files := None; repository.total_size_bytes := None;
     repository.total_chunks := None; repository.readme_content := None;
     repository.architecture_content := None |}.

Definition pending_job : job.Job :=
  snd (jobs.create_job database.empty "j-1" 0 "r-1" job.INGEST).

(** A small Python file whose first line precedes every signature. *)
Definition python_text : string :=
  "import os


def main():
    print(os.getcwd())
    return 0


main()
".

Definition python_file : chunking.source_file :=
  {| chunking.path := "/data/repos/r-1/tools/run.py";
     chunking.relative_path := "tools/run.py";
     chunking.read_file_safe := Some python_text |}.

(** Capabilities for running the definitions: two-dimensional rational
    vectors that are already of unit length, searched by the reference
    index and compared exactly, one embedding for every text, a
    completion that is no JSON, a glob that understands a leading star,
    and a validation that takes numbers and booleans as they are. *)
Definition caps : config.Capabilities :=
  {| config.settings := config.defaults;
     config.Vec := (Q * Q)%type;
     config.normalize_L2 := fun v => v;
     config.inner_product := fun q v => (fst q * fst v + snd q * snd v)%Q;
     config.index_search :=
       faiss_reference.index_search
         (fun q v => (fst q * fst v + snd q * snd v)%Q);
     config.score_ge := fun score threshold => Qle_bool threshold score;
     config.generate_embedding := fun _ => (3 # 5, 4 # 5)%Q;
     config.generate_chat_completion := fun _ _ => "The parser is in run.py.";
     config.fnmatch :=
       fun name pattern =>
         match pattern with
         | String "*" suffix => text.endswith suffix name
         | _ => (name =? pattern)%string
         end;
     config.json_loads := fun _ => None;
     config.json_dumps := fun _ => "[]";
     config.pydantic_float :=
       fun v => match v with config.JNumber q => Some q | _ => None end;
     config.pydantic_bool :=
       fun v => match v with config.JBool b => Some b | _ => None end |}.

(** [n] chunk ids, each one character long. *)
Definition chunk_ids (n : nat) : list string :=
  map (fun k => String (ascii_of_nat (48 + k)) EmptyString) (seq 0 n).

Definition chunk_row (cid : string) : code_chunk.CodeChunk :=
  {| code_chunk.id := cid; code_chunk.repo_id := "r-1";
     code_chunk.file_path := "tools/run.py";
     code_chunk.start_line := 4; code_chunk.end_line := 10;
     code_chunk.symbol_type := Some "function"%string;
     code_chunk.symbol_name := Some "main"%string;
     code_chunk.language := Some "python"%string;
     code_chunk.content := "def main():";
     code_chunk.token_count := Some 2;
     code_chunk.embedding_index := None |}.

(** An INDEXED repository with [n] chunks, each of which matches every
    query with score 1. *)
Definition indexed_db (n : nat) : database.Db :=
  {| database.repositories := {[ "r-1"%string := repo "INDEXED" None ]};
     database.jobs := ∅;
     database.code_chunks :=
       list_to_map (map (fun cid => (cid, chunk_row cid)) (chunk_ids n));
     database.tutor_sessions := ∅;
     database.tutor_messages := [] |}.

Definition indexed_store (n : nat) : vector_store.VectorStore (H := caps) :=
  vector_store.add_embeddings (H := caps)
    (vector_store.create_index (vector_store.init "r-1"))
    (repeat (3 # 5, 4 # 5)%Q n) (chunk_ids n).

Definition indexed_disk (n : nat) : gmap string (vector_store.artifact (H := caps)) :=
  vector_store.save (indexed_store n) ∅.

(** A tutor session on the sample repository, and a world in which the
    two indexed vectors score 0.6 against every question, which is below
    the configured threshold 0.65. *)
Definition session : tutor_session.TutorSession :=
  {| tutor_session.id := "s-1"; tutor_session.repo_id := "r-1";
     tutor_session.repo_context_summary := Some "Repository: octo/demo"%string;
     tutor_session.rolling_conversation_summary := None;
     tutor_session.created_at := 0; tutor_session.last_activity_at := 0 |}.

Definition store_scoring (v : Q * Q) (n : nat) : vector_store.VectorStore (H := caps) :=
  vector_store.add_embeddings (H := caps)
    (vector_store.create_index (vector_store.init "r-1"))
    (repeat v n) (chunk_ids n).

Definition tutor_world (v : Q * Q) : tutor.World (H := caps) :=
  {| tutor.db := database.put_session (indexed_db 2) session;
     tutor.disk := vector_store.save (store_scoring v 2) ∅;
     tutor.now := 1000;
     tutor.completion_calls := [] |}.

Definition unrelated_world : tutor.World (H := caps) := tutor_world (1, 0)%Q.
Definition related_world : tutor.World (H := caps) := tutor_world (3 # 5, 4 # 5)%Q.

End samples.

(** * Further models *)

(** ** app/core/chunking.py: the repository walk, and further invariants *)

Module chunk_walk.
Import chunking.

(** The inner loop [for chunk in chunk_file(file_path, repo_path)] of
    [chunk_repository]: the chunks yielded from this file, the value of
    [chunk_count] afterwards, and whether the generator returned. *)
Fixpoint yield_chunks (max_chunks : Z) (chunks : list CodeChunk)
    (chunk_count : Z) : list CodeChunk * Z * bool :=
  match chunks with
  | [] => ([], chunk_count, false)
  | chunk :: rest =>
      let chunk_count := chunk_count + 1 in
      if max_chunks <? chunk_count then ([], chunk_count, true)
      else
        let '(yielded, n, returned) := yield_chunks max_chunks rest chunk_count in
        (chunk :: yielded, n, returned)
  end.

(** The outer loop over the files that [rglob] visits, in its order
    (entries that are no files are left out of [files]). *)
Fixpoint chunk_repository_loop (max_files max_chunks : Z)
    (files : list source_file) (file_count chunk_count : Z) : list CodeChunk :=
  match files with
  | [] => []
  | f :: rest =>
      if should_skip_file (path f)
      then chunk_repository_loop max_files max_chunks rest file_count chunk_count
      else
        let file_count := file_count + 1 in
        if max_files <? file_count then []
        else
          let '(yielded, n, returned) :=
            yield_chunks max_chunks (chunk_file f) chunk_count in
          if returned then yielded
          else yielded
               ++ chunk_repository_loop max_files max_chunks rest file_count n
  end.

(** [chunk_repository], for the values [max_files] and [max_chunks] of
    the settings. *)
Definition chunk_repository (max_files max_chunks : Z)
    (files : list source_file) : list CodeChunk :=
  chunk_repository_loop max_files max_chunks files 0 0.

(** The files that count against [max_files]. *)
Definition eligible (f : source_file) : bool := negb (should_skip_file (path f)).

End chunk_walk.

Module chunk_text.
Import chunking chunking_invariants.

(** The tokens of a list of lines, counted line by line. *)
Definition sum_tokens (lines : list string) : Z :=
  fold_right Z.add 0 (map llm.count_tokens lines).

(** The token bookkeeping of the sliding-window loop. *)
Definition tokens_inv (lines : list string) (st : list CodeChunk * window)
  : Prop :=
  let '(yielded, w) := st in
  current_tokens w = sum_tokens (current_chunk_lines w)
  ∧ Forall (fun c => token_count c = Some (sum_tokens (chunk_lines lines c)))
      yielded.

(** The window and every yielded chunk stay within [max_tokens]. *)
Definition budget_inv (max_tokens : Z) (st : list CodeChunk * window) : Prop :=
  let '(yielded, w) := st in
  current_tokens w ≤ max_tokens
  ∧ Forall (fun c => ∃ t, token_count c = Some t ∧ t ≤ max_tokens) yielded.

(** The labels every chunk of a sliding window carries. *)
Definition window_labels (file_path : string) (language : option string)
    (c : CodeChunk) : Prop :=
  chunking.file_path c = file_path ∧ chunking.language c = language
  ∧ symbol_type c = None ∧ symbol_name c = None.

(** The first line of chunk [c] is a signature line that declares the
    symbol the chunk is labelled with. *)
Definition declares (lines : list string) (c : CodeChunk) : Prop :=
  let stripped := text.lstrip (line_at lines (start_line c)) in
  ∃ name, symbol_name c = Some name
    ∧ (class_match stripped = Some name ∧ symbol_type c = Some "class"%string
       ∨ class_match stripped = None ∧ func_match stripped = Some name
         ∧ symbol_type c = Some "function"%string).

(** A chunk of the symbol scan: it lies in the file, holds the text of
    its lines, starts at the signature of its symbol and counts the
    tokens of its content. *)
Definition symbol_chunk_ok (file_path : string) (lines : list string)
    (c : CodeChunk) : Prop :=
  chunk_within lines c
  ∧ declares lines c
  ∧ chunking.file_path c = file_path
  ∧ language c = Some "python"%string
  ∧ token_count c = Some (llm.count_tokens (content c)).

(** Chunk [a] ends before chunk [b] starts. *)
Definition before (a b : CodeChunk) : Prop := end_line a < start_line b.

(** The symbol named by the signature line [line], as [symbol_step]
    reads it. *)
Definition signature_of (line : string) (sym : symbol) : Prop :=
  let stripped := text.lstrip line in
  class_match stripped = Some (sym_name sym) ∧ sym_type sym = "class"%string
  ∨ class_match stripped = None ∧ func_match stripped = Some (sym_name sym)
    ∧ sym_type sym = "function"%string.

(** The state of the symbol scan once the lines [pre] of the file
    [lines] have been consumed, as far as the text of the chunks goes. *)
Definition symbol_text_inv (file_path : string) (lines pre : list string)
    (st : list CodeChunk * scan) : Prop :=
  let '(yielded, sc) := st in
  let k := Z.of_nat (length pre) in
  Forall (symbol_chunk_ok file_path lines) yielded
  ∧ Forall (fun c => end_line c ≤ k) yielded
  ∧ StronglySorted before yielded
  ∧ match current_symbol sc with
    | Some sym =>
        1 ≤ sym_start sym ≤ k
        ∧ current_lines sc = skipn (Z.to_nat (sym_start sym - 1)) pre
        ∧ Forall (fun c => end_line c < sym_start sym) yielded
        ∧ signature_of (line_at lines (sym_start sym)) sym
    | None => True
    end.

End chunk_text.

(** ** app/services/jobs.py: the queries *)

Module job_queue.
Import job.

(** The error of [get_job]. *)
Inductive error : Type :=
| JobNotFoundError (job_id : string).

(** The rows of the [jobs] table. *)
Definition rows (db : database.Db) : list Job :=
  map snd (map_to_list (database.jobs db)).

(** [ORDER BY key]: rows are put in ascending order of [key]; the order
    among rows of equal key is the database's choice, here the order of
    insertion into the result. *)
Fixpoint insert_by (key : Job → Z) (j : Job) (sorted : list Job) : list Job :=
  match sorted with
  | [] => [j]
  | x :: rest =>
      if key j <=? key x then j :: sorted else x :: insert_by key j rest
  end.

Definition order_by (key : Job → Z) (l : list Job) : list Job :=
  fold_right (insert_by key) [] l.

(** [get_job]: the row with that primary key, or [JobNotFoundError]. *)
Definition get_job (db : database.Db) (job_id : string) : error + Job :=
  match database.jobs db !! job_id with
  | Some j => inr j
  | None => inl (JobNotFoundError job_id)
  end.

(** [get_pending_jobs], for a [limit] that is not negative. *)
Definition get_pending_jobs (db : database.Db) (limit : Z) : list Job :=
  firstn (Z.to_nat limit)
    (order_by created_at
       (List.filter (fun j => (status j =? value PENDING)%string) (rows db))).

(** [get_jobs_for_repo]: newest first. *)
Definition get_jobs_for_repo (db : database.Db) (repo_id : string) : list Job :=
  order_by (fun j => - created_at j)
    (List.filter (fun j => (job.repo_id j =? repo_id)%string) (rows db)).

(** Every row is stored under its primary key. *)
Definition keyed (db : database.Db) : Prop :=
  ∀ k j, database.jobs db !! k = Some j → id j = k.

End job_queue.

(** ** app/services/tutor.py: creating a session *)

Module tutor_sessions.
Import errors config.

Section with_capabilities.
Context `{Capabilities}.

(** The world at a later reading of the clock. *)
Definition at_time (w : tutor.World) (t : Z) : tutor.World :=
  {| tutor.db := tutor.db w; tutor.disk := tutor.disk w; tutor.now := t;
     tutor.completion_calls := tutor.completion_calls w |}.

(** [n or 0] for an optional integer. *)
Definition or_zero (o : option Z) : Z :=
  match o with Some n => n | None => 0 end.

(** The f-string building [context_summary]. *)
Definition context_summary_of (repo : repository.Repository)
    (initial_context : option string) : string :=
  let context_summary :=
    "Repository: " +:+ repository.owner repo +:+ "/" +:+ repository.name repo
    +:+ tutor.nl
    +:+ "Language: "
    +:+ tutor.or_default (repository.primary_language repo) "Multiple"
    +:+ tutor.nl
    +:+ "Files: " +:+ tutor.str_of_Z (or_zero (repository.total_files repo))
    +:+ tutor.nl
    +:+ "Indexed Chunks: "
    +:+ tutor.str_of_Z (or_zero (repository.total_chunks repo)) in
  if text.truthy initial_context
  then context_summary +:+ tutor.nl +:+ "Focus Area: "
       +:+ tutor.or_default initial_context EmptyString
  else context_summary.

(** [create_session]; the fresh identifier comes from the caller, both
    timestamps are the clock's reading at the insert. *)
Definition create_session (w : tutor.World) (fresh_id repo_id : string)
    (initial_context : option string)
  : result tutor_session.TutorSession * tutor.World :=
  match lifecycle.check_api_readiness (tutor.db w) repo_id "session" with
  | Raise e => (Raise e, w)
  | Ok repo =>
      let session :=
        {| tutor_session.id := fresh_id;
           tutor_session.repo_id := repo_id;
           tutor_session.repo_context_summary :=
             Some (context_summary_of repo initial_context);
           tutor_session.rolling_conversation_summary := None;
           tutor_session.created_at := tutor.now w;
           tutor_session.last_activity_at := tutor.now w |} in
      (Ok session, tutor.with_db w (database.put_session (tutor.db w) session))
  end.

(** The two rows [ask_question] stores for an answered question. *)
Definition exchange (session_id question answer : string)
    (references : list schemas.CodeReference)
  : list tutor_session.TutorMessage :=
  [ {| tutor_session.session_id := session_id;
       tutor_session.role := "user";
       tutor_session.content := question;
       tutor_session.references := None |};
    {| tutor_session.session_id := session_id;
       tutor_session.role := "assistant";
       tutor_session.content := answer;
       tutor_session.references := Some (tutor.dump_references references) |} ].

(** The messages of one session, in creation order. *)
Definition messages_of (d : database.Db) (session_id : string)
  : list tutor_session.TutorMessage :=
  List.filter (fun m => (tutor_session.session_id m =? session_id)%string)
    (database.tutor_messages d).

End with_capabilities.
End tutor_sessions.

(** ** A completion that is too sure of itself *)

Module tutor_samples.



(** As [samples.caps], but the completion is a JSON object that gives
    its confidence as the string 0.8, and the validation reads that
    string as the number, as pydantic does for a [float] field. *)
Definition lenient : config.Capabilities :=
  {| config.settings := config.defaults;
     config.Vec := (Q * Q)%type;
     config.normalize_L2 := fun v => v;
     config.inner_product := fun q v => (fst q * fst v + snd q * snd v)%Q;
     config.index_search :=
       faiss_reference.index_search
         (fun q v => (fst q * fst v + snd q * snd v)%Q);
     config.score_ge := fun score threshold => Qle_bool threshold score;
     config.generate_embedding := fun _ => (3 # 5, 4 # 5)%Q;
     config.generate_chat_completion := fun _ _ => "{answer: run.py, confidence: '0.8'}";
     config.fnmatch := fun name pattern => (name =? pattern)%string;
     config.json_loads :=
       fun _ => Some (config.JObject
                        [("answer"%string, config.JString "run.py");
                         ("confidence"%string, config.JString "0.8")]);
     config.json_dumps := fun _ => "[]";
     config.pydantic_float :=
       fun v => match v with
                | config.JNumber q => Some q
                | config.JString "0.8" => Some 0.8%Q
                | _ => None
                end;
     config.pydantic_bool :=
       fun v => match v with config.JBool b => Some b | _ => None end |}.

Definition lenient_world : tutor.World (H := lenient) :=
  {| tutor.db := database.put_session (samples.indexed_db 2) samples.session;
     tutor.disk :=
       vector_store.save (H := lenient)
         (vector_store.add_embeddings (H := lenient)
            (vector_store.create_index (vector_store.init "r-1"))
            (repeat (3 # 5, 4 # 5)%Q 2) (samples.chunk_ids 2)) ∅;
     tutor.now := 1000;
     tutor.completion_calls := [] |}.

End tutor_samples.

(** ** app/core/git.py: parsing a GitHub URL *)

Module git.

(** [InvalidRepoURLError(url, reason)]. *)
Inductive error : Type :=
| InvalidRepoURLError (url reason : string).

(** The [RepoInfo] named tuple. *)
Record RepoInfo : Type := {
  owner : string;
  name : string;
  url : string;
}.

Definition is_slash (c : ascii) : bool := Ascii.eqb c "/".

Fixpoint lstrip_slash (s : string) : string :=
  match s with
  | EmptyString => EmptyString
  | String c rest => if is_slash c then lstrip_slash rest else s
  end.

(** [s.rstrip("/")]. *)
Definition rstrip_slash (s : string) : string :=
  text.rev_string (lstrip_slash (text.rev_string s)).

(** The longest run of characters other than [/] at the start of [s],
    which is what a greedy [[^/]+] takes there, and what follows it. *)
Fixpoint segment (s : string) : string :=
  match s with
  | EmptyString => EmptyString
  | String c rest => if is_slash c then EmptyString else String c (segment rest)
  end.

Fixpoint after_segment (s : string) : string :=
  match s with
  | EmptyString => EmptyString
  | String c rest => if is_slash c then s else after_segment rest
  end.

(** [([^/]+)/([^/]+)] matched at the start of [s]: the two groups. *)
Definition owner_and_name (s : string) : option (string * string) :=
  let owner := segment s in
  if (owner =? EmptyString)%string then None
  else
    match after_segment s with
    | String _ rest =>
        let name := segment rest in
        if (name =? EmptyString)%string then None else Some (owner, name)
    | EmptyString => None
    end.

(** [re.match(r"https?://github\.com/([^/]+)/([^/]+)", url)]. *)
Definition match_https (url : string) : option (string * string) :=
  match text.strip_prefix "https://github.com/" url with
  | Some rest => owner_and_name rest
  | None =>
      match text.strip_prefix "http://github.com/" url with
      | Some rest => owner_and_name rest
      | None => None
      end
  end.

(** [re.match(r"git@github\.com:([^/]+)/([^/]+)", url)]. *)
Definition match_ssh (url : string) : option (string * string) :=
  match text.strip_prefix "git@github.com:" url with
  | Some rest => owner_and_name rest
  | None => None
  end.

Definition repo_info (groups : string * string) : RepoInfo :=
  {| owner := fst groups; name := snd groups;
     url := "https://github.com/" +:+ fst groups +:+ "/" +:+ snd groups |}.

(** [parse_github_url]. *)
Definition parse_github_url (url : string) : error + RepoInfo :=
  let url := rstrip_slash (text.strip url) in
  let url :=
    if text.endswith ".git" url
    then text.take (String.length url - 4) url
    else url in
  match match_https url with
  | Some groups => inr (repo_info groups)
  | None =>
      match match_ssh url with
      | Some groups => inr (repo_info groups)
      | None => inl (InvalidRepoURLError url "Could not parse GitHub URL")
      end
  end.

End git.

(** ** app/services/ingestion.py: structure analysis and the ingestion job *)

Module structure.

(** What [analyze_structure] sees of a file that [rglob] visits: its
    path as a string, and its size unless [stat] fails. *)
Record file_entry : Type := {
  path : string;
  st_size : option Z;
}.

(** [language_counts[lang] = language_counts.get(lang, 0) + 1] on a
    dictionary kept in insertion order. *)
Fixpoint bump (lang : string) (counts : list (string * Z)) : list (string * Z) :=
  match counts with
  | [] => [(lang, 1)]
  | (k, n) :: rest =>
      if (k =? lang)%string then (k, n + 1) :: rest
      else (k, n) :: bump lang rest
  end.

(** The loop variables [file_count], [total_size], [language_counts]. *)
Record tally : Type := {
  file_count : Z;
  total_size : Z;
  language_counts : list (string * Z);
}.

(** One iteration of the loop over the files. *)
Definition visit (t : tally) (f : file_entry) : tally :=
  if chunking.should_skip_file (path f) then t
  else
    {| file_count := file_count t + 1;
       total_size :=
         match st_size f with
         | Some size => total_size t + size
         | None => total_size t
         end;
       language_counts :=
         match chunking.detect_language (path f) with
         | Some lang =>
             if text.truthy (Some lang) then bump lang (language_counts t)
             else language_counts t
         | None => language_counts t
         end |}.

(** [max(language_counts, key=...)] continued from the best entry so
    far: a later key wins only with a strictly greater count. *)
Fixpoint max_from (best : string * Z) (rest : list (string * Z)) : string :=
  match rest with
  | [] => fst best
  | entry :: rest' =>
      if snd best <? snd entry then max_from entry rest'
      else max_from best rest'
  end.

Definition primary_of (counts : list (string * Z)) : option string :=
  match counts with
  | [] => None
  | first :: rest => Some (max_from first rest)
  end.

(** [analyze_structure], for a walk that lists [files]. *)
Definition analyze_structure (files : list file_entry)
  : Z * Z * option string :=
  let t := fold_left visit files
             {| file_count := 0; total_size := 0; language_counts := [] |} in
  (file_count t, total_size t, primary_of (language_counts t)).

(** The number of files of [files] that are counted and detected as
    language [lang]. *)
Definition files_in (lang : string) (files : list file_entry) : Z :=
  Z.of_nat (length (List.filter
    (fun f => negb (chunking.should_skip_file (path f))
              && bool_decide (chunking.detect_language (path f) = Some lang))
    files)).

End structure.

Module ingest.
Import errors repository.

(** What [execute_ingestion] raises: the exception of the failed clone,
    by its text, or one raised by the lifecycle service. *)
Inductive raised : Type :=
| CloneFailed (text : string)
| Lifecycle (e : exn).

(** [str(e)] for the exceptions the handler can catch.  The lifecycle
    service raises [ValueError] only; the text of the enum's error quotes
    the value as [repr] does, which is the value between apostrophes for
    a string without apostrophes, backslashes and control characters. *)
Definition str_of (e : raised) : string :=
  match e with
  | CloneFailed text => text
  | Lifecycle (ValueError (InvalidTransition current target)) =>
      "Invalid transition from " +:+ current +:+ " to " +:+ target
  | Lifecycle (ValueError (NotAValidRepoStatus v)) =>
      "'" +:+ v +:+ "' is not a valid RepoStatus"
  | Lifecycle _ => EmptyString
  end.

Definition set_commit_hash (r : Repository) (h : option string) : Repository :=
  {| id := id r; repo_url := repo_url r; name := name r; owner := owner r;
     primary_language := primary_language r; commit_hash := h;
     status := status r; error_message := error_message r;
     total_files := total_files r; total_size_bytes := total_size_bytes r;
     total_chunks := total_chunks r; readme_content := readme_content r;
     architecture_content := architecture_content r |}.

(** [repo.total_files = ...; repo.total_size_bytes = ...;
    repo.primary_language = ...]. *)
Definition set_structure (r : Repository) (analysis : Z * Z * option string)
  : Repository :=
  let '(files, size, language) := analysis in
  {| id := id r; repo_url := repo_url r; name := name r; owner := owner r;
     primary_language := language; commit_hash := commit_hash r;
     status := status r; error_message := error_message r;
     total_files := Some files; total_size_bytes := Some size;
     total_chunks := total_chunks r; readme_content := readme_content r;
     architecture_content := architecture_content r |}.

(** The state [execute_ingestion] works on: the store, and the [repo]
    and [job] objects of the caller. *)
Definition state : Type := (database.Db * Repository * job.Job)%type.

(** The [except Exception as e:] block: [mark_failed], then [fail_job],
    then the exception is raised again; when [mark_failed] raises, its
    exception leaves the block and [fail_job] is not reached. *)
Definition handle (now : Z) (e : raised) (st : state) : raised * state :=
  let '(db, repo, j) := st in
  let error_msg := str_of e in
  match lifecycle.mark_failed db repo error_msg with
  | (Raise e', (db', repo')) => (Lifecycle e', (db', repo', j))
  | (Ok _, (db', repo')) =>
      let '(db'', j') := jobs.fail_job db' now j error_msg in
      (e, (db'', repo', j'))
  end.

(** [execute_ingestion].  The clone is the caller's: [clone] is the text
    of the exception it raised or the commit hash it returned, and
    [files] is what the walk over the clone lists; [now] is the clock. *)
Definition execute_ingestion (now : Z) (clone : string + string)
    (files : list structure.file_entry) (st : state)
  : (raised + Repository) * state :=
  let '(db, repo, j) := st in
  let '(db, j) := jobs.start_job db now j in
  let '(db, j) := jobs.update_progress db j 10 in
  match clone with
  | inl text =>
      let '(e, st') := handle now (CloneFailed text) (db, repo, j) in
      (inl e, st')
  | inr hash =>
      let repo := set_commit_hash repo (Some hash) in
      match lifecycle.transition_status db repo CLONED None with
      | (Raise e, (db, repo)) =>
          let '(e', st') := handle now (Lifecycle e) (db, repo, j) in
          (inl e', st')
      | (Ok _, (db, repo)) =>
          let '(db, j) := jobs.update_progress db j 40 in
          let repo := set_structure repo (structure.analyze_structure files) in
          match lifecycle.transition_status db repo STRUCTURED None with
          | (Raise e, (db, repo)) =>
              let '(e', st') := handle now (Lifecycle e) (db, repo, j) in
              (inl e', st')
          | (Ok _, (db, repo)) =>
              let '(db, j) := jobs.update_progress db j 100 in
              let '(db, j) := jobs.complete_job db now j in
              (inr repo, (db, repo, j))
          end
      end
  end.

End ingest.

Module structure_invariants.
Import structure.

(** [language_counts.get(lang, 0)]. *)
Definition count_of (lang : string) (counts : list (string * Z)) : Z :=
  match List.find (fun kv => (fst kv =? lang)%string) counts with
  | Some kv => snd kv
  | None => 0
  end.

(** A file that is counted. *)
Definition counted (f : file_entry) : bool :=
  negb (chunking.should_skip_file (path f)).

(** The loop variables once the files [pre] have been visited. *)
Definition tally_inv (pre : list file_entry) (t : tally) : Prop :=
  file_count t = Z.of_nat (length (List.filter counted pre))
  ∧ NoDup (map fst (language_counts t))
  ∧ Forall (fun kv => 0 < snd kv) (language_counts t)
  ∧ ∀ lang, count_of lang (language_counts t) = files_in lang pre.

End structure_invariants.

Module ingest_start.
Import errors repository.

(** What [ingest_repository] raises: the parser's error, or SQLAlchemy's
    [MultipleResultsFound] from [scalar_one_or_none]. *)
Inductive error : Type :=
| InvalidURL (e : git.error)
| MultipleResultsFound.

(** The rows of the [repositories] table. *)
Definition rows (db : database.Db) : list Repository :=
  map snd (map_to_list (database.repositories db)).

(** [get_repository_by_url]. *)
Definition get_repository_by_url (db : database.Db) (repo_url : string)
  : error + option Repository :=
  match List.filter (fun r => (repository.repo_url r =? repo_url)%string)
          (rows db) with
  | [] => inr None
  | [r] => inr (Some r)
  | _ => inl MultipleResultsFound
  end.

(** [Repository(id=..., repo_url=..., name=..., owner=..., status=...)]. *)
Definition new_repository (fresh_id : string) (info : git.RepoInfo)
  : Repository :=
  {| id := fresh_id; repo_url := git.url info; name := git.name info;
     owner := git.owner info; primary_language := None; commit_hash := None;
     status := value CREATED; error_message := None;
     total_files := None; total_size_bytes := None; total_chunks := None;
     readme_content := None; architecture_content := None |}.

(** [ingest_repository]; the two fresh identifiers and the clock come
    from the caller. *)
Definition ingest_repository (db : database.Db)
    (fresh_repo_id fresh_job_id : string) (now : Z) (repo_url : string)
    (force : bool) : error + (database.Db * Repository * job.Job) :=
  match git.parse_github_url repo_url with
  | inl e => inl (InvalidURL e)
  | inr repo_info =>
      match get_repository_by_url db (git.url repo_info) with
      | inl e => inl e
      | inr (Some existing) =>
          if negb force then
            match job_queue.get_jobs_for_repo db (id existing) with
            | latest_job :: _ => inr (db, existing, latest_job)
            | [] =>
                let '(db, j) :=
                  jobs.create_job db fresh_job_id now (id existing) job.INGEST in
                inr (db, existing, j)
            end
          else
            let '(db, repo) := ingestion.reset_existing db existing in
            let '(db, j) :=
              jobs.create_job db fresh_job_id now (id repo) job.INGEST in
            inr (db, repo, j)
      | inr None =>
          let repo := new_repository fresh_repo_id repo_info in
          let db := database.put_repository db repo in
          let '(db, j) :=
            jobs.create_job db fresh_job_id now (id repo) job.INGEST in
          inr (db, repo, j)
      end
  end.

End ingest_start.

(** ** app/services/documentation.py: starting a documentation job *)

Module documentation.
Import errors repository.

(** [s.value] for [s] a [str], which is what the [status] column holds:
    a [str] has no attribute [value]. *)
Definition str_value (s : string) : result string := Raise AttributeError.

(** The loop [for job in jobs: if job.type == JobType.DOCS: return job]. *)
Definition first_docs_job (found : list job.Job) : option job.Job :=
  List.find (fun j => (job.type j =? job.type_value job.DOCS)%string) found.

(** [start_docs_generation]: the outcome and the store afterwards; the
    fresh job identifier and the clock come from the caller. *)
Definition start_docs_generation (db : database.Db) (fresh_job_id : string)
    (now : Z) (repo_id : string) (force : bool)
  : result job.Job * database.Db :=
  match lifecycle.get_repository db repo_id with
  | Raise e => (Raise e, db)
  | Ok repo =>
      match has_reached_state repo INDEXED with
      | Raise e => (Raise e, db)
      | Ok false =>
          match str_value (status repo) with
          | Raise e => (Raise e, db)
          | Ok current_state =>
              (Raise (RepoNotReadyError repo_id current_state (value INDEXED)),
               db)
          end
      | Ok true =>
          match str_value (status repo) with
          | Raise e => (Raise e, db)
          | Ok v =>
              let create :=
                let '(db', j) :=
                  jobs.create_job db fresh_job_id now repo_id job.DOCS in
                (Ok j, db') in
              if String.leb (value DOCS_GENERATED) v && negb force then
                match first_docs_job (job_queue.get_jobs_for_repo db repo_id) with
                | Some j => (Ok j, db)
                | None => create
                end
              else create
          end
      end
  end.

End documentation.

(** ** A repository whose best-scoring chunks are documentation *)

Module search_samples.

Definition guide_row (cid : string) : code_chunk.CodeChunk :=
  {| code_chunk.id := cid; code_chunk.repo_id := "r-1";
     code_chunk.file_path := "docs/guide.md";
     code_chunk.start_line := 1; code_chunk.end_line := 9;
     code_chunk.symbol_type := None;
     code_chunk.symbol_name := None;
     code_chunk.language := None;
     code_chunk.content := "How to run the tool";
     code_chunk.token_count := Some 5;
     code_chunk.embedding_index := None |}.

(** The id of the one source chunk, the 61st of [samples.chunk_ids]. *)
Definition source_id : string := String (ascii_of_nat (48 + 60)) EmptyString.

(** An INDEXED repository with 61 chunks: 60 of docs/guide.md, which
    score 1 against every query, and one of tools/run.py, which scores
    24/25. *)
Definition filtered_db : database.Db :=
  {| database.repositories :=
       {[ "r-1"%string := samples.repo "INDEXED" None ]};
     database.jobs := ∅;
     database.code_chunks :=
       list_to_map
         (map (fun cid => (cid, guide_row cid)) (samples.chunk_ids 60)
          ++ [(source_id, samples.chunk_row source_id)]);
     database.tutor_sessions := ∅;
     database.tutor_messages := [] |}.

Definition filtered_store : vector_store.VectorStore (H := samples.caps) :=
  vector_store.add_embeddings (H := samples.caps)
    (vector_store.create_index (vector_store.init "r-1"))
    (repeat (3 # 5, 4 # 5)%Q 60 ++ [(4 # 5, 3 # 5)%Q])
    (samples.chunk_ids 61).

Definition filtered_disk : gmap string (vector_store.artifact (H := samples.caps)) :=
  vector_store.save filtered_store ∅.

End search_samples.

(** * Theorems *)

(** ** The definitions on small inputs *)

Section evaluations.
Import chunking.

Example count_tokens_words :
  map llm.count_tokens ["a b c"; "  x  "; "i j k l m n"; EmptyString]%string
  = [3; 1; 7; 0].
Proof. reflexivity. Qed.

Example detect_language_by_suffix :
  map detect_language ["/repo/a.PY"; "/repo/.py"; "a.tar.gz"; "lib/x.rs"]%string
  = [Some "python"; None; None; Some "rust"]%string.
Proof. reflexivity. Qed.

Example should_skip_file_patterns :
  map should_skip_file
    ["a/.git/config"; "a/b.pyc"; "a/b.pyc.txt"; "fonts/x.woff2"; "src/main.py"]%string
  = [true; true; false; true; false].
Proof. reflexivity. Qed.

Example sliding_window_ranges :
  map (fun c => (start_line c, end_line c, token_count c))
    (sliding_window_chunk "a b c
d e f
g h
i j k l m n
o
p q r" "notes.txt" None 5 2)
  = [(1, 1, Some 3); (2, 3, Some 5); (3, 4, Some 9); (5, 6, Some 4)].
Proof. reflexivity. Qed.

Example python_symbol_ranges :
  map (fun c => (start_line c, end_line c, symbol_type c, symbol_name c))
    (extract_python_symbols "import os

class A:
    def f(self):
        return 1
x = 1
async  def g(): pass
y = 2
" "a.py")
  = [(3, 3, Some "class", Some "A"); (4, 5, Some "function", Some "f");
     (7, 9, Some "function", Some "g")]%string.
Proof. reflexivity. Qed.

Example has_reached_state_failed :
  repository.has_reached_state (samples.repo "FAILED" None) repository.CREATED
  = errors.Ok false.
Proof. reflexivity. Qed.

Example python_slices :
  (py.slice [1; 2; 3; 4; 5] (Some 1) (Some 3),
   py.slice [1; 2; 3; 4; 5] (Some (-2)) None,
   py.slice [1; 2; 3; 4; 5] (Some 4) (Some 9),
   py.slice [1; 2; 3; 4; 5] (Some 7) (Some 9))
  = ([2; 3], [4; 5], [5], []).
Proof. reflexivity. Qed.

End evaluations.

(** ** Lifecycle state machine *)

Section lifecycle_properties.
Import errors repository.

Lemma RepoStatus_of_value (s : RepoStatus) : RepoStatus_of (value s) = Ok s.
Proof. by destruct s. Qed.

Lemma status_set_status (r : Repository) (s : string) : status (set_status r s) = s.
Proof. done. Qed.

Lemma status_set_error_message (r : Repository) (m : option string) :
  status (set_error_message r m) = status r.
Proof. done. Qed.

Lemma can_transition_to_spec (repo : Repository) (target : RepoStatus) :
  match can_transition_to repo target with
  | Ok true => in_transition_table (status repo) target
  | Ok false => ¬ in_transition_table (status repo) target
  | Raise e => is_ValueError e ∧ ¬ in_transition_table (status repo) target
  end.
Proof.
  unfold can_transition_to, in_transition_table.
  destruct (RepoStatus_of (status repo)) as [cur|e] eqn:Hcur.
  - case_bool_decide as Hin.
    + by exists cur.
    + intros (cur' & Heq & Hin'). congruence.
  - split.
    + unfold RepoStatus_of in Hcur.
      destruct (List.find _ _); [discriminate|]. by inversion Hcur.
    + intros (cur' & Heq & _). discriminate.
Qed.

(** C1.  For every repository, target status and message: when the pair
    (current status, target) is in the transition table,
    [transition_status] returns the repository with its status equal to
    the target, its error message replaced only when the target is FAILED
    and a non-empty message was supplied, and that row is what the store
    now holds; when the pair
    is not in the table, it raises a [ValueError] (the invalid-transition
    error; for a status of the enumeration it is the one raised by
    [transition_status] itself) and leaves the repository object, hence its status and error
    message, and the store as they were. *)
Theorem transition_status_valid_or_rejected
    (db : database.Db) (repo : Repository) (target : RepoStatus)
    (msg : option string) :
  (in_transition_table (status repo) target →
     ∃ repo' db',
       lifecycle.transition_status db repo target msg = (Ok repo', (db', repo'))
       ∧ status repo' = value target
       ∧ error_message repo'
         = (if bool_decide (target = FAILED) && text.truthy msg
            then msg else error_message repo)
       ∧ database.repositories db' !! id repo' = Some repo')
  ∧ (¬ in_transition_table (status repo) target →
     ∃ e,
       lifecycle.transition_status db repo target msg = (Raise e, (db, repo))
       ∧ is_ValueError e
       ∧ (∀ cur, RepoStatus_of (status repo) = Ok cur →
            e = ValueError (InvalidTransition (status repo) (value target)))
       ∧ status (snd (snd (lifecycle.transition_status db repo target msg)))
         = status repo
       ∧ error_message (snd (snd (lifecycle.transition_status db repo target msg)))
         = error_message repo).
Proof.
  pose proof (can_transition_to_spec repo target) as Hspec.
  unfold lifecycle.transition_status.
  destruct (can_transition_to repo target) as [[|]|e] eqn:Hcan; split; intros Hin;
    try (exfalso; tauto).
  - eexists _, _. split; [reflexivity|]. split; [|split].
    + destruct (_ && _); done.
    + destruct (_ && _); done.
    + simpl. apply lookup_insert_eq.
  - eexists. split; [reflexivity|]. by simpl.
  - destruct Hspec as [? _]. eexists. split; [reflexivity|]. split; [done|].
    split; [|by simpl].
    intros cur Hcur. unfold can_transition_to in Hcan. by rewrite Hcur in Hcan.
Qed.

Lemma transition_status_valid_or_rejected_witness :
  (∃ repo' db',
     lifecycle.transition_status database.empty (samples.repo "CREATED" None)
       CLONED None = (Ok repo', (db', repo'))
     ∧ status repo' = "CLONED"
     ∧ database.repositories db' !! id repo' = Some repo')
  ∧ (∃ e,
       lifecycle.transition_status database.empty (samples.repo "CREATED" None)
         READY None = (Raise e, (database.empty, samples.repo "CREATED" None))
       ∧ is_ValueError e).
Proof.
  split.
  - destruct (proj1 (transition_status_valid_or_rejected database.empty
                       (samples.repo "CREATED" None) CLONED None))
      as (repo' & db' & Hrun & Hstatus & _ & Hrow).
    + exists CREATED. split; [reflexivity | by apply (bool_decide_unpack _)].
    + exists repo', db'. by split_and!.
  - destruct (proj2 (transition_status_valid_or_rejected database.empty
                       (samples.repo "CREATED" None) READY None)) as (e & He & Hv & _).
    + intros (cur & Hcur & Hin). vm_compute in Hcur.
      injection Hcur as <-. by apply (bool_decide_pack _) in Hin.
    + exists e. by split.
Defined.

(** C7 (failing input).  Starting from a fresh CREATED repository, the
    transition to FAILED with message "clone failed" followed by the
    retry re-entry FAILED -> CREATED succeeds and leaves the repository in
    status CREATED with the old error message still set, whereas the
    forced reset of [ingest_repository] on the same failed record clears
    the message. *)
Theorem retry_reentry_keeps_stale_error_message :
  let '(_, (db1, repo1)) :=
    lifecycle.transition_status database.empty (samples.repo "CREATED" None)
      FAILED (Some "clone failed"%string) in
  let '(r2, (_, repo2)) := lifecycle.transition_status db1 repo1 CREATED None in
  status repo1 = "FAILED" ∧ error_message repo1 = Some "clone failed"%string
  ∧ r2 = Ok repo2
  ∧ status repo2 = "CREATED" ∧ error_message repo2 = Some "clone failed"%string
  ∧ error_message (snd (ingestion.reset_existing db1 repo1)) = None.
Proof. vm_compute. repeat split. Qed.

(** C9.  For an operation name that has no entry in
    [API_STATE_REQUIREMENTS], the readiness check of any stored
    repository, whatever its status string (FAILED included), answers
    (True, None), and the service-level [check_api_readiness] returns
    that repository. *)
Theorem unknown_operation_bypasses_readiness
    (db : database.Db) (repo_id operation : string) (repo : Repository) :
  API_STATE_REQUIREMENTS operation = None →
  database.repositories db !! repo_id = Some repo →
  repository.check_api_readiness repo operation = Ok (true, None)
  ∧ lifecycle.check_api_readiness db repo_id operation = Ok repo.
Proof.
  intros Hop Hrepo.
  assert (repository.check_api_readiness repo operation = Ok (true, None)) as Hready.
  { unfold repository.check_api_readiness. by rewrite Hop. }
  split; [exact Hready|].
  unfold lifecycle.check_api_readiness, lifecycle.get_repository.
  by rewrite Hrepo, Hready.
Qed.

Lemma unknown_operation_bypasses_readiness_witness :
  repository.check_api_readiness (samples.repo "FAILED" (Some "boom"%string))
    "roadmap" = Ok (true, None)
  ∧ lifecycle.check_api_readiness
      (database.put_repository database.empty
         (samples.repo "FAILED" (Some "boom"%string)))
      "r-1" "roadmap"
    = Ok (samples.repo "FAILED" (Some "boom"%string)).
Proof.
  apply (unknown_operation_bypasses_readiness
           (database.put_repository database.empty
              (samples.repo "FAILED" (Some "boom"%string)))
           "r-1" "roadmap" (samples.repo "FAILED" (Some "boom"%string))).
  - reflexivity.
  - vm_compute. reflexivity.
Defined.

End lifecycle_properties.

(** ** Job progress *)

Section job_properties.
Import job.

(** C6 (as stated, refuted).  A running job whose progress has been set
    to 100 by [update_progress] gets progress 50 from the next
    [update_progress] call with value 50, still running; the same happens
    after [complete_job] has stored 100. *)
Lemma update_progress_regresses_after_completion :
  let running := snd (jobs.start_job database.empty 5 samples.pending_job) in
  let '(db1, j1) := jobs.update_progress database.empty running 100 in
  let '(db2, j2) := jobs.update_progress db1 j1 50 in
  let '(db3, j3) := jobs.complete_job db1 10 j1 in
  let '(db4, j4) := jobs.update_progress db3 j3 50 in
  (status j1 = "running" ∧ progress j1 = 100)
  ∧ (status j2 = "running" ∧ progress j2 = 50 ∧ progress j2 < progress j1
     ∧ database.jobs db2 !! id j2 = Some j2)
  ∧ (status j3 = "completed" ∧ progress j3 = 100)
  ∧ (progress j4 = 50 ∧ progress j4 < progress j3).
Proof. vm_compute. repeat split. Qed.

(** C6 (amended).  [update_progress] stores the supplied value clamped
    to [0,100], keeps every other column of the job, and writes the row;
    for a stored progress within range, the stored progress does not
    decrease when the supplied value is at least the stored one, and it
    strictly decreases when the supplied value is below a positive stored
    one: the function itself does not protect the terminal value 100. *)
Theorem update_progress_clamps (db : database.Db) (j : Job) (v : Z) :
  let '(db', j') := jobs.update_progress db j v in
  progress j' = Z.min (Z.max v 0) 100
  ∧ 0 ≤ progress j' ≤ 100
  ∧ j' = jobs.set_progress j (progress j')
  ∧ database.jobs db' !! id j' = Some j'
  ∧ (0 ≤ progress j ≤ 100 →
       (progress j ≤ v → progress j ≤ progress j')
       ∧ (v < progress j → 0 < progress j → progress j' < progress j)).
Proof.
  simpl. split; [done|]. split; [lia|]. split; [done|].
  split; [apply lookup_insert_eq|]. lia.
Qed.

Lemma update_progress_clamps_witness :
  let '(db', j') := jobs.update_progress database.empty samples.pending_job 140 in
  progress j' = 100
  ∧ (0 ≤ progress j' ≤ 100)
  ∧ (progress samples.pending_job ≤ 140 → progress samples.pending_job ≤ progress j').
Proof.
  pose proof (update_progress_clamps database.empty samples.pending_job 140) as H.
  simpl in H. destruct H as (H1 & H2 & _ & _ & H5).
  simpl. split; [exact H1|]. split; [exact H2|].
  apply H5. vm_compute. split; discriminate.
Defined.

End job_properties.


(** ** Chunking: sliding window *)

Section sliding_window_properties.
Import chunking chunking_invariants.

Lemma map_seq_from (f : nat → Z) (s n : nat) :
  map f (seq s n) = map (fun k => f (s + k)%nat) (seq 0 n).
Proof.
  revert s f. induction n as [|n IH]; intros s f; [done|].
  simpl. rewrite Nat.add_0_r. f_equal.
  rewrite (IH (S s)), (IH 1%nat). apply map_ext. intros k.
  f_equal. lia.
Qed.

Lemma zrange_app (a b c : Z) :
  a ≤ b + 1 → b ≤ c → zrange a b ++ zrange (b + 1) c = zrange a c.
Proof.
  intros Hab Hbc. unfold zrange.
  replace (Z.to_nat (c - a + 1))
    with (Z.to_nat (b - a + 1) + Z.to_nat (c - (b + 1) + 1))%nat by lia.
  rewrite seq_app, map_app. f_equal.
  rewrite (map_seq_from (fun k => a + Z.of_nat k)). apply map_ext.
  intros k. lia.
Qed.

Lemma elem_of_zrange (lo hi i : Z) : i ∈ zrange lo hi ↔ lo ≤ i ≤ hi.
Proof.
  unfold zrange. rewrite list_elem_of_In, in_map_iff. split.
  - intros (k & <- & Hk). apply in_seq in Hk. lia.
  - intros Hi. exists (Z.to_nat (i - lo)). split; [lia|].
    apply in_seq. lia.
Qed.

Lemma zrange_empty (lo hi : Z) : hi < lo → zrange lo hi = [].
Proof. intros H. unfold zrange. by replace (Z.to_nat (hi - lo + 1)) with 0%nat by lia. Qed.

Lemma overlap_loop_suffix (ov : Z) (rl acc : list string) (cnt : Z) :
  ∃ m, (m ≤ length rl)%nat
       ∧ fst (overlap_loop ov rl acc cnt) = rev (firstn m rl) ++ acc.
Proof.
  revert acc cnt. induction rl as [|l rl IH]; intros acc cnt; simpl.
  - by exists 0%nat.
  - destruct (ov <? cnt + llm.count_tokens l).
    + exists 0%nat. split; [lia|done].
    + destruct (IH (l :: acc) (cnt + llm.count_tokens l)) as (m & Hm & ->).
      exists (S m). split; [lia|]. simpl. by rewrite <- app_assoc.
Qed.

Lemma overlap_of_suffix (ov : Z) (ls : list string) :
  ∃ m, (m ≤ length ls)%nat
       ∧ fst (overlap_of ov ls) = skipn (length ls - m) ls.
Proof.
  unfold overlap_of.
  destruct (overlap_loop_suffix ov (rev ls) [] 0) as (m & Hm & ->).
  rewrite length_rev in Hm. exists m. split; [done|].
  rewrite app_nil_r, firstn_rev, rev_involutive. done.
Qed.

Lemma last_end_snoc (l : list CodeChunk) (c : CodeChunk) :
  last_end (l ++ [c]) = end_line c.
Proof. unfold last_end. by rewrite last_snoc. Qed.

Lemma spans_after_snoc (p : Z) (l : list CodeChunk) (c : CodeChunk) :
  spans_after p (l ++ [c])
  = spans_after p l
    ++ [(match last l with Some x => end_line x | None => p end + 1, end_line c)].
Proof.
  revert p. induction l as [|x l IH]; intros p; simpl; [done|].
  rewrite IH. destruct l as [|y l]; simpl; [done|].
  destruct (last (y :: l)) eqn:E; [done|]. by apply last_None in E.
Qed.

Lemma non_overlap_spans_snoc (l : list CodeChunk) (c : CodeChunk) :
  l ≠ [] →
  non_overlap_spans (l ++ [c]) = non_overlap_spans l ++ [(last_end l + 1, end_line c)].
Proof.
  destruct l as [|x l]; [done|]. intros _. simpl.
  rewrite spans_after_snoc. unfold last_end.
  destruct l as [|y l]; simpl; [done|].
  destruct (last (y :: l)) eqn:E; [done|]. by apply last_None in E.
Qed.

Lemma window_is_chunk_lines (lines pre rest : list string) (s : Z) :
  lines = pre ++ rest → 1 ≤ s ≤ Z.of_nat (length pre) + 1 →
  firstn (Z.to_nat (Z.of_nat (length pre) - s + 1))
    (skipn (Z.to_nat (s - 1)) lines)
  = skipn (Z.to_nat (s - 1)) pre.
Proof.
  intros -> Hs.
  rewrite skipn_app.
  replace (Z.to_nat (s - 1) - length pre)%nat with 0%nat by lia.
  simpl. rewrite firstn_app.
  rewrite length_skipn.
  replace (Z.to_nat (Z.of_nat (length pre) - s + 1)
           - (length pre - Z.to_nat (s - 1)))%nat with 0%nat by lia.
  simpl. rewrite app_nil_r. apply firstn_all2. rewrite length_skipn. lia.
Qed.

Lemma linked_snoc (ov : Z) (lines : list string) (l : list CodeChunk)
    (c : CodeChunk) :
  linked ov lines l →
  (∀ p, last l = Some p →
     start_line c = end_line p - overlap_length ov lines p + 1
     ∧ 0 ≤ overlap_length ov lines p ≤ end_line p - start_line p + 1) →
  linked ov lines (l ++ [c]).
Proof.
  intros Hl Hlast j prev next Hprev Hnext.
  destruct (decide (S j < length l)%nat) as [Hlt|Hge].
  - rewrite lookup_app_l in Hprev by lia.
    rewrite lookup_app_l in Hnext by lia. eauto.
  - assert (S j = length l) as Hj.
    { apply lookup_lt_Some in Hnext. rewrite length_app in Hnext. simpl in Hnext. lia. }
    rewrite lookup_app_l in Hprev by lia.
    rewrite lookup_app_r in Hnext by lia.
    replace (S j - length l)%nat with 0%nat in Hnext by lia.
    injection Hnext as <-.
    apply Hlast. rewrite last_lookup. rewrite <- Hj. done.
Qed.

Lemma yield_and_restart_inv (fp : string) (lang : option string) (ov : Z)
    (lines pre rest : list string) (st : list CodeChunk * window) :
  lines = pre ++ rest →
  current_chunk_lines (snd st) ≠ [] →
  sliding_inv ov lines pre (Z.max 0 (Z.of_nat (length pre) - 1)) st →
  sliding_inv ov lines pre (Z.of_nat (length pre))
    (yield_and_restart fp lang ov (Z.of_nat (length pre) + 1) st).
Proof.
  intros Hlines Hne Hinv. destruct st as [yielded w]. simpl in Hne.
  destruct Hinv as (Hstart & Hwin & Hfirst & Hle & Hsl & Hlast & Hlink & Hspans & Hcov & Hall).
  set (n := Z.of_nat (length pre)) in *.
  assert (current_start_line w ≤ n) as Hsn.
  { destruct (decide (current_start_line w ≤ n)) as [|Hgt]; [done|].
    exfalso. apply Hne. rewrite Hwin. apply skipn_all2. lia. }
  assert (Z.of_nat (length (current_chunk_lines w)) = n - current_start_line w + 1)
    as Hlen.
  { rewrite Hwin, length_skipn. lia. }
  unfold yield_and_restart.
  destruct (overlap_of ov (current_chunk_lines w)) as [ol oc] eqn:Hov.
  destruct (overlap_of_suffix ov (current_chunk_lines w)) as (m & Hm & Hol).
  rewrite Hov in Hol. simpl in Hol.
  assert (length ol = m) as Holen.
  { rewrite Hol, length_skipn. lia. }
  set (c := {| file_path := fp; start_line := current_start_line w;
               end_line := n + 1 - 1;
               content := text.join_newline (current_chunk_lines w);
               language := lang; symbol_type := None; symbol_name := None;
               token_count := Some (current_tokens w) |}).
  assert (chunk_lines lines c = current_chunk_lines w) as Hcl.
  { unfold chunk_lines, c. simpl. rewrite Hwin.
    replace (n + 1 - 1 - current_start_line w + 1)
      with (Z.of_nat (length pre) - current_start_line w + 1) by lia.
    apply (window_is_chunk_lines lines pre rest); [done|lia]. }
  assert (overlap_length ov lines c = Z.of_nat m) as Holc.
  { unfold overlap_length. rewrite Hcl, Hov. simpl. by rewrite Holen. }
  unfold sliding_inv. simpl. rewrite last_end_snoc, Holen. simpl.
  split; [lia|]. split.
  { rewrite Hol. rewrite Hwin at 2. rewrite skipn_skipn. f_equal. lia. }
  split; [by intros [_ ?]%app_nil|].
  split; [lia|]. split; [lia|]. split.
  { intros c' Hc'. rewrite last_snoc in Hc'. injection Hc' as <-.
    rewrite Holc. simpl. lia. }
  split.
  { apply linked_snoc; [done|]. intros p Hp. simpl. by apply Hlast. }
  split.
  { destruct yielded as [|y yielded'].
    - simpl. rewrite app_nil_r. rewrite Hfirst by done. f_equal; lia.
    - rewrite non_overlap_spans_snoc by done.
      rewrite flat_map_app, Hspans. simpl. rewrite app_nil_r.
      rewrite zrange_app; [f_equal; lia | lia | lia]. }
  split.
  { intros i Hi. destruct (decide (i ≤ last_end yielded)) as [Hold|Hnew].
    - destruct (Hcov i) as (c' & Hc' & Hcov'); [lia|].
      exists c'. split; [|done]. apply elem_of_app. by left.
    - exists c. split; [apply elem_of_app; right; by apply list_elem_of_singleton|].
      unfold covers. simpl. lia. }
  apply Forall_app. split; [done|]. apply Forall_singleton.
  unfold chunk_within. rewrite Hcl. simpl.
  split; [lia|]. split; [|done].
  rewrite Hlines, length_app. lia.
Qed.

Lemma sliding_inv_weaken (ov : Z) (lines pre : list string) (b b' : Z)
    (st : list CodeChunk * window) :
  b ≤ b' → sliding_inv ov lines pre b st → sliding_inv ov lines pre b' st.
Proof.
  intros Hb. destruct st as [yielded w]. unfold sliding_inv.
  intros (? & ? & ? & ? & ? & ? & ? & ? & ? & ?). split_and!; try done; lia.
Qed.

Lemma append_line_inv (ov : Z) (lines pre rest : list string) (line : string)
    (tokens : Z) (st : list CodeChunk * window) :
  sliding_inv ov lines pre (Z.of_nat (length pre)) st →
  sliding_inv ov lines (pre ++ [line])
    (Z.max 0 (Z.of_nat (length (pre ++ [line])) - 1))
    (append_line line tokens st).
Proof.
  destruct st as [yielded w]. unfold sliding_inv, append_line. simpl.
  rewrite length_app. simpl.
  intros (Hstart & Hwin & Hfirst & Hle & Hsl & Hlast & Hlink & Hspans & Hcov & Hall).
  split; [lia|]. split.
  { rewrite skipn_app, <- Hwin.
    replace (Z.to_nat (current_start_line w - 1) - length pre)%nat
      with 0%nat by lia. done. }
  split_and!; try done; lia.
Qed.

Lemma sliding_step_inv (fp : string) (lang : option string) (maxt ov : Z)
    (lines pre rest : list string) (line : string)
    (st : list CodeChunk * window) :
  lines = pre ++ line :: rest →
  sliding_inv ov lines pre (Z.max 0 (Z.of_nat (length pre) - 1)) st →
  sliding_inv ov lines (pre ++ [line])
    (Z.max 0 (Z.of_nat (length (pre ++ [line])) - 1))
    (sliding_step fp lang maxt ov (Z.of_nat (length pre) + 1) line st).
Proof.
  intros Hlines Hinv. unfold sliding_step.
  apply (append_line_inv ov lines pre rest).
  destruct (_ && _) eqn:Hcond.
  - apply andb_true_iff in Hcond as [_ Hne].
    apply negb_true_iff, bool_decide_eq_false in Hne.
    by apply (yield_and_restart_inv fp lang ov lines pre (line :: rest)).
  - apply (sliding_inv_weaken ov lines pre (Z.max 0 (Z.of_nat (length pre) - 1)));
      [lia | done].
Qed.

Lemma sliding_loop_inv (fp : string) (lang : option string) (maxt ov : Z)
    (lines rest pre : list string) (st : list CodeChunk * window) :
  lines = pre ++ rest →
  sliding_inv ov lines pre (Z.max 0 (Z.of_nat (length pre) - 1)) st →
  sliding_inv ov lines lines (Z.max 0 (Z.of_nat (length lines) - 1))
    (sliding_loop fp lang maxt ov (Z.of_nat (length pre) + 1) rest st).
Proof.
  revert pre st. induction rest as [|line rest IH]; intros pre st Hlines Hinv.
  - rewrite app_nil_r in Hlines. subst pre. done.
  - simpl.
    replace (Z.of_nat (length pre) + 1 + 1)
      with (Z.of_nat (length (pre ++ [line])) + 1)
      by (rewrite length_app; simpl; lia).
    apply IH.
    + by rewrite <- app_assoc.
    + by apply (sliding_step_inv fp lang maxt ov lines pre rest).
Qed.

Lemma split_newline_nonempty (s : string) : text.split_newline s ≠ [].
Proof.
  induction s as [|c s IH]; simpl; [done|].
  destruct (Ascii.eqb c text.newline); [done|].
  by destruct (text.split_newline s).
Qed.

Lemma sliding_inv_initial (ov : Z) (lines : list string) :
  sliding_inv ov lines [] (Z.max 0 (Z.of_nat (length (@nil string)) - 1))
    ([], {| current_chunk_lines := []; current_start_line := 1;
            current_tokens := 0 |}).
Proof.
  unfold sliding_inv, last_end, linked. simpl. split_and!; try done.
  intros i Hi. lia.
Qed.

(** What the loop invariant gives for the chunks of
    [sliding_window_chunk]. *)
Lemma sliding_window_chunk_spans (content file_path : string)
    (language : option string) (max_tokens overlap_tokens : Z) :
  let lines := text.split_newline content in
  let chunks :=
    sliding_window_chunk content file_path language max_tokens overlap_tokens in
  (∀ j prev next,
     chunks !! j = Some prev → chunks !! S j = Some next →
     start_line next
     = end_line prev - overlap_length overlap_tokens lines prev + 1
     ∧ 0 ≤ overlap_length overlap_tokens lines prev
         ≤ end_line prev - start_line prev + 1)
  ∧ flat_map (fun sp => zrange (fst sp) (snd sp)) (non_overlap_spans chunks)
    = zrange 1 (Z.of_nat (length lines))
  ∧ (∀ i, 1 ≤ i ≤ Z.of_nat (length lines) → covered chunks i)
  ∧ Forall (chunk_within lines) chunks.
Proof.
  intros lines chunks.
  pose proof (split_newline_nonempty content) as Hne. fold lines in Hne.
  pose proof (sliding_loop_inv file_path language max_tokens overlap_tokens
                lines lines [] _ eq_refl (sliding_inv_initial overlap_tokens lines))
    as Hloop.
  change (Z.of_nat (length (@nil string)) + 1) with 1 in Hloop.
  destruct (sliding_loop _ _ _ _ _ _ _) as [yielded w] eqn:Hrun.
  assert (current_chunk_lines w ≠ []) as Hwne.
  { destruct Hloop as (Hstart & Hwin & _). rewrite Hwin.
    destruct lines as [|l0 lines']; [done|].
    intros Hnil. apply (f_equal (@length string)) in Hnil.
    rewrite length_skipn in Hnil. simpl in Hnil, Hstart. lia. }
  assert (chunks
          = fst (yield_and_restart file_path language overlap_tokens
                   (Z.of_nat (length lines) + 1) (yielded, w))) as Hchunks.
  { unfold chunks, sliding_window_chunk. fold lines. rewrite Hrun.
    rewrite bool_decide_eq_false_2 by done.
    rewrite (bool_decide_eq_false_2 _ Hwne). simpl.
    destruct (overlap_of _ _). simpl. do 3 f_equal. lia. }
  apply (yield_and_restart_inv file_path language overlap_tokens
           lines lines []) in Hloop; [|by rewrite app_nil_r|done].
  rewrite Hchunks.
  destruct (yield_and_restart _ _ _ _ _) as [final w'] eqn:Hfinal. simpl.
  destruct Hloop as (_ & _ & _ & Hle & _ & _ & Hlink & Hspans & Hcov & Hall).
  assert (last_end final = Z.of_nat (length lines)) as Hend.
  { unfold yield_and_restart in Hfinal. destruct (overlap_of _ _).
    injection Hfinal as <- _. rewrite last_end_snoc. simpl. lia. }
  rewrite Hend in *. done.
Qed.

(** C4.  For every input text (the non-empty ones included) and every
    token budget, the chunks of the sliding-window strategy satisfy: each
    chunk after the first starts at [prev.end_line - overlap_lines + 1],
    where [overlap_lines] is the number of trailing lines of the previous
    chunk carried into the next window; the non-overlap spans of the
    chunks, listed in order, enumerate the line numbers 1..n of the input
    exactly once each; every line is covered by the range of some chunk;
    and every chunk lies within the file and holds the text of its lines. *)
Theorem sliding_window_line_continuity (content file_path : string)
    (language : option string) (max_tokens overlap_tokens : Z) :
  let lines := text.split_newline content in
  let chunks :=
    sliding_window_chunk content file_path language max_tokens overlap_tokens in
  (∀ j prev next,
     chunks !! j = Some prev → chunks !! S j = Some next →
     start_line next
     = end_line prev - overlap_length overlap_tokens lines prev + 1
     ∧ 0 ≤ overlap_length overlap_tokens lines prev
         ≤ end_line prev - start_line prev + 1)
  ∧ flat_map (fun sp => zrange (fst sp) (snd sp)) (non_overlap_spans chunks)
    = zrange 1 (Z.of_nat (length lines))
  ∧ (∀ i, 1 ≤ i ≤ Z.of_nat (length lines) → covered chunks i)
  ∧ Forall (chunk_within lines) chunks.
Proof.
  exact (sliding_window_chunk_spans content file_path language max_tokens
           overlap_tokens).
Qed.

Lemma sliding_window_line_continuity_witness :
  let content := "a b c
d e f
g h
i j k l m n
o
p q r"%string in
  let lines := text.split_newline content in
  let chunks := sliding_window_chunk content "notes.txt" None 5 2 in
  (∀ prev next,
     chunks !! 1%nat = Some prev → chunks !! 2%nat = Some next →
     start_line next = end_line prev - overlap_length 2 lines prev + 1)
  ∧ covered chunks 4.
Proof.
  intros content lines chunks.
  destruct (sliding_window_line_continuity content "notes.txt" None 5 2)
    as (Hlink & _ & Hcov & _).
  split.
  - intros prev next Hprev Hnext. by destruct (Hlink 1%nat prev next Hprev Hnext).
  - apply Hcov. vm_compute. split; discriminate.
Defined.

End sliding_window_properties.

(** ** Chunking: symbol extraction and [chunk_file] *)

Section symbol_properties.
Import chunking chunking_invariants.

Lemma line_at_middle (pre rest : list string) (line : string) :
  line_at (pre ++ line :: rest) (Z.of_nat (length pre) + 1) = line.
Proof.
  unfold line_at.
  replace (Z.to_nat (Z.of_nat (length pre) + 1 - 1)) with (length pre) by lia.
  apply nth_middle.
Qed.

Lemma absorbed_signature (lines : list string) (i : Z) :
  1 ≤ i → is_signature (line_at lines i) = true → absorbed lines i.
Proof. intros Hi Hsig. exists i. split; [lia|]. split; [done|]. intros j Hj. lia. Qed.

Lemma absorbed_extend (lines : list string) (s k : Z) :
  1 ≤ s ≤ k → is_signature (line_at lines s) = true →
  (∀ j, s < j ≤ k → continues lines s j) → absorbed lines k.
Proof. intros Hs Hsig Hc. exists s. split; [lia|]. split; [done|]. apply Hc. Qed.

(** A line that is not a signature is absorbed only through the last
    signature before it. *)
Lemma absorbed_last_signature (lines : list string) (t k : Z) :
  1 ≤ t ≤ k → is_signature (line_at lines t) = true →
  (∀ j, t < j ≤ k → continues lines t j) →
  is_signature (line_at lines (k + 1)) = false →
  absorbed lines (k + 1) → continues lines t (k + 1).
Proof.
  intros Ht Hsig Hcont Hline (s & Hs & Hssig & Hall).
  assert (s = t) as ->.
  { destruct (Z.lt_trichotomy s t) as [Hlt|[Heq|Hgt]]; [|done|].
    - destruct (Hall t) as [Hno _]; [lia|]. congruence.
    - destruct (decide (s = k + 1)) as [->|Hne]; [congruence|].
      destruct (Hcont s) as [Hno _]; [lia|]. congruence. }
  apply Hall. lia.
Qed.

Lemma absorbed_shrink (lines : list string) (k : Z) :
  is_signature (line_at lines (k + 1)) = false →
  absorbed lines (k + 1) → absorbed lines k.
Proof.
  intros Hline (s & Hs & Hssig & Hall).
  assert (s ≠ k + 1) by congruence.
  exists s. split; [lia|]. split; [done|]. intros j Hj. apply Hall. lia.
Qed.

Lemma covered_snoc (l : list CodeChunk) (c : CodeChunk) (i : Z) :
  covered (l ++ [c]) i ↔ covered l i ∨ covers c i.
Proof.
  unfold covered. split.
  - intros (c' & [Hin|Hin%list_elem_of_singleton]%elem_of_app & Hc); subst; eauto.
  - intros [(c' & Hin & Hc)|Hc].
    + exists c'. split; [apply elem_of_app; by left|done].
    + exists c. split; [apply elem_of_app; right; by apply list_elem_of_singleton|done].
Qed.

Lemma covered_bounded (l : list CodeChunk) (k i : Z) :
  Forall (fun c => 1 ≤ start_line c ≤ end_line c ∧ end_line c ≤ k) l →
  covered l i → 1 ≤ i ≤ k.
Proof.
  intros Hall (c & Hin & Hc). rewrite Forall_forall in Hall.
  specialize (Hall c Hin). unfold covers in Hc. lia.
Qed.

Lemma open_covers_closed (sc : scan) (i : Z) :
  current_symbol sc = None → ¬ open_covers sc i.
Proof. intros Hnone (sym & Hsome & _). congruence. Qed.

Lemma symbol_bound_weaken (l : list CodeChunk) (k : Z) :
  Forall (fun c => 1 ≤ start_line c ≤ end_line c ∧ end_line c ≤ k) l →
  Forall (fun c => 1 ≤ start_line c ≤ end_line c ∧ end_line c ≤ k + 1) l.
Proof. intros H. eapply Forall_impl; [exact H|]. intros c. simpl. lia. Qed.

(** Yielding the open symbol as a chunk that ends at line [k] turns the
    lines it had open into covered ones. *)
Lemma close_symbol_covered (fp : string) (lines pre : list string)
    (yielded : list CodeChunk) (sc : scan) (sym : symbol) :
  let k := Z.of_nat (length pre) in
  symbol_inv lines pre (yielded, sc) →
  current_symbol sc = Some sym →
  let yielded' :=
    yielded ++ [symbol_chunk fp sym (current_lines sc) (k + 1 - 1)] in
  Forall (fun c => 1 ≤ start_line c ≤ end_line c ∧ end_line c ≤ k) yielded'
  ∧ ∀ i, 1 ≤ i ≤ k → covered yielded' i ↔ absorbed lines i.
Proof.
  intros k (Hall & Hcov & Hopen) Hsym yielded'. rewrite Hsym in Hopen.
  destruct Hopen as (Hstart & _). split.
  - apply Forall_app. split; [done|].
    apply Forall_singleton. simpl. lia.
  - intros i Hi. rewrite <- (Hcov i Hi). unfold yielded'.
    rewrite covered_snoc. apply or_iff_compat_l.
    unfold covers, open_covers. simpl. split.
    + intros ?. exists sym. split; [done|lia].
    + intros (sym' & Hsym' & ?). assert (sym' = sym) as -> by congruence. lia.
Qed.

Lemma start_symbol_inv (fp : string) (lines pre rest : list string)
    (line type name : string) (st : list CodeChunk * scan) :
  lines = pre ++ line :: rest →
  is_signature line = true →
  symbol_inv lines pre st →
  symbol_inv lines (pre ++ [line])
    (start_symbol fp (Z.of_nat (length pre) + 1) line type name st).
Proof.
  intros Hlines Hsig Hinv. destruct st as [yielded sc].
  pose proof (line_at_middle pre rest line) as Hline. rewrite <- Hlines in Hline.
  set (k := Z.of_nat (length pre)) in *.
  assert (Z.of_nat (length (pre ++ [line])) = k + 1) as Hk.
  { rewrite length_app. simpl. lia. }
  unfold start_symbol.
  match goal with
  | |- symbol_inv _ _ (?y, _) => set (yielded' := y)
  end.
  assert (Forall (fun c => 1 ≤ start_line c ≤ end_line c ∧ end_line c ≤ k + 1)
            yielded'
          ∧ ∀ i, 1 ≤ i ≤ k → covered yielded' i ↔ absorbed lines i)
    as [Hall' Hcov'].
  { unfold yielded'. destruct (current_symbol sc) as [sym|] eqn:Hsym.
    - pose proof Hinv as (_ & _ & Hopen). rewrite Hsym in Hopen.
      destruct Hopen as (_ & _ & _ & Hne & _).
      rewrite (bool_decide_eq_false_2 _ Hne). simpl.
      destruct (close_symbol_covered fp lines pre yielded sc sym Hinv Hsym)
        as [Hall Hcov].
      split; [by apply symbol_bound_weaken|done].
    - destruct Hinv as (Hall & Hcov & _). split; [by apply symbol_bound_weaken|].
      intros i Hi. rewrite <- (Hcov i Hi). split; [by left|].
      intros [?|Hopen]; [done|]. by apply open_covers_closed in Hopen. }
  unfold symbol_inv. rewrite Hk. split; [done|]. split.
  - intros i Hi. destruct (decide (i ≤ k)) as [Hle|Hgt].
    + rewrite <- (Hcov' i) by lia. split; [|by left].
      intros [?|(sym' & Hsym' & ?)]; [done|].
      simpl in Hsym'. injection Hsym' as <-. simpl in *. lia.
    + assert (i = k + 1) as -> by lia. split.
      * intros _. apply absorbed_signature; [lia|]. by rewrite Hline.
      * intros _. right. eexists. split; [reflexivity|]. simpl. lia.
  - simpl. rewrite Hline. split; [lia|]. split; [done|]. split; [done|].
    split; [done|]. intros j Hj. lia.
Qed.

Lemma continue_symbol_inv (fp : string) (lines pre rest : list string)
    (line : string) (st : list CodeChunk * scan) :
  lines = pre ++ line :: rest →
  is_signature line = false →
  symbol_inv lines pre st →
  symbol_inv lines (pre ++ [line])
    (continue_symbol fp (Z.of_nat (length pre) + 1) line st).
Proof.
  intros Hlines Hsig Hinv. destruct st as [yielded sc].
  pose proof (line_at_middle pre rest line) as Hline. rewrite <- Hlines in Hline.
  set (k := Z.of_nat (length pre)) in *.
  assert (Z.of_nat (length (pre ++ [line])) = k + 1) as Hk.
  { rewrite length_app. simpl. lia. }
  unfold continue_symbol.
  destruct (current_symbol sc) as [sym|] eqn:Hsym.
  - pose proof Hinv as (Hall & Hcov & Hopen). rewrite Hsym in Hopen.
    destruct Hopen as (Hstart & Hssig & Hind & Hne & Hcont).
    assert ((text.lstrip line =? EmptyString)%string || (current_indent sc <? indent_of line)
            || (indent_of line =? current_indent sc) = true
            ↔ continues lines (sym_start sym) (k + 1)) as Hiff.
    { unfold continues. rewrite Hline, Hsig, <- Hind.
      rewrite !orb_true_iff, String.eqb_eq, Z.ltb_lt, Z.eqb_eq.
      split; [intros [[?|?]|?]; split; try done; try (right; lia); by left|].
      intros [_ [?|?]]; [by left; left|].
      destruct (decide (current_indent sc = indent_of line)); [by right|].
      left; right; lia. }
    destruct ((text.lstrip line =? EmptyString)%string || (current_indent sc <? indent_of line))
      eqn:Hfirst; [|destruct (indent_of line =? current_indent sc) eqn:Hsecond].
    1,2: assert (continues lines (sym_start sym) (k + 1)) as Hnew
           by (apply Hiff; rewrite ?Hsecond, ?orb_true_r; done).
    1,2: unfold symbol_inv; rewrite Hk; simpl; rewrite ?Hsym.
    1,2: split; [by apply symbol_bound_weaken|].
    1,2: split;
           [|split; [lia|]; split; [done|]; split; [done|];
             split; [by intros [_ ?]%app_nil|];
             intros j Hj; destruct (decide (j = k + 1)) as [->|?];
             [done|apply Hcont; lia]].
    1,2: intros i Hi; destruct (decide (i ≤ k)) as [Hle|Hgt];
           [rewrite <- (Hcov i) by lia; apply or_iff_compat_l;
            unfold open_covers; simpl; by rewrite Hsym|].
    1,2: assert (i = k + 1) as -> by lia; split;
           [intros _; apply (absorbed_extend lines (sym_start sym)); [lia|done|];
            intros j Hj; destruct (decide (j = k + 1)) as [->|?];
            [done|apply Hcont; lia]
           |intros _; right; exists sym; split; [done|lia]].
    assert (¬ absorbed lines (k + 1)) as Hnot.
    { intros Habs.
      apply (absorbed_last_signature lines (sym_start sym) k) in Habs;
        [|lia|done|done|by rewrite Hline].
      apply Hiff in Habs. done. }
    destruct (close_symbol_covered fp lines pre yielded sc sym Hinv Hsym)
      as [Hall' Hcov'].
    unfold symbol_inv. rewrite Hk. simpl.
    split; [by apply symbol_bound_weaken|]. split; [|done].
    intros i Hi. destruct (decide (i ≤ k)) as [Hle|Hgt].
    + rewrite <- (Hcov' i) by lia. split; [|by left].
      intros [?|Hopen]; [done|]. by apply open_covers_closed in Hopen.
    + assert (i = k + 1) as -> by lia. split; [|done].
      intros [Hc|Hopen]; [|by apply open_covers_closed in Hopen].
      apply (covered_bounded _ k) in Hc; [lia|done].
  - destruct Hinv as (Hall & Hcov & Hclosed). rewrite Hsym in Hclosed.
    assert (¬ absorbed lines (k + 1)) as Hnot.
    { intros Habs. apply Hclosed. apply (absorbed_shrink lines k); [by rewrite Hline|done]. }
    unfold symbol_inv. rewrite Hk, Hsym. split; [by apply symbol_bound_weaken|].
    split; [|done].
    intros i Hi. destruct (decide (i ≤ k)) as [Hle|Hgt]; [apply Hcov; lia|].
    assert (i = k + 1) as -> by lia. split; [|done].
    intros [Hc|Hopen]; [|by apply open_covers_closed in Hopen].
    apply (covered_bounded _ k) in Hc; [lia|done].
Qed.

Lemma symbol_step_inv (fp : string) (lines pre rest : list string)
    (line : string) (st : list CodeChunk * scan) :
  lines = pre ++ line :: rest →
  symbol_inv lines pre st →
  symbol_inv lines (pre ++ [line])
    (symbol_step fp (Z.of_nat (length pre) + 1) line st).
Proof.
  intros Hlines Hinv. unfold symbol_step.
  destruct (class_match (text.lstrip line)) as [cname|] eqn:Hclass;
    [|destruct (func_match (text.lstrip line)) as [fname|] eqn:Hfunc].
  - apply (start_symbol_inv fp lines pre rest); [done| |done].
    unfold is_signature. by rewrite Hclass.
  - apply (start_symbol_inv fp lines pre rest); [done| |done].
    unfold is_signature. by rewrite Hclass, Hfunc.
  - apply (continue_symbol_inv fp lines pre rest); [done| |done].
    unfold is_signature. by rewrite Hclass, Hfunc.
Qed.

Lemma symbol_loop_inv (fp : string) (lines rest pre : list string)
    (st : list CodeChunk * scan) :
  lines = pre ++ rest →
  symbol_inv lines pre st →
  symbol_inv lines lines
    (symbol_loop fp (Z.of_nat (length pre) + 1) rest st).
Proof.
  revert pre st. induction rest as [|line rest IH]; intros pre st Hlines Hinv.
  - rewrite app_nil_r in Hlines. by subst pre.
  - simpl.
    replace (Z.of_nat (length pre) + 1 + 1)
      with (Z.of_nat (length (pre ++ [line])) + 1)
      by (rewrite length_app; simpl; lia).
    apply IH.
    + by rewrite <- app_assoc.
    + by apply (symbol_step_inv fp lines pre rest).
Qed.

Lemma symbol_inv_initial (lines : list string) :
  symbol_inv lines []
    ([], {| current_symbol := None; current_lines := []; current_indent := 0 |}).
Proof.
  unfold symbol_inv. simpl. split; [done|]. split.
  - intros i Hi. lia.
  - intros (s & Hs & _). lia.
Qed.

(** The chunks of [extract_python_symbols] cover exactly the absorbed
    lines, and lie within the file. *)
Lemma extract_python_symbols_covered (content fp : string) :
  let lines := text.split_newline content in
  let chunks := extract_python_symbols content fp in
  Forall (fun c => 1 ≤ start_line c ≤ end_line c
                   ∧ end_line c ≤ Z.of_nat (length lines)) chunks
  ∧ ∀ i, 1 ≤ i ≤ Z.of_nat (length lines) → covered chunks i ↔ absorbed lines i.
Proof.
  intros lines chunks.
  pose proof (symbol_loop_inv fp lines lines [] _ eq_refl (symbol_inv_initial lines))
    as Hloop.
  change (Z.of_nat (length (@nil string)) + 1) with 1 in Hloop.
  unfold chunks, extract_python_symbols. fold lines.
  destruct (symbol_loop _ _ _ _) as [yielded sc] eqn:Hrun.
  destruct (current_symbol sc) as [sym|] eqn:Hsym.
  - pose proof Hloop as (_ & _ & Hopen). rewrite Hsym in Hopen.
    destruct Hopen as (_ & _ & _ & Hne & _).
    rewrite (bool_decide_eq_false_2 _ Hne). simpl.
    destruct (close_symbol_covered fp lines lines yielded sc sym Hloop Hsym)
      as [Hall Hcov].
    replace (Z.of_nat (length lines) + 1 - 1) with (Z.of_nat (length lines))
      in Hall, Hcov by lia.
    done.
  - destruct Hloop as (Hall & Hcov & _). split; [done|].
    intros i Hi. rewrite <- (Hcov i Hi). split; [by left|].
    intros [?|Hopen]; [done|]. by apply open_covers_closed in Hopen.
Qed.

(** C5 (amended).  For every file that [chunk_file] does not skip
    entirely: when the sliding-window strategy is used (the language is
    not Python, or symbol extraction yields nothing) every line of the
    file is covered by the line range of some chunk; when symbol
    extraction is used, a line is covered exactly when it is absorbed by
    a symbol, that is, when it is a signature line or follows the last
    signature line before it with only blank or at-least-as-indented
    non-signature lines in between. *)
Theorem chunk_file_line_coverage (f : source_file) (content : string) :
  skipped_entirely f = false →
  read_file_safe f = Some content →
  let lines := text.split_newline content in
  let symbols := extract_python_symbols content (relative_path f) in
  ∀ i, 1 ≤ i ≤ Z.of_nat (length lines) →
    if bool_decide (detect_language (path f) = Some "python"%string)
       && negb (bool_decide (symbols = []))
    then covered (chunk_file f) i ↔ absorbed lines i
    else covered (chunk_file f) i.
Proof.
  intros Hskip Hread lines symbols i Hi.
  unfold skipped_entirely in Hskip. rewrite Hread in Hskip.
  apply orb_false_iff in Hskip as [Hpath Hcontent].
  apply orb_false_iff in Hcontent as [Hempty Hshort].
  unfold chunk_file. rewrite Hpath, Hread, Hempty, Hshort.
  fold symbols.
  destruct (bool_decide (detect_language (path f) = Some "python"%string)); simpl.
  - destruct (bool_decide (symbols = [])) eqn:Hnone; simpl.
    + by apply (sliding_window_chunk_spans content).
    + by apply (extract_python_symbols_covered content (relative_path f)).
  - by apply (sliding_window_chunk_spans content).
Qed.

Lemma chunk_file_line_coverage_witness :
  covered (chunk_file samples.python_file) 4
  ↔ absorbed (text.split_newline samples.python_text) 4.
Proof.
  apply (chunk_file_line_coverage samples.python_file samples.python_text
           eq_refl eq_refl 4).
  vm_compute. split; discriminate.
Defined.

(** C5 (as stated, refuted).  The sample Python file is not skipped and
    has non-empty lines, symbol extraction yields one chunk for it
    (lines 4 to 10), and line 1, [import os], lies in the range of no
    chunk. *)
Lemma symbol_extraction_drops_leading_lines :
  skipped_entirely samples.python_file = false
  ∧ line_at (text.split_newline samples.python_text) 1 = "import os"%string
  ∧ map (fun c => (start_line c, end_line c)) (chunk_file samples.python_file)
    = [(4, 10)]
  ∧ ¬ covered (chunk_file samples.python_file) 1.
Proof.
  split; [reflexivity|]. split; [reflexivity|]. split; [reflexivity|].
  intros (c & Hin & Hc). apply list_elem_of_In in Hin.
  vm_compute in Hin. destruct Hin as [<-|[]].
  unfold covers in Hc. simpl in Hc. lia.
Qed.

End symbol_properties.

(** ** Vector index persistence *)

Section vector_store_properties.
Import config vector_store.
Context `{Capabilities}.

Lemma append_inj_r (p a b : string) : p +:+ a = p +:+ b → a = b.
Proof. induction p as [|c p IH]; simpl; [done|]. intros [= Heq]. by apply IH. Qed.

Lemma artifact_paths_differ (self : VectorStore) : _index_path self ≠ _map_path self.
Proof.
  unfold _index_path, _map_path. intros Heq.
  do 3 apply append_inj_r in Heq. discriminate.
Qed.

(** C8.  For every store that holds an index, whatever its vectors and
    id map, and every state of the disk: after [save], [load] on a fresh
    instance for the same repository succeeds, and the loaded instance
    answers every [search] (any query, top_k and threshold) with the same
    list of (slot, score) results and every [get_chunk_id] with the same
    id as the original. *)
Theorem save_load_round_trip (self : VectorStore) (idx : IndexFlatIP)
    (disk : gmap string artifact) :
  vs_index self = Some idx →
  let '(loaded_ok, fresh) := load (init (repo_id self)) (save self disk) in
  loaded_ok = true
  ∧ (∀ query top_k threshold,
       search fresh query top_k threshold = search self query top_k threshold)
  ∧ (∀ slot, get_chunk_id fresh slot = get_chunk_id self slot).
Proof.
  intros Hidx. unfold save, load. rewrite Hidx.
  change (_index_path (init (repo_id self))) with (_index_path self).
  change (_map_path (init (repo_id self))) with (_map_path self).
  rewrite lookup_insert_ne by (apply not_eq_sym, artifact_paths_differ).
  rewrite !lookup_insert_eq.
  split; [done|]. split.
  - intros query top_k threshold. unfold search. simpl. by rewrite Hidx.
  - intros slot. done.
Qed.

End vector_store_properties.

Lemma save_load_round_trip_witness :
  let '(loaded_ok, fresh) :=
    vector_store.load (vector_store.init "r-1")
      (vector_store.save (samples.indexed_store 3) ∅) in
  loaded_ok = true
  ∧ vector_store.search fresh (3 # 5, 4 # 5)%Q 2 0.65%Q
    = vector_store.search (samples.indexed_store 3) (3 # 5, 4 # 5)%Q 2 0.65%Q
  ∧ vector_store.get_chunk_id fresh 1
    = vector_store.get_chunk_id (samples.indexed_store 3) 1.
Proof.
  pose proof (save_load_round_trip (H := samples.caps) (samples.indexed_store 3)
                _ ∅ eq_refl) as Hrt.
  change (vector_store.repo_id (samples.indexed_store 3)) with "r-1"%string in Hrt.
  destruct (vector_store.load _ _) as [loaded_ok fresh].
  destruct Hrt as (Hok & Hsearch & Hid).
  split; [exact Hok|]. split; [apply Hsearch | apply Hid].
Defined.


(** ** Search: totals and pages *)

Section list_facts.

Lemma slice_nonneg {A : Type} (l : list A) (offset limit : Z) :
  0 ≤ offset → 0 ≤ limit →
  py.slice l (Some offset) (Some (offset + limit))
  = firstn (Z.to_nat limit) (skipn (Z.to_nat offset) l).
Proof.
  intros Ho Hl. unfold py.slice.
  destruct (offset <? 0) eqn:Ho'; [lia|].
  destruct (offset + limit <? 0) eqn:Hol'; [lia|].
  set (n := Z.of_nat (length l)).
  destruct (decide (n ≤ offset)) as [Hge|Hlt].
  - rewrite !skipn_all2 by lia. by rewrite !firstn_nil.
  - replace (Z.min offset n) with offset by lia.
    destruct (decide (offset + limit ≤ n)) as [Hin|Hout].
    + f_equal. lia.
    + replace (Z.min (offset + limit) n) with n by lia.
      rewrite !firstn_all2; [done| |]; rewrite length_skipn; lia.
Qed.

Lemma slice_nil {A : Type} (a b : option Z) : py.slice (@nil A) a b = [].
Proof. unfold py.slice. by rewrite skipn_nil, firstn_nil. Qed.

Lemma imap_labels {A : Type} (g : A → Q) (k : nat) (l : list A) :
  map snd (imap (fun slot v => (g v, Z.of_nat (k + slot))) l)
  = map Z.of_nat (seq k (length l)).
Proof.
  revert k. induction l as [|v l IH]; intros k; simpl; [done|].
  rewrite Nat.add_0_r. f_equal.
  rewrite <- (IH (S k)). f_equal. apply imap_ext. intros i w _. simpl.
  do 2 f_equal. lia.
Qed.

Lemma NoDup_map_filter {A B : Type} (g : A → B) (f : A → bool) (l : list A) :
  NoDup (map g l) → NoDup (map g (List.filter f l)).
Proof.
  induction l as [|x l IH]; simpl; [done|].
  intros Hnd. apply NoDup_cons in Hnd as [Hx Hl].
  destruct (f x); simpl; [|by apply IH].
  apply NoDup_cons. split; [|by apply IH].
  intros Hin. apply Hx. apply list_elem_of_In, in_map_iff in Hin.
  destruct Hin as (y & Hy & Hin). apply filter_In in Hin as [Hin _].
  apply list_elem_of_In, in_map_iff. by exists y.
Qed.

Lemma NoDup_map_firstn {A B : Type} (g : A → B) (k : nat) (l : list A) :
  NoDup (map g l) → NoDup (map g (firstn k l)).
Proof.
  revert k. induction l as [|x l IH]; intros k; [by destruct k|].
  destruct k as [|k]; simpl; [constructor|].
  intros Hnd. apply NoDup_cons in Hnd as [Hx Hl].
  apply NoDup_cons. split; [|by apply IH].
  intros Hin. apply Hx. apply list_elem_of_In, in_map_iff in Hin.
  destruct Hin as (y & Hy & Hin). apply list_elem_of_In, in_map_iff.
  exists y. split; [done|]. by apply list_elem_of_In, (subseteq_take k l), list_elem_of_In.
Qed.

Lemma NoDup_map_inv {A B : Type} (g : A → B) (l : list A) :
  NoDup (map g l) → NoDup l.
Proof.
  induction l as [|x l IH]; simpl; [constructor|].
  intros Hnd. apply NoDup_cons in Hnd as [Hx Hl].
  apply NoDup_cons. split; [|by apply IH].
  intros Hin. apply Hx. apply list_elem_of_In, in_map_iff.
  exists x. split; [done|]. by apply list_elem_of_In.
Qed.

Lemma sorted_filter {A : Type} (R : A → A → Prop) (f : A → bool) (l : list A) :
  StronglySorted R l → StronglySorted R (List.filter f l).
Proof.
  induction 1 as [|x l Hs IH Hall]; simpl; [constructor|].
  destruct (f x); [|done]. constructor; [done|].
  apply Forall_forall. intros y Hy. rewrite Forall_forall in Hall.
  apply Hall. apply list_elem_of_In. apply list_elem_of_In in Hy.
  by apply filter_In in Hy as [Hy _].
Qed.

Lemma sorted_firstn {A : Type} (R : A → A → Prop) (k : nat) (l : list A) :
  StronglySorted R l → StronglySorted R (firstn k l).
Proof.
  intros Hs. revert k. induction Hs as [|x l Hs IH Hall]; intros k.
  - destruct k; constructor.
  - destruct k as [|k]; simpl; constructor; [apply IH|].
    apply Forall_forall. intros y Hy. rewrite Forall_forall in Hall.
    apply Hall. by apply (subseteq_take k l).
Qed.

Lemma sorted_skipn {A : Type} (R : A → A → Prop) (k : nat) (l : list A) :
  StronglySorted R l → StronglySorted R (skipn k l).
Proof.
  intros Hs. revert k. induction Hs as [|x l Hs IH Hall]; intros k.
  - destruct k; constructor.
  - destruct k as [|k]; simpl; [by constructor|apply IH].
Qed.

Lemma sorted_map {A B : Type} (R : A → A → Prop) (S : B → B → Prop)
    (g : A → B) (l : list A) :
  (∀ x y, R x y → S (g x) (g y)) →
  StronglySorted R l → StronglySorted S (map g l).
Proof.
  intros HRS. induction 1 as [|x l Hs IH Hall]; simpl; constructor; [done|].
  apply Forall_forall. intros y Hy. apply list_elem_of_In, in_map_iff in Hy.
  destruct Hy as (z & <- & Hz). apply HRS.
  rewrite Forall_forall in Hall. by apply Hall, list_elem_of_In.
Qed.

End list_facts.

(** *** The reference index answers as an exhaustive index does *)

Section reference_index.
Import faiss_reference.
Context {V : Type} (ip : V → V → Q).

Lemma insert_hit_sorted (x : Q * Z) (l : list (Q * Z)) :
  StronglySorted vector_store.by_score_desc l →
  StronglySorted vector_store.by_score_desc (insert_hit x l).
Proof.
  induction 1 as [|y l Hs IH Hall]; simpl.
  - constructor; constructor.
  - destruct (Qle_bool (fst y) (fst x)) eqn:Hle.
    + apply Qle_bool_iff in Hle. constructor; [by constructor|].
      constructor; [done|].
      eapply Forall_impl; [exact Hall|]. intros z Hz. simpl in Hz.
      unfold vector_store.by_score_desc in *. by apply (Qle_trans _ (fst y)).
    + assert (fst x <= fst y)%Q as Hxy.
      { destruct (Qlt_le_dec (fst x) (fst y)) as [Hlt|Hge].
        - by apply Qlt_le_weak.
        - apply Qle_bool_iff in Hge. congruence. }
      constructor; [done|].
      clear IH Hs Hle. induction l as [|z l IHl]; simpl.
      * by constructor.
      * inversion Hall; subst.
        destruct (Qle_bool (fst z) (fst x)); constructor; auto.
Qed.

Lemma insert_hit_perm (x : Q * Z) (l : list (Q * Z)) : insert_hit x l ≡ₚ x :: l.
Proof.
  induction l as [|y l IH]; simpl; [done|].
  destruct (Qle_bool (fst y) (fst x)); [done|].
  rewrite IH. apply Permutation_swap.
Qed.

Lemma ranked_perm (stored : list V) (q : V) :
  ranked ip stored q
  ≡ₚ imap (fun slot v => (ip q v, Z.of_nat slot)) stored.
Proof.
  unfold ranked. induction (imap _ _) as [|x l IH]; simpl; [done|].
  by rewrite insert_hit_perm, IH.
Qed.

Lemma ranked_sorted (stored : list V) (q : V) :
  StronglySorted vector_store.by_score_desc (ranked ip stored q).
Proof.
  unfold ranked.
  induction (imap _ _) as [|x l IH]; simpl; [constructor|].
  by apply insert_hit_sorted.
Qed.

(** The first [k] of the ranking are [k] hits on distinct slots, each
    with the inner product of its vector, best first. *)
Lemma reference_top_k (stored : list V) (q : V) (k : Z) :
  0 < k ≤ Z.of_nat (length stored) →
  let hits := index_search ip stored q k in
  Z.of_nat (length hits) = k
  ∧ NoDup (map snd hits)
  ∧ Forall (fun h => ∃ slot v, snd h = Z.of_nat slot
                      ∧ stored !! slot = Some v
                      ∧ fst h = ip q v) hits
  ∧ StronglySorted vector_store.by_score_desc hits.
Proof.
  intros Hk hits. unfold hits, index_search.
  pose proof (ranked_perm stored q) as Hperm.
  split_and!.
  - rewrite length_take, Hperm, length_imap. lia.
  - apply NoDup_map_firstn.
    assert (map snd (ranked ip stored q)
            ≡ₚ map Z.of_nat (seq 0 (length stored))) as ->.
    { rewrite <- (imap_labels (ip q) 0 stored).
      apply Permutation_map. simpl. exact Hperm. }
    apply NoDup_fmap_2; [|apply NoDup_seq]. intros a b. lia.
  - apply Forall_forall. intros h Hh.
    apply (subseteq_take (Z.to_nat k)) in Hh. rewrite Hperm in Hh.
    apply elem_of_lookup_imap in Hh as (i & v & -> & Hv).
    by exists i, v.
  - apply sorted_firstn, ranked_sorted.
Qed.

End reference_index.

Lemma reference_exact_top_k : vector_store.exact_top_k (H := samples.caps).
Proof. intros stored q k Hk. by apply reference_top_k. Qed.

Section search_properties.
Import errors config.
Context `{Capabilities}.

(** *** What the index answers, given that it is exhaustive *)

(** Every hit of a smaller answer is a hit of the answer for the whole
    index, with the same score. *)
Lemma top_k_subset (stored : list Vec) (q : Vec) (k : Z) (h : vector_store.hit) :
  vector_store.exact_top_k →
  0 < k ≤ Z.of_nat (length stored) →
  h ∈ index_search stored q k →
  h ∈ index_search stored q (Z.of_nat (length stored)).
Proof.
  intros law Hk Hh.
  destruct (law stored q k Hk) as (_ & _ & Hall & _).
  destruct (law stored q (Z.of_nat (length stored)) ltac:(lia))
    as (Hlen & Hnd & Hall' & _).
  set (hits' := index_search stored q (Z.of_nat (length stored))) in *.
  rewrite Forall_forall in Hall. destruct (Hall h Hh) as (slot & v & Hslot & Hv & Hs).
  assert (map snd hits' ≡ₚ map Z.of_nat (seq 0 (length stored))) as Hperm.
  { apply submseteq_length_Permutation.
    - apply NoDup_submseteq; [done|]. intros z Hz.
      apply list_elem_of_In, in_map_iff in Hz as (h' & <- & Hh').
      rewrite Forall_forall in Hall'.
      destruct (Hall' h') as (slot' & v' & -> & Hv' & _);
        [by apply list_elem_of_In|].
      apply list_elem_of_In, in_map_iff. exists slot'. split; [done|].
      apply in_seq. apply lookup_lt_Some in Hv'. lia.
    - rewrite !length_map, length_seq. lia. }
  assert (Z.of_nat slot ∈ map snd hits') as Hin.
  { rewrite Hperm. apply list_elem_of_In, in_map_iff. exists slot.
    split; [done|]. apply in_seq. apply lookup_lt_Some in Hv. lia. }
  apply list_elem_of_In, in_map_iff in Hin as (h' & Hlabel & Hh').
  apply list_elem_of_In in Hh'.
  rewrite Forall_forall in Hall'.
  destruct (Hall' h' Hh') as (slot' & v' & Hslot' & Hv' & Hs').
  assert (slot' = slot) as -> by lia.
  assert (v' = v) as -> by congruence.
  destruct h as [s l], h' as [s' l']. simpl in *. by subst.
Qed.

(** The results of a search: how many, which slots, which scores, in
    which order. *)
Lemma search_ranked (self : vector_store.VectorStore) (query : Vec) (top_k : Z)
    (threshold : Q) :
  vector_store.exact_top_k →
  0 < top_k →
  let results := vector_store.search self query top_k threshold in
  Z.of_nat (length results) ≤ Z.min top_k (vector_store.size self)
  ∧ Forall (fun r =>
      score_ge (vector_store.score r) threshold = true
      ∧ 0 ≤ vector_store.index r < vector_store.size self
      ∧ ∃ idx v,
          vector_store.vs_index self = Some idx
          ∧ vector_store.xb idx !! Z.to_nat (vector_store.index r) = Some v
          ∧ vector_store.score r = inner_product (normalize_L2 query) v)
      results
  ∧ NoDup (map vector_store.index results)
  ∧ StronglySorted
      (fun r1 r2 => (vector_store.score r2 <= vector_store.score r1)%Q) results.
Proof.
  intros law Hk results. unfold results, vector_store.search, vector_store.size.
  destruct (vector_store.vs_index self) as [idx|];
    [|split_and!; simpl; try constructor; lia].
  destruct (Z.eqb_spec (vector_store.ntotal idx) 0) as [Hn|Hn];
    [split_and!; simpl; try constructor; lia|].
  unfold vector_store.faiss_search, vector_store.ntotal in *.
  set (q := normalize_L2 query).
  set (k := Z.min top_k (Z.of_nat (length (vector_store.xb idx)))).
  destruct (law (vector_store.xb idx) q k ltac:(lia))
    as (Hlen & Hnd & Hall & Hsorted).
  set (hits := index_search (vector_store.xb idx) q k) in *.
  set (keep := fun h : vector_store.hit =>
                 (0 <=? snd h) && score_ge (fst h) threshold).
  split_and!.
  - rewrite length_map.
    etrans; [apply inj_le, filter_length_le|]. lia.
  - apply Forall_forall. intros r Hr. apply list_elem_of_In, in_map_iff in Hr.
    destruct Hr as (h & <- & Hh). apply filter_In in Hh as [Hh Hkeep].
    unfold keep in Hkeep. apply andb_true_iff in Hkeep as [_ Hth]. simpl.
    rewrite Forall_forall in Hall.
    destruct (Hall h) as (slot & v & Hslot & Hv & Hs); [by apply list_elem_of_In|].
    apply lookup_lt_Some in Hv as Hlt.
    split_and!; [done|lia|lia|].
    exists idx, v. rewrite Hslot, Nat2Z.id. by split_and!.
  - rewrite map_map. simpl.
    change (map (fun h : vector_store.hit => snd h)) with (map (@snd Q Z)).
    by apply NoDup_map_filter.
  - apply (sorted_map vector_store.by_score_desc); [done|].
    by apply sorted_filter.
Qed.

(** Two windows that both cover the index give the same candidates. *)
Lemma search_covering (vs : vector_store.VectorStore) (q : Vec) (k1 k2 : Z)
    (t : Q) :
  vector_store.size vs ≤ k1 → vector_store.size vs ≤ k2 →
  vector_store.search vs q k1 t = vector_store.search vs q k2 t.
Proof.
  unfold vector_store.search, vector_store.size.
  destruct (vector_store.vs_index vs) as [idx|]; [|done].
  intros H1 H2. destruct (vector_store.ntotal idx =? 0); [done|].
  by rewrite !Z.min_r by done.
Qed.

(** The candidates of any window are among those of a window that covers
    the index. *)
Lemma search_submseteq (vs : vector_store.VectorStore) (q : Vec) (k kf : Z)
    (t : Q) :
  vector_store.exact_top_k →
  0 < k → vector_store.size vs ≤ kf →
  vector_store.search vs q k t ⊆+ vector_store.search vs q kf t.
Proof.
  intros law Hk Hkf. apply NoDup_submseteq.
  { destruct (search_ranked vs q k t law Hk) as (_ & _ & Hnd & _).
    by apply NoDup_map_inv in Hnd. }
  intros r. unfold vector_store.search, vector_store.size in *.
  destruct (vector_store.vs_index vs) as [idx|]; [|done].
  destruct (Z.eqb_spec (vector_store.ntotal idx) 0) as [Hn|Hn]; [done|].
  unfold vector_store.faiss_search, vector_store.ntotal in *.
  rewrite (Z.min_r kf) by done.
  intros Hr. apply list_elem_of_In, in_map_iff in Hr as (h & <- & Hh).
  apply filter_In in Hh as [Hh Hkeep].
  apply list_elem_of_In, in_map_iff. exists h. split; [done|].
  apply filter_In. split; [|done].
  apply list_elem_of_In.
  apply (top_k_subset _ _ (Z.min k (Z.of_nat (length (vector_store.xb idx)))));
    [done|lia|].
  by apply list_elem_of_In.
Qed.

(** *** Building results *)

Lemma chunk_id_in_chunk_ids (vs : vector_store.VectorStore)
    (srs : list vector_store.SearchResult) (r : vector_store.SearchResult)
    (cid : string) :
  r ∈ srs →
  vector_store.get_chunk_id vs (vector_store.index r) = Some cid →
  text.truthy (Some cid) = true →
  cid ∈ search.chunk_ids_of vs srs.
Proof.
  intros Hin Hcid Htruthy. unfold search.chunk_ids_of.
  apply list_elem_of_omap. exists r. split; [done|].
  by rewrite Hcid, Htruthy.
Qed.

Lemma result_for_by_id (db : database.Db) (vs : vector_store.VectorStore)
    (ff : option string) (srs : list vector_store.SearchResult)
    (r : vector_store.SearchResult) :
  r ∈ srs →
  search.result_for vs (search.chunks_by_id db (search.chunk_ids_of vs srs)) ff r
  = search.result_for vs (database.code_chunks db) ff r.
Proof.
  intros Hin. unfold search.result_for.
  destruct (vector_store.get_chunk_id vs (vector_store.index r)) as [cid|] eqn:Hcid;
    [|done].
  destruct (text.truthy (Some cid)) eqn:Htruthy; simpl; [|done].
  assert (search.chunks_by_id db (search.chunk_ids_of vs srs) !! cid
          = database.code_chunks db !! cid) as ->; [|done].
  unfold search.chunks_by_id.
  destruct (database.code_chunks db !! cid) as [chunk|] eqn:Hrow.
  - apply map_lookup_filter_Some. split; [done|]. simpl.
    by apply (chunk_id_in_chunk_ids vs srs r).
  - apply map_lookup_filter_None. left. done.
Qed.

Lemma build_results_ext (vs : vector_store.VectorStore)
    (m1 m2 : gmap string code_chunk.CodeChunk) (ff : option string)
    (srs : list vector_store.SearchResult) :
  (∀ r, r ∈ srs → search.result_for vs m1 ff r = search.result_for vs m2 ff r) →
  search.build_results vs m1 ff srs = search.build_results vs m2 ff srs.
Proof.
  induction srs as [|r srs IH]; intros Hext; simpl; [done|].
  rewrite (Hext r) by (by left).
  rewrite IH; [done|]. intros r' Hr'. apply Hext. by right.
Qed.

Lemma build_results_length (vs : vector_store.VectorStore)
    (m : gmap string code_chunk.CodeChunk) (ff : option string)
    (srs : list vector_store.SearchResult) (F : list schemas.SearchResult) :
  search.build_results vs m ff srs = Ok F → (length F ≤ length srs)%nat.
Proof.
  revert F. induction srs as [|c srs IH]; intros F; simpl.
  - by intros [= <-].
  - destruct (search.result_for _ _ _ c) as [[r|e]|]; [|done|].
    + destruct (search.build_results _ _ _ srs) as [rs|e]; [|done].
      intros [= <-]. simpl. specialize (IH rs eq_refl). lia.
    + intros HF. specialize (IH F HF). lia.
Qed.

(** Fewer candidates build fewer results, and build them whenever the
    larger list can be built. *)
Lemma build_results_submseteq (vs : vector_store.VectorStore)
    (m : gmap string code_chunk.CodeChunk) (ff : option string)
    (l1 l2 : list vector_store.SearchResult) :
  l1 ⊆+ l2 →
  ∀ F2, search.build_results vs m ff l2 = Ok F2 →
    ∃ F1, search.build_results vs m ff l1 = Ok F1
          ∧ (length F1 ≤ length F2)%nat.
Proof.
  induction 1 as [|x l1 l2 _ IH|x y l|x l1 l2 _ IH|l1 l2 l3 _ IH1 _ IH2];
    intros F2; simpl.
  - intros [= <-]. by exists [].
  - destruct (search.result_for vs m ff x) as [[r|e]|]; [|done|].
    + destruct (search.build_results vs m ff l2) as [rs|e]; [|done].
      intros [= <-]. destruct (IH rs eq_refl) as (F1 & -> & Hlen).
      exists (r :: F1). simpl. split; [done|lia].
    + apply IH.
  - destruct (search.result_for vs m ff x) as [[rx|e]|],
             (search.result_for vs m ff y) as [[ry|e']|],
             (search.build_results vs m ff l) as [rs|e'']; try done;
      intros [= <-]; eexists; (split; [reflexivity|simpl; lia]).
  - destruct (search.result_for vs m ff x) as [[r|e]|]; [|done|].
    + destruct (search.build_results vs m ff l2) as [rs|e]; [|done].
      intros [= <-]. destruct (IH rs eq_refl) as (F1 & -> & Hlen).
      exists F1. simpl. split; [done|lia].
    + apply IH.
  - intros HF3. destruct (IH2 F2 HF3) as (F & HF & Hlen2).
    destruct (IH1 F HF) as (F1 & HF1 & Hlen1).
    exists F1. split; [done|lia].
Qed.

(** [search_code] over the chunk table: the rows selected by id are the
    rows the loop looks up. *)
Lemma search_code_candidates (db : database.Db)
    (disk : gmap string vector_store.artifact) (repo_id query : string)
    (limit offset : Z) (min_score : option Q) (file_filter : option string) :
  search.search_code db disk repo_id query limit offset min_score file_filter
  = match lifecycle.check_api_readiness db repo_id "search" with
    | Raise e => Raise e
    | Ok _ =>
        let '(loaded, vs) := vector_store.load (vector_store.init repo_id) disk in
        if negb loaded then Ok ([], 0)
        else
          match search.build_results vs (database.code_chunks db) file_filter
                  (vector_store.search vs (generate_embedding query)
                     (limit + offset + 50) (search.threshold_of min_score))
          with
          | Raise e => Raise e
          | Ok results =>
              Ok (py.slice results (Some offset) (Some (offset + limit)),
                  Z.of_nat (length results))
          end
    end.
Proof.
  unfold search.search_code.
  destruct (lifecycle.check_api_readiness db repo_id "search"); [|done].
  destruct (vector_store.load (vector_store.init repo_id) disk) as [loaded vs].
  destruct loaded; simpl; [|done].
  set (window := vector_store.search _ _ _ _).
  case_bool_decide as Hempty.
  - rewrite Hempty. simpl. by rewrite slice_nil.
  - rewrite (build_results_ext vs _ (database.code_chunks db)); [done|].
    intros r Hr. by apply result_for_by_id.
Qed.

(** C3 (amended).  Let the index answer as an exhaustive index does.
    Fix the store, the disk, the repository, the query, the minimum
    score and the file filter, and let [full] be what [search_code]
    returns when its window covers the whole index (offset 0, limit the
    index size [N]).  Then the total of that call is the length of
    [full]; for every limit and offset (both non-negative) the call
    returns, with a total that never exceeds the full one; whenever the
    window [limit + offset + 50] reaches the index size, the total
    equals the full total and the page is the slice
    [offset : offset + limit] of the full list; and when [N <= limit + 50],
    the pages obtained by stepping the offset in increments of the limit
    concatenate to the full list, each result once and in order. *)
Theorem search_code_windowed_total (db : database.Db)
    (disk : gmap string vector_store.artifact) (repo_id query : string)
    (min_score : option Q) (file_filter : option string)
    (full : list schemas.SearchResult) (total_full : Z) :
  vector_store.exact_top_k →
  let N := search.index_size disk repo_id in
  let run limit offset :=
    search.search_code db disk repo_id query limit offset min_score file_filter in
  run N 0 = Ok (full, total_full) →
  total_full = Z.of_nat (length full)
  ∧ (∀ limit offset, 0 ≤ limit → 0 ≤ offset →
       ∃ page total,
         run limit offset = Ok (page, total)
         ∧ total ≤ total_full
         ∧ (N ≤ limit + offset + 50 →
              total = total_full
              ∧ page = py.slice full (Some offset) (Some (offset + limit))))
  ∧ (∀ limit m, 1 ≤ limit → N ≤ limit + 50 →
       let pages :=
         flat_map (fun j => search.page_of (run limit (Z.of_nat j * limit)))
           (seq 0 m) in
       pages = firstn (m * Z.to_nat limit) full
       ∧ (Z.of_nat (length full) ≤ Z.of_nat m * limit → pages = full)).
Proof.
  intros law N run Hfull.
  assert (0 ≤ N) as HN.
  { unfold N, search.index_size, vector_store.size.
    destruct (vector_store.vs_index _); [unfold vector_store.ntotal|]; lia. }
  (* what the calls compute *)
  unfold run in Hfull. rewrite search_code_candidates in Hfull.
  assert (∀ limit offset,
            run limit offset
            = match lifecycle.check_api_readiness db repo_id "search" with
              | Raise e => Raise e
              | Ok _ =>
                  let '(loaded, vs) :=
                    vector_store.load (vector_store.init repo_id) disk in
                  if negb loaded then Ok ([], 0)
                  else
                    match search.build_results vs (database.code_chunks db)
                            file_filter
                            (vector_store.search vs (generate_embedding query)
                               (limit + offset + 50)
                               (search.threshold_of min_score))
                    with
                    | Raise e => Raise e
                    | Ok results =>
                        Ok (py.slice results (Some offset) (Some (offset + limit)),
                            Z.of_nat (length results))
                    end
              end) as Hrun.
  { intros limit offset. apply search_code_candidates. }
  unfold N, search.index_size in *. clear N.
  destruct (lifecycle.check_api_readiness db repo_id "search") as [repo|e];
    [|done].
  destruct (vector_store.load (vector_store.init repo_id) disk) as [loaded vs].
  simpl in HN, Hfull, Hrun |- *.
  set (q := generate_embedding query) in *.
  set (t := search.threshold_of min_score) in *.
  (* the facts about one call *)
  assert (total_full = Z.of_nat (length full)
          ∧ ∀ limit offset, 0 ≤ limit → 0 ≤ offset →
              ∃ page total,
                run limit offset = Ok (page, total)
                ∧ total ≤ total_full
                ∧ (vector_store.size vs ≤ limit + offset + 50 →
                     total = total_full
                     ∧ page = py.slice full (Some offset) (Some (offset + limit))))
    as [Htotal Hcalls].
  { destruct loaded; simpl in Hfull, Hrun.
    2:{ injection Hfull as <- <-. split; [done|].
        intros limit offset Hl Ho. exists [], 0. rewrite Hrun.
        rewrite slice_nil. split_and!; try done; lia. }
    set (cands := vector_store.search vs q (vector_store.size vs + 0 + 50) t) in *.
    destruct (search_ranked vs q (vector_store.size vs + 0 + 50) t law ltac:(lia))
      as (Hcands & _). fold cands in Hcands.
    destruct (search.build_results vs (database.code_chunks db) file_filter cands)
      as [F|e] eqn:HF; [|done].
    assert (Z.of_nat (length F) ≤ vector_store.size vs) as HFlen.
    { apply build_results_length in HF. lia. }
    injection Hfull as Hpage Htot.
    rewrite slice_nonneg in Hpage by lia.
    rewrite firstn_all2 in Hpage by (rewrite length_skipn; lia).
    change (Z.to_nat 0) with 0%nat in Hpage. rewrite drop_0 in Hpage. subst F.
    split; [done|].
    intros limit offset Hl Ho. rewrite Hrun.
    destruct (build_results_submseteq vs (database.code_chunks db) file_filter
                (vector_store.search vs q (limit + offset + 50) t) cands)
      with (F2 := full) as (F1 & HF1 & Hlen1); [|done|].
    { apply search_submseteq; [done|lia|lia]. }
    rewrite HF1. eexists _, _. split; [reflexivity|].
    split; [lia|].
    intros Hwindow.
    rewrite (search_covering vs q _ (vector_store.size vs + 0 + 50)) in HF1
      by lia.
    fold cands in HF1. rewrite HF in HF1. injection HF1 as <-.
    split; [lia|done]. }
  split; [done|]. split; [done|].
  (* the pages *)
  intros limit m Hl Hwindow.
  match goal with |- ?p = _ ∧ _ => set (pages := p) end.
  assert (pages = firstn (m * Z.to_nat limit) full) as Hpages;
    [|split; [done|]; intros Hall; rewrite Hpages; apply firstn_all2; nia].
  unfold pages. clear pages.
  induction m as [|m IH]; [done|].
  rewrite seq_S, flat_map_app, IH. simpl. rewrite app_nil_r.
  destruct (Hcalls limit (Z.of_nat m * limit)) as (page & total & -> & _ & Hpage);
    [lia|lia|].
  destruct Hpage as [_ ->]; [nia|]. simpl.
  rewrite slice_nonneg by nia.
  replace (Z.to_nat (Z.of_nat m * limit)) with (m * Z.to_nat limit)%nat by nia.
  rewrite take_take_drop. f_equal. lia.
Qed.

End search_properties.

Lemma search_code_windowed_total_witness :
  let run limit offset :=
    search.search_code (H := samples.caps) (samples.indexed_db 3)
      (samples.indexed_disk 3) "r-1" "where is main" limit offset None None in
  ∃ page total,
    run 2 1 = errors.Ok (page, total)
    ∧ total = 3
    ∧ page = py.slice (search.page_of (run 3 0)) (Some 1) (Some (1 + 2)).
Proof.
  intros run.
  pose proof (search_code_windowed_total (H := samples.caps) (samples.indexed_db 3)
                (samples.indexed_disk 3) "r-1" "where is main" None None
                (search.page_of (run 3 0)) 3 reference_exact_top_k) as Hthm.
  cbv zeta in Hthm. fold run in Hthm.
  destruct Hthm as (_ & Hcalls & _); [vm_compute; reflexivity|].
  destruct (Hcalls 2 1) as (page & total & Hrun & _ & Hwindow); [lia|lia|].
  exists page, total. split; [exact Hrun|].
  apply Hwindow. vm_compute. discriminate.
Defined.

(** C3 (as stated, refuted).  With 61 indexed chunks that all match the
    query, and no file filter, the total returned at offset 0 is 60 for
    limit 10 and 61 for limit 11.  And with 61 indexed chunks of which
    the 60 best are in a file the filter excludes and the last one is in
    a file it admits, the filtered result set has one result, while
    every page of limit 10 is empty: at offset 0 the window of 60
    candidates holds only excluded chunks, and at the later offsets the
    one result lies before the page. *)
Lemma search_total_and_pages_depend_on_window :
  (let run limit offset :=
     search.search_code (H := samples.caps) (samples.indexed_db 61)
       (samples.indexed_disk 61) "r-1" "where is main" limit offset None None in
   match run 10 0, run 11 0 with
   | errors.Ok (_, total_10), errors.Ok (_, total_11) =>
       total_10 = 60 ∧ total_11 = 61
   | _, _ => False
   end)
  ∧ (let run limit offset :=
       search.search_code (H := samples.caps) search_samples.filtered_db
         search_samples.filtered_disk "r-1" "where is main" limit offset None
         (Some "*.py"%string) in
     search.index_size (H := samples.caps) search_samples.filtered_disk "r-1" = 61
     ∧ (∃ r, run 61 0 = errors.Ok ([r], 1))
     ∧ run 10 0 = errors.Ok ([], 0)
     ∧ flat_map (fun j => search.page_of (run 10 (Z.of_nat j * 10))) (seq 0 7)
       = []).
Proof.
  split.
  - vm_compute. split; reflexivity.
  - split_and!.
    + vm_compute. reflexivity.
    + eexists. vm_compute. reflexivity.
    + vm_compute. reflexivity.
    + vm_compute. reflexivity.
Qed.
(** ** Tutor: the zero-result gate *)

Section tutor_properties.
Import errors config.
Context `{Capabilities}.

(** The shared part of the gate: with a live session of the repository
    and a search that returns no result, [ask_question] returns the fixed
    response and the world it was given. *)
Lemma ask_question_gate (w : tutor.World) (repo_id session_id question : string)
    (session : tutor_session.TutorSession) (total : Z) :
  tutor.get_session w session_id = Ok session →
  tutor_session.repo_id session = repo_id →
  search.search_code (tutor.db w) (tutor.disk w) repo_id question 5 0
    (Some (similarity_threshold settings)) None = Ok ([], total) →
  tutor.ask_question w repo_id session_id question
  = (Ok {| schemas.session_id := session_id;
           schemas.question := question;
           schemas.answer := tutor.NOT_FOUND_ANSWER;
           schemas.references := [];
           schemas.confidence := 0.0%Q;
           schemas.answered := false |},
     w).
Proof.
  intros Hsession Hrepo Hsearch. unfold tutor.ask_question.
  rewrite Hsession, Hrepo, String.eqb_refl, Hsearch. simpl. done.
Qed.

(** C2.  For every question asked in a live session of the repository
    whose restricted search (top 5, configured threshold) returns zero
    results, [ask_question] returns a response with [answered = False],
    [confidence = 0.0], no references and the fixed answer text, and the
    record of completion calls is what it was before the call. *)
Theorem zero_results_answer_without_completion (w : tutor.World)
    (repo_id session_id question : string)
    (session : tutor_session.TutorSession) (total : Z) :
  tutor.get_session w session_id = Ok session →
  tutor_session.repo_id session = repo_id →
  search.search_code (tutor.db w) (tutor.disk w) repo_id question 5 0
    (Some (similarity_threshold settings)) None = Ok ([], total) →
  ∃ response w',
    tutor.ask_question w repo_id session_id question = (Ok response, w')
    ∧ schemas.answered response = false
    ∧ schemas.confidence response = 0.0%Q
    ∧ schemas.references response = []
    ∧ schemas.answer response
      = "This could not be found in the repository."%string
    ∧ tutor.completion_calls w' = tutor.completion_calls w.
Proof.
  intros Hsession Hrepo Hsearch.
  eexists _, _. split.
  - by apply (ask_question_gate w repo_id session_id question session total).
  - done.
Qed.

(** C10.  On the same zero-result path no row is added to
    [tutor_messages], the stored sessions (and with them the rolling
    summary of this session) are unchanged, and indeed the whole world
    after the call is the world before it. *)
Theorem zero_results_leave_history_untouched (w : tutor.World)
    (repo_id session_id question : string)
    (session : tutor_session.TutorSession) (total : Z) :
  tutor.get_session w session_id = Ok session →
  tutor_session.repo_id session = repo_id →
  search.search_code (tutor.db w) (tutor.disk w) repo_id question 5 0
    (Some (similarity_threshold settings)) None = Ok ([], total) →
  let w' := snd (tutor.ask_question w repo_id session_id question) in
  database.tutor_messages (tutor.db w') = database.tutor_messages (tutor.db w)
  ∧ database.tutor_sessions (tutor.db w') !! session_id
    = database.tutor_sessions (tutor.db w) !! session_id
  ∧ (tutor_session.rolling_conversation_summary
       <$> database.tutor_sessions (tutor.db w') !! session_id)
    = Some (tutor_session.rolling_conversation_summary session)
  ∧ w' = w.
Proof.
  intros Hsession Hrepo Hsearch w'. unfold w'.
  rewrite (ask_question_gate w repo_id session_id question session total)
    by done.
  simpl. split_and!; try done.
  unfold tutor.get_session in Hsession.
  destruct (database.tutor_sessions (tutor.db w) !! session_id) as [s|]; [|done].
  destruct (_ <? _); [done|]. by injection Hsession as ->.
Qed.

(** For contrast: when the search does return results, the completion
    capability is called exactly once. *)
Lemma results_call_completion (w : tutor.World)
    (repo_id session_id question : string)
    (session : tutor_session.TutorSession)
    (results : list schemas.SearchResult) (total : Z) :
  tutor.get_session w session_id = Ok session →
  tutor_session.repo_id session = repo_id →
  search.search_code (tutor.db w) (tutor.disk w) repo_id question 5 0
    (Some (similarity_threshold settings)) None = Ok (results, total) →
  results ≠ [] →
  ∃ messages,
    tutor.completion_calls (snd (tutor.ask_question w repo_id session_id question))
    = tutor.completion_calls w ++ [messages].
Proof.
  intros Hsession Hrepo Hsearch Hne. unfold tutor.ask_question.
  rewrite Hsession, Hrepo, String.eqb_refl, Hsearch. simpl.
  rewrite bool_decide_eq_false_2 by done.
  eexists. destruct (tutor.parse_response _ _) as [p|e]; [|reflexivity].
  destruct (tutor.p_answer p); reflexivity.
Qed.

End tutor_properties.

Lemma zero_results_answer_without_completion_witness :
  ∃ response w',
    tutor.ask_question samples.unrelated_world "r-1" "s-1" "where is the parser?"
    = (errors.Ok response, w')
    ∧ schemas.answered response = false
    ∧ schemas.confidence response = 0.0%Q
    ∧ schemas.references response = []
    ∧ schemas.answer response
      = "This could not be found in the repository."%string
    ∧ tutor.completion_calls w' = [].
Proof.
  apply (zero_results_answer_without_completion (H := samples.caps)
           samples.unrelated_world "r-1" "s-1" "where is the parser?"
           samples.session 0).
  - vm_compute. reflexivity.
  - reflexivity.
  - vm_compute. reflexivity.
Defined.

Lemma zero_results_leave_history_untouched_witness :
  snd (tutor.ask_question samples.unrelated_world "r-1" "s-1" "where is the parser?")
  = samples.unrelated_world.
Proof.
  apply (zero_results_leave_history_untouched (H := samples.caps)
           samples.unrelated_world "r-1" "s-1" "where is the parser?"
           samples.session 0).
  - vm_compute. reflexivity.
  - reflexivity.
  - vm_compute. reflexivity.
Defined.

(** The same question against an index that does match goes through the
    completion capability and stores both turns. *)
Example related_question_is_answered :
  let '(r, w') :=
    tutor.ask_question samples.related_world "r-1" "s-1" "where is the parser?" in
  (∃ response, r = errors.Ok response ∧ schemas.answered response = true
               ∧ length (schemas.references response) = 2%nat)
  ∧ length (tutor.completion_calls w') = 1%nat
  ∧ map tutor_session.role (database.tutor_messages (tutor.db w'))
    = ["user"; "assistant"]%string.
Proof. vm_compute. split; [eexists; split; [reflexivity|split; reflexivity]|]. split; reflexivity. Qed.
(** * Further properties *)

(** ** Lifecycle: stages, readiness and failure *)

Section lifecycle_stages.
Import errors repository.

Lemma RepoStatus_of_inv (s : string) (cur : RepoStatus) :
  RepoStatus_of s = Ok cur → s = value cur.
Proof.
  unfold RepoStatus_of.
  destruct (List.find _ _) as [st|] eqn:Hfind; [|done].
  intros [= <-]. apply find_some in Hfind as [_ Heq].
  by apply String.eqb_eq in Heq.
Qed.

Lemma transition_status_Ok_inv (db : database.Db) (repo repo' : Repository)
    (target : RepoStatus) (msg : option string)
    (st : database.Db * Repository) :
  lifecycle.transition_status db repo target msg = (Ok repo', st) →
  ∃ cur, RepoStatus_of (status repo) = Ok cur
         ∧ target ∈ VALID_TRANSITIONS cur
         ∧ status repo' = value target
         ∧ st = (database.put_repository db repo', repo').
Proof.
  unfold lifecycle.transition_status, can_transition_to.
  destruct (RepoStatus_of (status repo)) as [cur|e]; [|done].
  case_bool_decide as Hin; [|done].
  intros [= <- <-]. exists cur. split_and!; try done.
  by destruct (_ && _).
Qed.

(** X1.  A transition that succeeds either enters FAILED from a state
    that is not FAILED, or re-enters CREATED from FAILED, or moves to the
    state whose order is exactly one more: no stage of the pipeline is
    skipped and none is revisited. *)
Theorem transition_advances_one_stage (db : database.Db)
    (repo repo' : Repository) (target : RepoStatus) (msg : option string)
    (st : database.Db * Repository) :
  lifecycle.transition_status db repo target msg = (Ok repo', st) →
  ∃ cur,
    status repo = value cur ∧ status repo' = value target
    ∧ ((target = FAILED ∧ cur ≠ FAILED)
       ∨ (cur = FAILED ∧ target = CREATED)
       ∨ (cur ≠ FAILED ∧ target ≠ FAILED
          ∧ state_order target = state_order cur + 1)).
Proof.
  intros Hrun.
  apply transition_status_Ok_inv in Hrun as (cur & Hcur & Hin & Hstatus & _).
  exists cur. split; [by apply RepoStatus_of_inv|]. split; [done|].
  destruct cur, target; apply (bool_decide_pack _) in Hin; vm_compute in Hin;
    try done;
    first [ left; by split
          | right; left; by split
          | right; right; by split_and! ].
Qed.

(** X2.  Readiness is lost only by failing.  A FAILED repository has
    reached no state at all, and a repository that has reached a state
    still has reached it after every successful transition whose target
    is not FAILED. *)
Theorem readiness_survives_progress (db : database.Db)
    (repo repo' : Repository) (target required : RepoStatus)
    (msg : option string) (st : database.Db * Repository) :
  (status repo = value FAILED →
     ∀ r, has_reached_state repo r = Ok false)
  ∧ (has_reached_state repo required = Ok true →
     lifecycle.transition_status db repo target msg = (Ok repo', st) →
     target ≠ FAILED →
     has_reached_state repo' required = Ok true).
Proof.
  split.
  - intros Hfailed r. unfold has_reached_state. by rewrite Hfailed.
  - intros Hreached Hrun Htarget.
    apply transition_status_Ok_inv in Hrun as (cur & Hcur & Hin & Hstatus & _).
    unfold has_reached_state in *. rewrite Hcur in Hreached.
    rewrite Hstatus, RepoStatus_of_value.
    rewrite bool_decide_eq_false_2 by done.
    destruct cur, target, required;
      apply (bool_decide_pack _) in Hin; vm_compute in Hin; try done.
Qed.

Lemma readiness_survives_progress_witness :
  has_reached_state (samples.repo "FAILED" None) CREATED = Ok false
  ∧ has_reached_state
      (snd (snd (lifecycle.transition_status database.empty
                   (samples.repo "STRUCTURED" None) INDEXED None)))
      CLONED = Ok true.
Proof.
  destruct (readiness_survives_progress database.empty
              (samples.repo "FAILED" None) (samples.repo "FAILED" None)
              CREATED CREATED None (database.empty, samples.repo "FAILED" None))
    as [Hfailed _].
  split; [by apply Hfailed|].
  destruct (readiness_survives_progress database.empty
              (samples.repo "STRUCTURED" None)
              (snd (snd (lifecycle.transition_status database.empty
                           (samples.repo "STRUCTURED" None) INDEXED None)))
              INDEXED CLONED None
              (snd (lifecycle.transition_status database.empty
                      (samples.repo "STRUCTURED" None) INDEXED None)))
    as [_ Hkeeps].
  apply Hkeeps; [reflexivity|reflexivity|discriminate].
Defined.

Lemma transition_advances_one_stage_witness :
  ∃ cur,
    status (samples.repo "CLONED" None) = value cur
    ∧ state_order STRUCTURED = state_order cur + 1.
Proof.
  destruct (transition_advances_one_stage database.empty
              (samples.repo "CLONED" None)
              (snd (snd (lifecycle.transition_status database.empty
                           (samples.repo "CLONED" None) STRUCTURED None)))
              STRUCTURED None
              (snd (lifecycle.transition_status database.empty
                      (samples.repo "CLONED" None) STRUCTURED None))
              eq_refl)
    as (cur & Hcur & _ & [[? _]|[[_ ?]|(_ & _ & Horder)]]); [done|done|].
  by exists cur.
Defined.

Lemma check_api_readiness_cases (db : database.Db)
    (repo_id operation : string) (required : RepoStatus) :
  API_STATE_REQUIREMENTS operation = Some required →
  match database.repositories db !! repo_id with
  | None =>
      lifecycle.check_api_readiness db repo_id operation
      = Raise (RepoNotFoundError repo_id)
  | Some repo =>
      ∀ cur, status repo = value cur →
        lifecycle.check_api_readiness db repo_id operation
        = if bool_decide (cur ≠ FAILED)
             && (state_order required <=? state_order cur)
          then Ok repo
          else Raise (RepoNotReadyError repo_id (status repo) (value required))
  end.
Proof.
  intros Hop. unfold lifecycle.check_api_readiness, lifecycle.get_repository.
  destruct (database.repositories db !! repo_id) as [repo|]; [|done].
  intros cur Hcur.
  unfold check_api_readiness, has_reached_state.
  rewrite Hop, Hcur, RepoStatus_of_value.
  destruct cur; simpl; try done;
    destruct (state_order required <=? _); done.
Qed.

(** X3.  For an operation that has a required state, the service-level
    readiness check returns the stored repository exactly when its
    status is a state other than FAILED whose order is at least the
    required one; for a missing repository it raises RepoNotFoundError,
    and for a stored one that is FAILED or below the floor it raises
    RepoNotReadyError carrying the current status and the required
    state. *)
Theorem check_api_readiness_outcomes (db : database.Db)
    (repo_id operation : string) (required : RepoStatus) :
  API_STATE_REQUIREMENTS operation = Some required →
  match database.repositories db !! repo_id with
  | None =>
      lifecycle.check_api_readiness db repo_id operation
      = Raise (RepoNotFoundError repo_id)
  | Some repo =>
      ∀ cur, status repo = value cur →
        lifecycle.check_api_readiness db repo_id operation
        = if bool_decide (cur ≠ FAILED)
             && (state_order required <=? state_order cur)
          then Ok repo
          else Raise (RepoNotReadyError repo_id (status repo) (value required))
  end.
Proof. exact (check_api_readiness_cases db repo_id operation required). Qed.

Lemma check_api_readiness_outcomes_witness :
  lifecycle.check_api_readiness
    (database.put_repository database.empty (samples.repo "STRUCTURED" None))
    "r-1" "search"
  = Raise (RepoNotReadyError "r-1" "STRUCTURED" "INDEXED").
Proof.
  pose proof (check_api_readiness_outcomes
                (database.put_repository database.empty
                   (samples.repo "STRUCTURED" None))
                "r-1" "search" INDEXED eq_refl) as Hout.
  change (database.repositories _ !! "r-1"%string)
    with (Some (samples.repo "STRUCTURED" None)) in Hout.
  exact (Hout STRUCTURED eq_refl).
Defined.

(** X4.  [mark_failed] on a repository in any state other than FAILED
    makes it FAILED and records the message when it is not empty (an
    empty message leaves the previous one); on a repository that is
    already FAILED it raises ValueError and changes nothing, so the
    first error message is kept. *)
Theorem mark_failed_once (db : database.Db) (repo : Repository)
    (cur : RepoStatus) (message : string) :
  status repo = value cur →
  if bool_decide (cur = FAILED) then
    lifecycle.mark_failed db repo message
    = (Raise (ValueError (InvalidTransition "FAILED" "FAILED")), (db, repo))
  else
    ∃ repo',
      lifecycle.mark_failed db repo message
      = (Ok repo', (database.put_repository db repo', repo'))
      ∧ status repo' = "FAILED"%string
      ∧ error_message repo'
        = (if (message =? EmptyString)%string then error_message repo
           else Some message).
Proof.
  intros Hcur. unfold lifecycle.mark_failed, lifecycle.transition_status,
    can_transition_to.
  rewrite Hcur, RepoStatus_of_value.
  destruct cur; simpl; try reflexivity;
    destruct (message =? EmptyString)%string; simpl;
    (eexists; split; [reflexivity|split; reflexivity]).
Qed.

Lemma mark_failed_once_witness :
  lifecycle.mark_failed database.empty
    (samples.repo "FAILED" (Some "clone failed"%string)) "again"
  = (Raise (ValueError (InvalidTransition "FAILED" "FAILED")),
     (database.empty, samples.repo "FAILED" (Some "clone failed"%string))).
Proof.
  exact (mark_failed_once database.empty
           (samples.repo "FAILED" (Some "clone failed"%string)) FAILED "again"
           eq_refl).
Defined.

End lifecycle_stages.

(** ** Vector index: slots, results and artifacts *)

Section vector_store_slots.
Import config vector_store.
Context `{Capabilities}.

Lemma get_chunk_id_in_range (self : VectorStore) (slot : Z) :
  0 ≤ slot < Z.of_nat (length (id_map self)) →
  get_chunk_id self slot = id_map self !! Z.to_nat slot.
Proof.
  intros Hslot. unfold get_chunk_id.
  destruct (Z.leb_spec 0 slot); [|lia].
  destruct (Z.ltb_spec slot (Z.of_nat (length (id_map self)))); [|lia].
  reflexivity.
Qed.

(** X5.  [add_embeddings] of at least one vector is append-only: on a
    store that has an index, every slot that had an id keeps it, the new
    ids take the slots that follow in order, and when as many ids as
    vectors are added to a store whose id map is as long as its index,
    it stays that way. *)
Theorem add_embeddings_appends (self : VectorStore) (idx : IndexFlatIP)
    (embeddings : list Vec) (chunk_ids : list string) :
  vs_index self = Some idx → embeddings ≠ [] →
  let self' := add_embeddings self embeddings chunk_ids in
  size self' = size self + Z.of_nat (length embeddings)
  ∧ (∀ slot, 0 ≤ slot < Z.of_nat (length (id_map self)) →
       get_chunk_id self' slot = get_chunk_id self slot)
  ∧ (∀ j cid, chunk_ids !! j = Some cid →
       get_chunk_id self' (Z.of_nat (length (id_map self) + j)) = Some cid)
  ∧ (size self = Z.of_nat (length (id_map self)) →
     length embeddings = length chunk_ids →
     size self' = Z.of_nat (length (id_map self'))).
Proof.
  intros Hidx _ self'.
  assert (Hmap : id_map self' = id_map self ++ chunk_ids).
  { unfold self', add_embeddings. by rewrite Hidx. }
  assert (Hsize : size self' = size self + Z.of_nat (length embeddings)).
  { unfold self', add_embeddings, size. rewrite Hidx. simpl. rewrite Hidx.
    unfold ntotal. simpl. rewrite length_app, length_map. lia. }
  split_and!.
  - exact Hsize.
  - intros slot Hslot.
    rewrite !get_chunk_id_in_range; rewrite ?Hmap, ?length_app; try lia.
    apply lookup_app_l. lia.
  - intros j cid Hj. apply lookup_lt_Some in Hj as Hlt.
    rewrite get_chunk_id_in_range; rewrite ?Hmap, ?length_app; try lia.
    rewrite Nat2Z.id, lookup_app_r by lia.
    by replace (length (id_map self) + j - length (id_map self))%nat
      with j by lia.
  - intros Hal Hlen. rewrite Hsize, Hmap, length_app. lia.
Qed.

(** X6.  Let the index answer as an exhaustive index does.  Whatever the
    store, the query and the threshold, a search for at least one result
    returns at most [top_k] results and at most one per stored vector;
    every result passed the comparison of its score with the threshold,
    names a slot of the index and carries the inner product of the
    normalised query with the vector stored in that slot; no slot is
    named twice, and the results are in descending order of score. *)
Theorem search_results_ranked (self : VectorStore) (query : Vec) (top_k : Z)
    (threshold : Q) :
  exact_top_k →
  0 < top_k →
  let results := search self query top_k threshold in
  Z.of_nat (length results) ≤ Z.min top_k (size self)
  ∧ Forall (fun r =>
      score_ge (score r) threshold = true
      ∧ 0 ≤ index r < size self
      ∧ ∃ idx v,
          vs_index self = Some idx
          ∧ xb idx !! Z.to_nat (index r) = Some v
          ∧ score r = inner_product (normalize_L2 query) v)
      results
  ∧ NoDup (map index results)
  ∧ StronglySorted (fun r1 r2 => (score r2 <= score r1)%Q) results.
Proof. exact (search_ranked self query top_k threshold). Qed.

(** X7.  After [delete], whatever was on disk, [load] on a fresh instance
    for the repository fails and leaves the instance without index or
    ids, every search on it is empty, and a second [delete] reports that
    nothing was found and changes nothing. *)
Theorem delete_forgets_index (self : VectorStore) (disk : gmap string artifact) :
  let disk' := snd (delete self disk) in
  load (init (repo_id self)) disk' = (false, init (repo_id self))
  ∧ (∀ query top_k threshold,
       search (snd (load (init (repo_id self)) disk')) query top_k threshold
       = [])
  ∧ delete self disk' = (false, disk').
Proof.
  intros disk'.
  assert (Hi : disk' !! _index_path self = None).
  { unfold disk', delete. simpl.
    rewrite lookup_delete_ne by (apply not_eq_sym, artifact_paths_differ).
    apply lookup_delete_eq. }
  assert (Hm : disk' !! _map_path self = None).
  { unfold disk', delete. simpl. apply lookup_delete_eq. }
  assert (Hload : load (init (repo_id self)) disk' = (false, init (repo_id self))).
  { unfold load.
    change (_index_path (init (repo_id self))) with (_index_path self).
    by rewrite Hi. }
  split_and!.
  - exact Hload.
  - intros query top_k threshold. by rewrite Hload.
  - unfold delete. rewrite Hi, Hm. simpl. f_equal.
    rewrite (delete_id disk' (_index_path self)) by exact Hi. by apply delete_id.
Qed.

End vector_store_slots.

Lemma add_embeddings_appends_witness :
  vector_store.size (H := samples.caps)
    (vector_store.add_embeddings (H := samples.caps) (samples.indexed_store 2)
       [(1, 0)%Q] ["chunk-new"%string])
  = vector_store.size (H := samples.caps) (samples.indexed_store 2) + 1.
Proof.
  refine (proj1 (add_embeddings_appends (H := samples.caps)
    (samples.indexed_store 2) _ [(1, 0)%Q] ["chunk-new"%string] _ _)).
  - reflexivity.
  - discriminate.
Defined.


Lemma search_results_ranked_witness :
  Z.of_nat (length (vector_store.search (H := samples.caps)
                      (samples.indexed_store 3) (3 # 5, 4 # 5)%Q 2 (1 # 2)%Q))
  ≤ Z.min 2 (vector_store.size (H := samples.caps) (samples.indexed_store 3)).
Proof.
  refine (proj1 (search_results_ranked (H := samples.caps)
    (samples.indexed_store 3) (3 # 5, 4 # 5)%Q 2 (1 # 2)%Q
    reference_exact_top_k _)).
  reflexivity.
Defined.

(** ** Chunking: token budget, chunk text and the repository walk *)

Section chunk_tokens.
Import chunking chunking_invariants chunk_text.

Lemma count_words_from_nonneg (in_word : bool) (s : string) :
  0 ≤ text.count_words_from in_word s.
Proof.
  revert in_word. induction s as [|c s IH]; intros in_word; simpl; [done|].
  destruct (text.is_space c); [apply IH|].
  specialize (IH true). destruct in_word; lia.
Qed.

Lemma count_tokens_nonneg (s : string) : 0 ≤ llm.count_tokens s.
Proof.
  unfold llm.count_tokens, text.count_words.
  pose proof (count_words_from_nonneg false s). apply Z.div_pos; lia.
Qed.

Lemma sum_tokens_app (a b : list string) :
  sum_tokens (a ++ b) = sum_tokens a + sum_tokens b.
Proof.
  unfold sum_tokens. induction a as [|x a IH]; simpl; [done|].
  rewrite IH. lia.
Qed.

Lemma overlap_loop_tokens (ov : Z) (rl acc : list string) (cnt : Z) :
  cnt = sum_tokens acc →
  snd (overlap_loop ov rl acc cnt) = sum_tokens (fst (overlap_loop ov rl acc cnt))
  ∧ (cnt ≤ ov → snd (overlap_loop ov rl acc cnt) ≤ ov).
Proof.
  revert acc cnt. induction rl as [|l rl IH]; intros acc cnt Hcnt; simpl.
  - done.
  - destruct (ov <? cnt + llm.count_tokens l) eqn:Hlt; simpl; [done|].
    destruct (IH (l :: acc) (cnt + llm.count_tokens l)) as [Hsum Hle].
    { subst cnt. unfold sum_tokens. simpl. lia. }
    split; [done|]. intros _. apply Hle. lia.
Qed.

(** The window of the loop is the text of the lines from its start to
    the last line consumed. *)
Lemma window_chunk_lines (ov : Z) (lines pre rest : list string) (b : Z)
    (yielded : list CodeChunk) (w : window) (c : CodeChunk) :
  lines = pre ++ rest →
  sliding_inv ov lines pre b (yielded, w) →
  b ≤ Z.of_nat (length pre) →
  start_line c = current_start_line w →
  end_line c = Z.of_nat (length pre) →
  chunk_lines lines c = current_chunk_lines w.
Proof.
  intros Hlines (Hstart & Hwin & _) Hb Hs He.
  unfold chunk_lines. rewrite Hs, He, Hwin.
  apply (window_is_chunk_lines lines pre rest); [done|lia].
Qed.

Lemma sliding_step_tokens (fp : string) (lang : option string) (maxt ov : Z)
    (lines pre rest : list string) (line : string)
    (st : list CodeChunk * window) :
  lines = pre ++ line :: rest →
  sliding_inv ov lines pre (Z.max 0 (Z.of_nat (length pre) - 1)) st →
  tokens_inv lines st →
  tokens_inv lines
    (sliding_step fp lang maxt ov (Z.of_nat (length pre) + 1) line st).
Proof.
  intros Hlines Hinv Htok. destruct st as [yielded w].
  destruct Htok as [Hcur Hall].
  unfold sliding_step. simpl.
  destruct (_ && _) eqn:Hcond.
  - unfold yield_and_restart.
    pose proof (overlap_loop_tokens ov (rev (current_chunk_lines w)) [] 0 eq_refl)
      as [Hsum _].
    unfold overlap_of.
    destruct (overlap_loop _ _ _ _) as [ol oc]. simpl in *.
    split.
    + rewrite sum_tokens_app, Hsum. unfold sum_tokens. simpl. lia.
    + apply Forall_app. split; [done|]. constructor; [|constructor]. simpl.
      rewrite Hcur. do 2 f_equal. symmetry.
      apply (window_chunk_lines ov lines pre (line :: rest)
               (Z.max 0 (Z.of_nat (length pre) - 1)) yielded w);
        [done|done|lia|done|simpl; lia].
  - simpl. split; [|done].
    rewrite sum_tokens_app, Hcur. unfold sum_tokens. simpl. lia.
Qed.

Lemma sliding_loop_tokens (fp : string) (lang : option string) (maxt ov : Z)
    (lines rest pre : list string) (st : list CodeChunk * window) :
  lines = pre ++ rest →
  sliding_inv ov lines pre (Z.max 0 (Z.of_nat (length pre) - 1)) st →
  tokens_inv lines st →
  tokens_inv lines
    (sliding_loop fp lang maxt ov (Z.of_nat (length pre) + 1) rest st).
Proof.
  revert pre st. induction rest as [|line rest IH]; intros pre st Hlines Hinv Htok.
  - done.
  - simpl.
    replace (Z.of_nat (length pre) + 1 + 1)
      with (Z.of_nat (length (pre ++ [line])) + 1)
      by (rewrite length_app; simpl; lia).
    apply IH.
    + by rewrite <- app_assoc.
    + by apply (sliding_step_inv fp lang maxt ov lines pre rest).
    + by apply (sliding_step_tokens fp lang maxt ov lines pre rest).
Qed.

Lemma sliding_step_budget (fp : string) (lang : option string) (maxt ov : Z)
    (i : Z) (line : string) (st : list CodeChunk * window) :
  0 ≤ ov → llm.count_tokens line ≤ maxt - ov →
  current_tokens (snd st) = sum_tokens (current_chunk_lines (snd st)) →
  budget_inv maxt st →
  budget_inv maxt (sliding_step fp lang maxt ov i line st).
Proof.
  intros Hov Hline Hcur Hinv. destruct st as [yielded w].
  destruct Hinv as [Hw Hall]. simpl in Hcur.
  unfold sliding_step. simpl.
  destruct (maxt <? current_tokens w + llm.count_tokens line) eqn:Hover; simpl.
  - destruct (bool_decide (current_chunk_lines w = [])) eqn:Hempty; simpl.
    + apply bool_decide_eq_true in Hempty. rewrite Hempty in Hcur.
      unfold sum_tokens in Hcur. simpl in Hcur. lia.
    + unfold yield_and_restart, overlap_of.
      pose proof (overlap_loop_tokens ov (rev (current_chunk_lines w)) [] 0
                    eq_refl) as [_ Hle].
      destruct (overlap_loop _ _ _ _) as [ol oc]. simpl in *.
      split; [lia|].
      apply Forall_app. split; [done|]. constructor; [|constructor].
      simpl. by eexists.
  - simpl. split; [lia|done].
Qed.

Lemma sliding_loop_budget (fp : string) (lang : option string) (maxt ov : Z)
    (lines rest pre : list string) (st : list CodeChunk * window) :
  0 ≤ ov →
  Forall (fun line => llm.count_tokens line ≤ maxt - ov) rest →
  lines = pre ++ rest →
  sliding_inv ov lines pre (Z.max 0 (Z.of_nat (length pre) - 1)) st →
  tokens_inv lines st →
  budget_inv maxt st →
  budget_inv maxt
    (sliding_loop fp lang maxt ov (Z.of_nat (length pre) + 1) rest st).
Proof.
  intros Hov Hall. revert pre st.
  induction Hall as [|line rest Hline Hrest IH]; intros pre st Hlines Hinv Htok Hb.
  - done.
  - simpl.
    replace (Z.of_nat (length pre) + 1 + 1)
      with (Z.of_nat (length (pre ++ [line])) + 1)
      by (rewrite length_app; simpl; lia).
    apply IH.
    + by rewrite <- app_assoc.
    + by apply (sliding_step_inv fp lang maxt ov lines pre rest).
    + by apply (sliding_step_tokens fp lang maxt ov lines pre rest).
    + apply sliding_step_budget; try done. destruct st. by destruct Htok.
Qed.

Lemma sliding_window_chunk_tokens (content file_path : string)
    (language : option string) (max_tokens overlap_tokens : Z) :
  let lines := text.split_newline content in
  let chunks :=
    sliding_window_chunk content file_path language max_tokens overlap_tokens in
  Forall (fun c => token_count c = Some (sum_tokens (chunk_lines lines c)))
    chunks
  ∧ (0 ≤ overlap_tokens →
     Forall (fun line => llm.count_tokens line ≤ max_tokens - overlap_tokens)
       lines →
     Forall (fun c => sum_tokens (chunk_lines lines c) ≤ max_tokens) chunks).
Proof.
  intros lines chunks.
  pose proof (split_newline_nonempty content) as Hne. fold lines in Hne.
  pose proof (sliding_inv_initial overlap_tokens lines) as Hinit.
  assert (Htinit : tokens_inv lines
            ([], {| current_chunk_lines := []; current_start_line := 1;
                    current_tokens := 0 |})) by (by split).
  pose proof (sliding_loop_inv file_path language max_tokens overlap_tokens
                lines lines [] _ eq_refl Hinit) as Hloop.
  pose proof (sliding_loop_tokens file_path language max_tokens overlap_tokens
                lines lines [] _ eq_refl Hinit Htinit) as Htok.
  assert (Hbud : 0 ≤ overlap_tokens →
     Forall (fun line => llm.count_tokens line ≤ max_tokens - overlap_tokens)
       lines → 0 ≤ max_tokens →
     budget_inv max_tokens
       (sliding_loop file_path language max_tokens overlap_tokens
          (Z.of_nat (length (@nil string)) + 1) lines
          ([], {| current_chunk_lines := []; current_start_line := 1;
                  current_tokens := 0 |}))).
  { intros Hov Hall Hmax.
    apply (sliding_loop_budget file_path language max_tokens overlap_tokens
             lines lines []); try done. }
  change (Z.of_nat (length (@nil string)) + 1) with 1 in *.
  assert (Hchunks : chunks =
    let '(yielded, w) :=
      sliding_loop file_path language max_tokens overlap_tokens 1 lines
        ([], {| current_chunk_lines := []; current_start_line := 1;
                current_tokens := 0 |}) in
    if negb (bool_decide (current_chunk_lines w = [])) then
      yielded ++
        [ {| chunking.file_path := file_path;
             start_line := current_start_line w;
             end_line := Z.of_nat (length lines);
             content := text.join_newline (current_chunk_lines w);
             chunking.language := language;
             symbol_type := None; symbol_name := None;
             token_count := Some (current_tokens w) |} ]
    else yielded).
  { unfold chunks, sliding_window_chunk. fold lines.
    by rewrite bool_decide_eq_false_2. }
  destruct (sliding_loop _ _ _ _ _ _ _) as [yielded w] eqn:Hrun.
  destruct Htok as [Hcur Hall].
  assert (Hfinal : Forall
    (fun c => token_count c = Some (sum_tokens (chunk_lines lines c))) chunks).
  { rewrite Hchunks.
    destruct (negb _); [|done].
    apply Forall_app. split; [done|]. constructor; [|constructor]. simpl.
    rewrite Hcur. do 2 f_equal. symmetry.
    apply (window_chunk_lines overlap_tokens lines lines []
             (Z.max 0 (Z.of_nat (length lines) - 1)) yielded w);
      [by rewrite app_nil_r|done|lia|done|done]. }
  split; [done|].
  intros Hov Hlines.
  assert (Hmax : 0 ≤ max_tokens).
  { destruct lines as [|l0 ?]; [done|].
    apply Forall_cons in Hlines as [Hl0 _].
    pose proof (count_tokens_nonneg l0). lia. }
  specialize (Hbud Hov Hlines Hmax). destruct Hbud as [Hw Hyield].
  assert (Hbound : Forall (fun c => ∃ t, token_count c = Some t ∧ t ≤ max_tokens)
                     chunks).
  { rewrite Hchunks. destruct (negb _); [|done].
    apply Forall_app. split; [done|]. constructor; [|constructor].
    simpl. by eexists. }
  rewrite Forall_forall in Hfinal, Hbound. apply Forall_forall.
  intros c Hc. destruct (Hbound c Hc) as (t & Ht & Hle).
  rewrite (Hfinal c Hc) in Ht. by injection Ht as ->.
Qed.

(** X8.  The token count of every sliding-window chunk is the sum of the
    token counts of its lines; and when the overlap budget is not
    negative and no line of the file has more than [max_tokens -
    overlap_tokens] tokens, no chunk has more than [max_tokens]. *)
Theorem sliding_window_token_budget (content file_path : string)
    (language : option string) (max_tokens overlap_tokens : Z) :
  let lines := text.split_newline content in
  let chunks :=
    sliding_window_chunk content file_path language max_tokens overlap_tokens in
  Forall (fun c => token_count c = Some (sum_tokens (chunk_lines lines c)))
    chunks
  ∧ (0 ≤ overlap_tokens →
     Forall (fun line => llm.count_tokens line ≤ max_tokens - overlap_tokens)
       lines →
     Forall (fun c => sum_tokens (chunk_lines lines c) ≤ max_tokens) chunks).
Proof. exact (sliding_window_chunk_tokens content file_path language
                max_tokens overlap_tokens). Qed.

End chunk_tokens.

Lemma sliding_window_token_budget_witness :
  Forall (fun c => chunk_text.sum_tokens
                     (chunking.chunk_lines
                        (text.split_newline samples.python_text) c) ≤ 5)
    (chunking.sliding_window_chunk samples.python_text "a.txt" None 5 1).
Proof.
  refine (proj2 (sliding_window_token_budget samples.python_text "a.txt" None
                   5 1) _ _).
  - lia.
  - vm_compute. repeat constructor; discriminate.
Defined.
Section symbol_text.
Import chunking chunking_invariants chunk_text.

Lemma sorted_snoc {A : Type} (R : A → A → Prop) (l : list A) (x : A) :
  StronglySorted R l → Forall (fun a => R a x) l → StronglySorted R (l ++ [x]).
Proof.
  induction 1 as [|y l Hs IH Hall]; intros Hx; simpl.
  - constructor; constructor.
  - apply Forall_cons in Hx as [Hy Hl]. constructor; [by apply IH|].
    apply Forall_app. split; [done|]. by constructor.
Qed.

Lemma sorted_lookup {A : Type} (R : A → A → Prop) (l : list A) (i j : nat)
    (x y : A) :
  StronglySorted R l → l !! i = Some x → l !! j = Some y → (i < j)%nat → R x y.
Proof.
  intros Hs. revert i j. induction Hs as [|z l Hs IH Hall]; intros i j Hi Hj Hlt.
  - done.
  - destruct j as [|j]; [lia|]. simpl in Hj. destruct i as [|i].
    + injection Hi as ->. rewrite Forall_forall in Hall.
      apply Hall. by eapply list_elem_of_lookup_2.
    + simpl in Hi. apply (IH i j); [done|done|lia].
Qed.

Lemma end_bound_weaken (l : list CodeChunk) (k : Z) :
  Forall (fun c => end_line c ≤ k) l → Forall (fun c => end_line c ≤ k + 1) l.
Proof. intros Hl. eapply Forall_impl; [exact Hl|]. intros c Hc. simpl in *. lia. Qed.

(** Closing the open symbol after the lines [pre] adds a chunk of the
    right text behind the chunks yielded so far. *)
Lemma close_symbol_text (fp : string) (lines pre rest : list string)
    (yielded : list CodeChunk) (sc : scan) (sym : symbol) :
  lines = pre ++ rest →
  symbol_text_inv fp lines pre (yielded, sc) →
  current_symbol sc = Some sym →
  let yielded' :=
    yielded ++ [symbol_chunk fp sym (current_lines sc) (Z.of_nat (length pre))] in
  Forall (symbol_chunk_ok fp lines) yielded'
  ∧ Forall (fun c => end_line c ≤ Z.of_nat (length pre)) yielded'
  ∧ StronglySorted before yielded'.
Proof.
  intros Hlines (Hok & Hend & Hsorted & Hopen) Hsym yielded'.
  rewrite Hsym in Hopen. destruct Hopen as (Hstart & Hcur & Hbefore & Hsig).
  assert (Hlen : Z.of_nat (length pre) ≤ Z.of_nat (length lines))
    by (rewrite Hlines, length_app; lia).
  split_and!.
  - apply Forall_app. split; [done|]. constructor; [|constructor].
    unfold symbol_chunk_ok, chunk_within, declares, chunk_lines. simpl.
    split_and!; try done; try lia.
    + f_equal. rewrite Hcur. symmetry.
      apply (window_is_chunk_lines lines pre rest); [done|lia].
    + exists (sym_name sym). split; [done|].
      destruct Hsig as [[Hc Ht]|(Hc & Hf & Ht)]; [left|right];
        rewrite Ht; done.
  - apply Forall_app. split; [done|]. constructor; [|constructor]. simpl. lia.
  - apply sorted_snoc; [done|]. done.
Qed.

Lemma start_symbol_text (fp : string) (lines pre rest : list string)
    (line type name : string) (st : list CodeChunk * scan) :
  lines = pre ++ line :: rest →
  signature_of line {| sym_type := type; sym_name := name;
                       sym_start := Z.of_nat (length pre) + 1 |} →
  symbol_text_inv fp lines pre st →
  symbol_text_inv fp lines (pre ++ [line])
    (start_symbol fp (Z.of_nat (length pre) + 1) line type name st).
Proof.
  intros Hlines Hsig Hinv. destruct st as [yielded sc].
  pose proof (line_at_middle pre rest line) as Hline. rewrite <- Hlines in Hline.
  set (k := Z.of_nat (length pre)) in *.
  assert (Z.of_nat (length (pre ++ [line])) = k + 1) as Hk.
  { rewrite length_app. simpl. lia. }
  unfold start_symbol.
  match goal with
  | |- symbol_text_inv _ _ _ (?y, _) => set (yielded' := y)
  end.
  assert (Forall (symbol_chunk_ok fp lines) yielded'
          ∧ Forall (fun c => end_line c ≤ k) yielded'
          ∧ StronglySorted before yielded') as (Hok' & Hend' & Hsorted').
  { unfold yielded'. destruct (current_symbol sc) as [sym|] eqn:Hsym.
    - destruct (negb _).
      + replace (k + 1 - 1) with k by lia.
        by apply (close_symbol_text fp lines pre (line :: rest)).
      + by destruct Hinv as (? & ? & ? & _).
    - by destruct Hinv as (? & ? & ? & _). }
  unfold symbol_text_inv. rewrite Hk. simpl.
  split_and!; try done; try lia.
  - by apply end_bound_weaken.
  - replace (Z.to_nat (k + 1 - 1)) with (length pre) by lia.
    by rewrite drop_app_length.
  - eapply Forall_impl; [exact Hend'|]. intros c Hc. simpl in *. lia.
  - by rewrite Hline.
Qed.

Lemma continue_symbol_text (fp : string) (lines pre rest : list string)
    (line : string) (st : list CodeChunk * scan) :
  lines = pre ++ line :: rest →
  symbol_text_inv fp lines pre st →
  symbol_text_inv fp lines (pre ++ [line])
    (continue_symbol fp (Z.of_nat (length pre) + 1) line st).
Proof.
  intros Hlines Hinv. destruct st as [yielded sc].
  set (k := Z.of_nat (length pre)) in *.
  assert (Z.of_nat (length (pre ++ [line])) = k + 1) as Hk.
  { rewrite length_app. simpl. lia. }
  assert (Happend : ∀ sym, current_symbol sc = Some sym →
    symbol_text_inv fp lines (pre ++ [line])
      (yielded, {| current_symbol := current_symbol sc;
                   current_lines := current_lines sc ++ [line];
                   current_indent := current_indent sc |})).
  { intros sym Hsym. destruct Hinv as (Hok & Hend & Hsorted & Hopen).
    unfold symbol_text_inv. rewrite Hk. simpl. rewrite Hsym in *.
    destruct Hopen as (Hstart & Hcur & Hbefore & Hsig).
    split_and!; try done; try lia.
    - by apply end_bound_weaken.
    - rewrite Hcur, drop_app_le by (fold k; lia). done. }
  unfold continue_symbol.
  destruct (current_symbol sc) as [sym|] eqn:Hsym.
  - destruct (_ || _); [by apply (Happend sym)|].
    destruct (_ =? _); [by apply (Happend sym)|].
    replace (k + 1 - 1) with k by lia.
    destruct (close_symbol_text fp lines pre (line :: rest) yielded sc sym
                Hlines Hinv Hsym) as (Hok' & Hend' & Hsorted').
    unfold symbol_text_inv. rewrite Hk. simpl.
    split_and!; try done. by apply end_bound_weaken.
  - destruct Hinv as (Hok & Hend & Hsorted & Hopen).
    unfold symbol_text_inv. rewrite Hk, Hsym.
    split_and!; try done. by apply end_bound_weaken.
Qed.

Lemma symbol_step_text (fp : string) (lines pre rest : list string)
    (line : string) (st : list CodeChunk * scan) :
  lines = pre ++ line :: rest →
  symbol_text_inv fp lines pre st →
  symbol_text_inv fp lines (pre ++ [line])
    (symbol_step fp (Z.of_nat (length pre) + 1) line st).
Proof.
  intros Hlines Hinv. unfold symbol_step.
  destruct (class_match (text.lstrip line)) as [cname|] eqn:Hclass;
    [|destruct (func_match (text.lstrip line)) as [fname|] eqn:Hfunc].
  - apply (start_symbol_text fp lines pre rest); [done| |done].
    left. by split.
  - apply (start_symbol_text fp lines pre rest); [done| |done].
    right. by split_and!.
  - by apply (continue_symbol_text fp lines pre rest).
Qed.

Lemma symbol_loop_text (fp : string) (lines rest pre : list string)
    (st : list CodeChunk * scan) :
  lines = pre ++ rest →
  symbol_text_inv fp lines pre st →
  symbol_text_inv fp lines lines
    (symbol_loop fp (Z.of_nat (length pre) + 1) rest st).
Proof.
  revert pre st. induction rest as [|line rest IH]; intros pre st Hlines Hinv.
  - rewrite app_nil_r in Hlines. by subst pre.
  - simpl.
    replace (Z.of_nat (length pre) + 1 + 1)
      with (Z.of_nat (length (pre ++ [line])) + 1)
      by (rewrite length_app; simpl; lia).
    apply IH.
    + by rewrite <- app_assoc.
    + by apply (symbol_step_text fp lines pre rest).
Qed.

Lemma extract_python_symbols_text (content fp : string) :
  let lines := text.split_newline content in
  let chunks := extract_python_symbols content fp in
  Forall (symbol_chunk_ok fp lines) chunks ∧ StronglySorted before chunks.
Proof.
  intros lines chunks. unfold chunks, extract_python_symbols. fold lines.
  assert (Hinit : symbol_text_inv fp lines []
            ([], {| current_symbol := None; current_lines := [];
                    current_indent := 0 |})).
  { unfold symbol_text_inv. simpl. split_and!; try done; constructor. }
  pose proof (symbol_loop_text fp lines lines [] _ eq_refl Hinit) as Hloop.
  change (Z.of_nat (length (@nil string)) + 1) with 1 in Hloop.
  destruct (symbol_loop _ _ _ _) as [yielded sc].
  destruct (current_symbol sc) as [sym|] eqn:Hsym.
  - destruct (negb _).
    + destruct (close_symbol_text fp lines lines [] yielded sc sym
                  (eq_sym (app_nil_r lines)) Hloop Hsym) as (? & _ & ?).
      done.
    + by destruct Hloop as (? & _ & ? & _).
  - by destruct Hloop as (? & _ & ? & _).
Qed.

(** X9.  Every chunk of the Python symbol scan lies within the file,
    holds exactly the text of its lines, starts at a [class] or [def]
    line that declares the symbol the chunk is named after, and counts
    the tokens of its content; the chunks come in file order and no two
    of them share a line. *)
Theorem symbol_chunks_are_whole_definitions (content file_path : string) :
  let lines := text.split_newline content in
  let chunks := extract_python_symbols content file_path in
  Forall (symbol_chunk_ok file_path lines) chunks
  ∧ ∀ j1 j2 c1 c2,
      chunks !! j1 = Some c1 → chunks !! j2 = Some c2 → (j1 < j2)%nat →
      end_line c1 < start_line c2.
Proof.
  intros lines chunks.
  destruct (extract_python_symbols_text content file_path) as [Hok Hsorted].
  split; [done|].
  intros j1 j2 c1 c2 H1 H2 Hlt.
  by apply (sorted_lookup before chunks j1 j2).
Qed.

End symbol_text.

Section chunk_files.
Import chunking chunking_invariants chunk_text chunk_walk.

Lemma sliding_step_labels (fp : string) (lang : option string) (maxt ov i : Z)
    (line : string) (st : list CodeChunk * window) :
  Forall (window_labels fp lang) (fst st) →
  Forall (window_labels fp lang) (fst (sliding_step fp lang maxt ov i line st)).
Proof.
  intros Hall. destruct st as [yielded w]. unfold sliding_step. simpl.
  destruct (_ && _); [|done].
  unfold yield_and_restart. destruct (overlap_of _ _). simpl.
  apply Forall_app. split; [done|]. by repeat constructor.
Qed.

Lemma sliding_loop_labels (fp : string) (lang : option string) (maxt ov i : Z)
    (lines : list string) (st : list CodeChunk * window) :
  Forall (window_labels fp lang) (fst st) →
  Forall (window_labels fp lang) (fst (sliding_loop fp lang maxt ov i lines st)).
Proof.
  revert i st. induction lines as [|line lines IH]; intros i st Hall; [done|].
  simpl. by apply IH, sliding_step_labels.
Qed.

Lemma sliding_window_chunk_labels (content fp : string) (lang : option string)
    (maxt ov : Z) :
  Forall (window_labels fp lang) (sliding_window_chunk content fp lang maxt ov).
Proof.
  unfold sliding_window_chunk.
  destruct (bool_decide _); [done|].
  pose proof (sliding_loop_labels fp lang maxt ov 1 (text.split_newline content)
    ([], {| current_chunk_lines := []; current_start_line := 1;
            current_tokens := 0 |}) (Forall_nil_2 _)) as Hall.
  destruct (sliding_loop _ _ _ _ _ _ _) as [yielded w]. simpl in Hall.
  destruct (negb _); [|done].
  apply Forall_app. split; [done|]. by repeat constructor.
Qed.

(** X10.  Whatever strategy [chunk_file] takes for a file it can read,
    every chunk it yields is labelled with the file's relative path and
    detected language, lies within the file's lines, holds exactly the
    text of the lines of its range, and has a token count. *)
Theorem chunk_file_chunks_are_file_text (f : source_file) (content : string) :
  read_file_safe f = Some content →
  let lines := text.split_newline content in
  Forall (fun c => file_path c = relative_path f
                   ∧ language c = detect_language (path f)
                   ∧ chunk_within lines c
                   ∧ is_Some (token_count c))
    (chunk_file f).
Proof.
  intros Hread lines. unfold chunk_file. rewrite Hread.
  destruct (should_skip_file _); [done|].
  destruct (_ =? _)%string; [done|].
  destruct (_ <? _); [done|].
  assert (Hwindow : Forall (fun c => file_path c = relative_path f
                   ∧ language c = detect_language (path f)
                   ∧ chunk_within lines c
                   ∧ is_Some (token_count c))
            (sliding_window_chunk content (relative_path f)
               (detect_language (path f)) 1500 200)).
  { pose proof (sliding_window_chunk_labels content (relative_path f)
                  (detect_language (path f)) 1500 200) as Hlab.
    destruct (sliding_window_chunk_spans content (relative_path f)
                (detect_language (path f)) 1500 200) as (_ & _ & _ & Hin).
    destruct (sliding_window_chunk_tokens content (relative_path f)
                (detect_language (path f)) 1500 200) as [Htok _].
    rewrite Forall_forall in Hlab, Hin, Htok. apply Forall_forall.
    intros c Hc. destruct (Hlab c Hc) as (? & ? & _).
    split_and!; try done; [by apply Hin|]. rewrite (Htok c Hc). by eexists. }
  destruct (bool_decide (detect_language (path f) = Some "python"%string))
    eqn:Hpy; simpl; [|done].
  apply bool_decide_eq_true in Hpy.
  destruct (negb _); [|done].
  destruct (extract_python_symbols_text content (relative_path f)) as [Hok _].
  eapply Forall_impl; [exact Hok|].
  intros c (Hin & _ & Hfp & Hlang & Htok).
  split_and!; [done|by rewrite Hpy|done|rewrite Htok; by eexists].
Qed.

(** *** The walk over the repository *)

Lemma yield_chunks_spec (max_chunks : Z) (chunks : list CodeChunk)
    (chunk_count : Z) :
  let '(yielded, n, returned) := yield_chunks max_chunks chunks chunk_count in
  yielded = firstn (Z.to_nat (max_chunks - chunk_count)) chunks
  ∧ if returned
    then (Z.to_nat (max_chunks - chunk_count) < length chunks)%nat
    else n = chunk_count + Z.of_nat (length chunks)
         ∧ (chunks = [] ∨ n ≤ max_chunks).
Proof.
  revert chunk_count. induction chunks as [|c chunks IH]; intros cc; simpl.
  - split; [by rewrite firstn_nil|]. split; [lia|by left].
  - destruct (Z.ltb_spec max_chunks (cc + 1)) as [Hover|Hfits].
    + replace (Z.to_nat (max_chunks - cc)) with 0%nat by lia.
      split; [done|]. simpl. lia.
    + specialize (IH (cc + 1)).
      destruct (yield_chunks max_chunks chunks (cc + 1)) as [[ys n] ret].
      destruct IH as [Hys Hret].
      replace (Z.to_nat (max_chunks - cc))
        with (S (Z.to_nat (max_chunks - (cc + 1)))) by lia.
      simpl. split; [by rewrite Hys|].
      destruct ret.
      * lia.
      * destruct Hret as [Hn Hle]. split; [lia|]. right.
        destruct Hle as [->|Hle]; simpl in *; lia.
Qed.

Lemma chunk_repository_loop_spec (max_files max_chunks : Z)
    (files : list source_file) (file_count chunk_count : Z) :
  chunk_repository_loop max_files max_chunks files file_count chunk_count
  = firstn (Z.to_nat (max_chunks - chunk_count))
      (flat_map chunk_file
         (firstn (Z.to_nat (max_files - file_count))
            (List.filter eligible files))).
Proof.
  revert file_count chunk_count.
  induction files as [|f files IH]; intros fc cc; simpl.
  - by rewrite !firstn_nil.
  - unfold eligible at 1. destruct (should_skip_file (path f)); simpl.
    + apply IH.
    + destruct (Z.ltb_spec max_files (fc + 1)) as [Hover|Hfits].
      * replace (Z.to_nat (max_files - fc)) with 0%nat by lia.
        simpl. by rewrite firstn_nil.
      * replace (Z.to_nat (max_files - fc))
          with (S (Z.to_nat (max_files - (fc + 1)))) by lia.
        simpl.
        pose proof (yield_chunks_spec max_chunks (chunk_file f) cc) as Hy.
        destruct (yield_chunks max_chunks (chunk_file f) cc) as [[ys n] ret].
        destruct Hy as [Hys Hret]. destruct ret.
        -- rewrite Hys, take_app_le by lia. done.
        -- destruct Hret as [Hn Hle]. rewrite IH.
           destruct Hle as [Hnil|Hle].
           ++ rewrite Hnil in *. simpl in *. rewrite Hys, firstn_nil. simpl.
              do 2 f_equal. lia.
           ++ rewrite take_app_ge by lia.
              rewrite Hys, firstn_all2 by lia. do 2 f_equal. lia.
Qed.

(** X11.  [chunk_repository] yields the chunks of the first [max_files]
    files that are not skipped, in the order of the walk, cut off after
    [max_chunks] chunks: skipped files neither yield chunks nor count
    against the file limit, and never more than [max_chunks] chunks are
    yielded. *)
Theorem chunk_repository_limits (max_files max_chunks : Z)
    (files : list source_file) :
  chunk_repository max_files max_chunks files
  = firstn (Z.to_nat max_chunks)
      (flat_map chunk_file
         (firstn (Z.to_nat max_files) (List.filter eligible files)))
  ∧ Z.of_nat (length (chunk_repository max_files max_chunks files))
    ≤ Z.max 0 max_chunks.
Proof.
  assert (Heq : chunk_repository max_files max_chunks files
    = firstn (Z.to_nat max_chunks)
        (flat_map chunk_file
           (firstn (Z.to_nat max_files) (List.filter eligible files)))).
  { unfold chunk_repository. rewrite chunk_repository_loop_spec.
    by rewrite !Z.sub_0_r. }
  split; [done|]. rewrite Heq, length_take. lia.
Qed.

End chunk_files.

Lemma chunk_file_chunks_are_file_text_witness :
  Forall (fun c => chunking.file_path c
                   = chunking.relative_path samples.python_file
                   ∧ chunking.language c
                     = chunking.detect_language
                         (chunking.path samples.python_file)
                   ∧ chunking_invariants.chunk_within
                       (text.split_newline samples.python_text) c
                   ∧ is_Some (chunking.token_count c))
    (chunking.chunk_file samples.python_file).
Proof.
  apply (chunk_file_chunks_are_file_text samples.python_file samples.python_text).
  reflexivity.
Defined.
(** ** Jobs: the queue of pending jobs *)

Section job_queue_properties.
Import job job_queue.

Lemma insert_by_perm (key : Job → Z) (j : Job) (l : list Job) :
  insert_by key j l ≡ₚ j :: l.
Proof.
  induction l as [|x l IH]; simpl; [done|].
  destruct (key j <=? key x); [done|].
  rewrite IH. apply Permutation_swap.
Qed.

Lemma order_by_perm (key : Job → Z) (l : list Job) : order_by key l ≡ₚ l.
Proof.
  induction l as [|x l IH]; simpl; [done|].
  by rewrite insert_by_perm, IH.
Qed.

Lemma insert_by_sorted (key : Job → Z) (j : Job) (l : list Job) :
  StronglySorted (fun a b => key a ≤ key b) l →
  StronglySorted (fun a b => key a ≤ key b) (insert_by key j l).
Proof.
  induction 1 as [|x l Hs IH Hall]; simpl.
  - constructor; constructor.
  - destruct (Z.leb_spec (key j) (key x)) as [Hle|Hgt].
    + constructor; [by constructor|]. constructor; [done|].
      eapply Forall_impl; [exact Hall|]. intros y Hy. simpl in *. lia.
    + constructor; [done|].
      rewrite insert_by_perm. constructor; [lia|done].
Qed.

Lemma order_by_sorted (key : Job → Z) (l : list Job) :
  StronglySorted (fun a b => key a ≤ key b) (order_by key l).
Proof.
  induction l as [|x l IH]; simpl; [constructor|]. by apply insert_by_sorted.
Qed.

Lemma elem_of_rows (db : database.Db) (j : Job) :
  j ∈ rows db ↔ ∃ k, database.jobs db !! k = Some j.
Proof.
  unfold rows. split.
  - intros Hin. apply list_elem_of_In, in_map_iff in Hin.
    destruct Hin as ([k j'] & <- & Hin). exists k.
    by apply elem_of_map_to_list, list_elem_of_In.
  - intros [k Hk]. apply list_elem_of_In, in_map_iff. exists (k, j).
    split; [done|]. by apply list_elem_of_In, elem_of_map_to_list.
Qed.

Lemma elem_of_order_by_filter (key : Job → Z) (f : Job → bool)
    (db : database.Db) (j : Job) :
  j ∈ order_by key (List.filter f (rows db))
  ↔ f j = true ∧ ∃ k, database.jobs db !! k = Some j.
Proof.
  rewrite order_by_perm, <- elem_of_rows.
  rewrite list_elem_of_In, filter_In, <- list_elem_of_In. tauto.
Qed.

Lemma sorted_app_inv {A : Type} (R : A → A → Prop) (a b : list A) (x y : A) :
  StronglySorted R (a ++ b) → x ∈ a → y ∈ b → R x y.
Proof.
  induction a as [|z a IH]; simpl; intros Hs Hx Hy.
  - by apply elem_of_nil in Hx.
  - apply StronglySorted_inv in Hs as [Hs Hall].
    apply elem_of_cons in Hx as [->|Hx].
    + rewrite Forall_forall in Hall. apply Hall, elem_of_app. by right.
    + by apply IH.
Qed.

(** X12.  [get_pending_jobs] returns at most [limit] jobs, all of them
    stored and pending, oldest first; a stored pending job is left out
    only when the limit is reached, and then no returned job was created
    after it. *)
Theorem pending_jobs_oldest_first (db : database.Db) (limit : Z) :
  0 ≤ limit →
  let queue := get_pending_jobs db limit in
  Z.of_nat (length queue) ≤ limit
  ∧ Forall (fun j => status j = value PENDING
                     ∧ ∃ k, database.jobs db !! k = Some j) queue
  ∧ StronglySorted (fun a b => created_at a ≤ created_at b) queue
  ∧ ∀ k j, database.jobs db !! k = Some j → status j = value PENDING →
      j ∈ queue
      ∨ (Z.of_nat (length queue) = limit
         ∧ Forall (fun q => created_at q ≤ created_at j) queue).
Proof.
  intros Hlimit queue. unfold queue, get_pending_jobs.
  set (pending := fun j => (status j =? value PENDING)%string).
  set (sorted := order_by created_at (List.filter pending (rows db))).
  pose proof (order_by_sorted created_at (List.filter pending (rows db)))
    as Hsorted. fold sorted in Hsorted.
  split_and!.
  - rewrite length_take. lia.
  - apply Forall_forall. intros j Hj. apply (subseteq_take _ sorted) in Hj.
    apply elem_of_order_by_filter in Hj as [Hp Hk]. split; [|done].
    by apply String.eqb_eq in Hp.
  - by apply sorted_firstn.
  - intros k j Hk Hp.
    assert (Hin : j ∈ sorted).
    { apply elem_of_order_by_filter. split; [|by exists k].
      by apply String.eqb_eq. }
    rewrite <- (take_drop (Z.to_nat limit) sorted) in Hin.
    apply elem_of_app in Hin as [Hin|Hin]; [by left|]. right.
    assert (Z.to_nat limit < length sorted)%nat as Hlen.
    { destruct (decide (Z.to_nat limit < length sorted)%nat); [done|].
      rewrite drop_ge in Hin by lia. by apply elem_of_nil in Hin. }
    split; [rewrite length_take; lia|].
    apply Forall_forall. intros q Hq.
    rewrite <- (take_drop (Z.to_nat limit) sorted) in Hsorted.
    by apply (sorted_app_inv _ _ _ q j) in Hsorted.
Qed.

Lemma keyed_put_job (db : database.Db) (j : Job) :
  keyed db → keyed (database.put_job db j).
Proof.
  intros Hk k j' Hlook. unfold database.put_job in Hlook. simpl in Hlook.
  destruct (decide (id j = k)) as [<-|Hne].
  - rewrite lookup_insert_eq in Hlook. by injection Hlook as <-.
  - rewrite lookup_insert_ne in Hlook by done. by apply Hk.
Qed.

(** Writing a row that is not pending under a job's key keeps that job
    out of the queue, and leaves the queue entries of other jobs alone. *)
Lemma put_job_not_pending (db : database.Db) (j : Job) (limit : Z) :
  keyed db → status j ≠ value PENDING →
  get_job (database.put_job db j) (id j) = inr j
  ∧ Forall (fun q => id q ≠ id j)
      (get_pending_jobs (database.put_job db j) limit).
Proof.
  intros Hk Hs. split.
  - unfold get_job, database.put_job. simpl. by rewrite lookup_insert_eq.
  - apply Forall_forall. intros q Hq. unfold get_pending_jobs in Hq.
    apply subseteq_take in Hq.
    apply elem_of_order_by_filter in Hq as [Hp [k Hlook]].
    apply String.eqb_eq in Hp.
    pose proof (keyed_put_job db j Hk k q Hlook) as Hid.
    intros Heq. unfold database.put_job in Hlook. simpl in Hlook.
    rewrite <- Hid, Heq, lookup_insert_eq in Hlook.
    injection Hlook as <-. done.
Qed.

(** X13.  In a table keyed by job id, a job that has been started,
    completed or failed is stored as such under its id and is never
    returned by [get_pending_jobs] again, whatever the limit. *)
Theorem handled_job_leaves_queue (db : database.Db) (now limit : Z) (j : Job)
    (error_message : string) :
  keyed db →
  Forall (fun outcome : database.Db * Job =>
            get_job (fst outcome) (id j) = inr (snd outcome)
            ∧ id (snd outcome) = id j
            ∧ Forall (fun q => id q ≠ id j)
                (get_pending_jobs (fst outcome) limit))
    [ jobs.start_job db now j; jobs.complete_job db now j;
      jobs.fail_job db now j error_message ].
Proof.
  intros Hk.
  assert (Hone : ∀ j', id j' = id j → status j' ≠ value PENDING →
            get_job (database.put_job db j') (id j) = inr j'
            ∧ id j' = id j
            ∧ Forall (fun q => id q ≠ id j)
                (get_pending_jobs (database.put_job db j') limit)).
  { intros j' Hid Hs. rewrite <- Hid.
    destruct (put_job_not_pending db j' limit Hk Hs) as [Hget Hout].
    by split_and!. }
  repeat apply Forall_cons_2; [| | |constructor]; by apply Hone.
Qed.

(** X14.  [get_jobs_for_repo] returns exactly the stored jobs of the
    repository, newest first. *)
Theorem jobs_for_repo_newest_first (db : database.Db) (repo_id : string) :
  let found := get_jobs_for_repo db repo_id in
  (∀ j, j ∈ found
        ↔ job.repo_id j = repo_id ∧ ∃ k, database.jobs db !! k = Some j)
  ∧ StronglySorted (fun a b => created_at b ≤ created_at a) found.
Proof.
  intros found. split.
  - intros j. unfold found, get_jobs_for_repo.
    rewrite elem_of_order_by_filter. by rewrite String.eqb_eq.
  - pose proof (order_by_sorted (fun j => - created_at j)
        (List.filter (fun j => (job.repo_id j =? repo_id)%string) (rows db)))
      as Hs.
    rewrite <- (map_id found).
    apply (sorted_map (fun a b => - created_at a ≤ - created_at b)); [|done].
    intros a b. simpl. lia.
Qed.

End job_queue_properties.

Lemma pending_jobs_oldest_first_witness :
  Z.of_nat (length (job_queue.get_pending_jobs
                      (database.put_job database.empty samples.pending_job) 1))
  ≤ 1.
Proof.
  refine (proj1 (pending_jobs_oldest_first
    (database.put_job database.empty samples.pending_job) 1 _)).
  lia.
Defined.

Lemma handled_job_leaves_queue_witness :
  let db := database.put_job database.empty samples.pending_job in
  let j := samples.pending_job in
  Forall (fun outcome : database.Db * job.Job =>
            job_queue.get_job (fst outcome) (job.id j) = inr (snd outcome)
            ∧ job.id (snd outcome) = job.id j
            ∧ Forall (fun q => job.id q ≠ job.id j)
                (job_queue.get_pending_jobs (fst outcome) 10))
    [ jobs.start_job db 5 j; jobs.complete_job db 5 j;
      jobs.fail_job db 5 j "clone failed" ].
Proof.
  intros db j. apply handled_job_leaves_queue.
  apply keyed_put_job. intros k j' Hlook. simpl in Hlook.
  by rewrite lookup_empty in Hlook.
Defined.
(** ** Search: what a page of results holds *)

Section search_pages.
Import errors config repository.
Context `{Capabilities}.

(** A search result [r] shows the stored chunk [chunk]. *)
Lemma result_for_Ok (vs : vector_store.VectorStore)
    (by_id : gmap string code_chunk.CodeChunk) (ff : option string)
    (sr : vector_store.SearchResult) (r : schemas.SearchResult) :
  search.result_for vs by_id ff sr = Some (Ok r) →
  schemas.score r = vector_store.score sr
  ∧ Qle_bool 0 (schemas.score r) && Qle_bool (schemas.score r) 1 = true
  ∧ (∀ p, ff = Some p → p ≠ EmptyString → fnmatch (schemas.file_path r) p = true)
  ∧ ∃ cid chunk,
      vector_store.get_chunk_id vs (vector_store.index sr) = Some cid
      ∧ by_id !! cid = Some chunk
      ∧ schemas.file_path r = code_chunk.file_path chunk
      ∧ schemas.content r = code_chunk.content chunk
      ∧ schemas.start_line r = code_chunk.start_line chunk
      ∧ schemas.end_line r = code_chunk.end_line chunk
      ∧ schemas.symbol r = code_chunk.symbol_name chunk.
Proof.
  unfold search.result_for.
  destruct (vector_store.get_chunk_id vs _) as [cid|]; [|done].
  destruct (negb _); [done|].
  destruct (by_id !! cid) as [chunk|] eqn:Hchunk; [|done].
  destruct ff as [p|].
  - destruct (text.truthy (Some p) && _) eqn:Hfilter; [done|].
    unfold schemas.make_SearchResult. simpl.
    destruct (Qle_bool 0 _ && Qle_bool _ 1) eqn:Hrange; [|done].
    intros [= <-]. simpl. split_and!; try done.
    + intros p' [= <-] Hne.
      apply andb_false_iff in Hfilter as [Htruthy|Hmatch].
      * simpl in Htruthy. apply negb_false_iff, String.eqb_eq in Htruthy. done.
      * by apply negb_false_iff in Hmatch.
    + by exists cid, chunk.
  - unfold schemas.make_SearchResult. simpl.
    destruct (Qle_bool 0 _ && Qle_bool _ 1) eqn:Hrange; [|done].
    intros [= <-]. simpl. split_and!; try done.
    by exists cid, chunk.
Qed.

Lemma build_results_sound (vs : vector_store.VectorStore)
    (by_id : gmap string code_chunk.CodeChunk) (ff : option string)
    (srs : list vector_store.SearchResult) (rs : list schemas.SearchResult) :
  search.build_results vs by_id ff srs = Ok rs →
  Forall (fun r => ∃ sr, sr ∈ srs ∧ search.result_for vs by_id ff sr = Some (Ok r))
    rs
  ∧ (StronglySorted
       (fun a b => (vector_store.score b <= vector_store.score a)%Q) srs →
     StronglySorted (fun a b => (schemas.score b <= schemas.score a)%Q) rs).
Proof.
  revert rs. induction srs as [|sr srs IH]; intros rs; simpl.
  - intros [= <-]. split; [constructor|]. intros _. constructor.
  - destruct (search.result_for vs by_id ff sr) as [[r|e]|] eqn:Hsr.
    + destruct (search.build_results vs by_id ff srs) as [rs'|e]; [|done].
      intros [= <-]. destruct (IH rs' eq_refl) as [Hall Hsorted]. split.
      * constructor.
        -- exists sr. split; [by left|done].
        -- eapply Forall_impl; [exact Hall|]. intros r' (sr' & Hin & Hres).
           exists sr'. split; [by right|done].
      * intros Hs. apply StronglySorted_inv in Hs as [Hs Hle].
        constructor; [by apply Hsorted|].
        apply Forall_forall. intros r' Hr'.
        rewrite Forall_forall in Hall. destruct (Hall r' Hr') as (sr' & Hin & Hres).
        apply result_for_Ok in Hres as (-> & _). apply result_for_Ok in Hsr as (-> & _).
        rewrite Forall_forall in Hle. by apply Hle.
    + done.
    + intros Hrs. destruct (IH rs Hrs) as [Hall Hsorted]. split.
      * eapply Forall_impl; [exact Hall|]. intros r' (sr' & Hin & Hres).
        exists sr'. split; [by right|done].
      * intros Hs. apply StronglySorted_inv in Hs as [Hs _]. by apply Hsorted.
Qed.

Lemma search_code_page (db : database.Db)
    (disk : gmap string vector_store.artifact) (repo_id query : string)
    (limit offset : Z) (min_score : option Q) (file_filter : option string)
    (page : list schemas.SearchResult) (total : Z) :
  vector_store.exact_top_k →
  0 ≤ limit → 0 ≤ offset →
  search.search_code db disk repo_id query limit offset min_score file_filter
  = Ok (page, total) →
  Z.of_nat (length page) ≤ Z.min limit (Z.max 0 (total - offset))
  ∧ StronglySorted (fun a b => (schemas.score b <= schemas.score a)%Q) page
  ∧ Forall (fun r =>
      score_ge (schemas.score r) (search.threshold_of min_score) = true
      ∧ (0 <= schemas.score r)%Q ∧ (schemas.score r <= 1)%Q
      ∧ (∀ p, file_filter = Some p → p ≠ EmptyString →
           fnmatch (schemas.file_path r) p = true)
      ∧ ∃ cid chunk,
          database.code_chunks db !! cid = Some chunk
          ∧ schemas.file_path r = code_chunk.file_path chunk
          ∧ schemas.content r = code_chunk.content chunk
          ∧ schemas.start_line r = code_chunk.start_line chunk
          ∧ schemas.end_line r = code_chunk.end_line chunk
          ∧ schemas.symbol r = code_chunk.symbol_name chunk) page.
Proof.
  intros law Hlimit Hoffset. rewrite search_code_candidates.
  destruct (lifecycle.check_api_readiness db repo_id "search"); [|done].
  destruct (vector_store.load _ disk) as [loaded vs].
  destruct (negb loaded).
  { intros [= <- <-]. simpl. split_and!; [lia|constructor|constructor]. }
  set (srs := vector_store.search vs _ _ _).
  destruct (search.build_results vs _ file_filter srs) as [rs|e] eqn:Hbuild;
    [|done].
  intros [= <- <-]. rewrite slice_nonneg by done.
  destruct (build_results_sound _ _ _ _ _ Hbuild) as [Hall Hsorted].
  destruct (search_ranked vs (generate_embedding query) (limit + offset + 50)
              (search.threshold_of min_score) law ltac:(lia))
    as (_ & Hscores & _ & Hranked).
  fold srs in Hscores, Hranked.
  split_and!.
  - rewrite length_take, length_skipn. lia.
  - by apply sorted_firstn, sorted_skipn, Hsorted.
  - apply Forall_forall. intros r Hr.
    apply (subseteq_take (Z.to_nat limit)) in Hr.
    apply (subseteq_drop (Z.to_nat offset)) in Hr.
    rewrite Forall_forall in Hall. destruct (Hall r Hr) as (sr & Hin & Hres).
    apply result_for_Ok in Hres
      as (Hscore & Hrange & Hfilter & cid & chunk & _ & Hchunk & Hfields).
    rewrite Forall_forall in Hscores. destruct (Hscores sr Hin) as [Hth _].
    apply andb_true_iff in Hrange as [H0 H1].
    apply Qle_bool_iff in H0, H1.
    split_and!; try done.
    + by rewrite Hscore.
    + by exists cid, chunk.
Qed.

(** X15.  Let the index answer as an exhaustive index does.  When
    [search_code] returns a page for a limit and an offset that are not
    negative, the page has at most [limit] results, in descending order
    of score; every result passed the vector store's comparison of its
    score with the threshold in force and scores between 0 and 1,
    matches the file filter if one is given, and shows the path, lines,
    symbol and content of a chunk stored in the database. *)
Theorem search_code_page_is_sound (db : database.Db)
    (disk : gmap string vector_store.artifact) (repo_id query : string)
    (limit offset : Z) (min_score : option Q) (file_filter : option string)
    (page : list schemas.SearchResult) (total : Z) :
  vector_store.exact_top_k →
  0 ≤ limit → 0 ≤ offset →
  search.search_code db disk repo_id query limit offset min_score file_filter
  = Ok (page, total) →
  Z.of_nat (length page) ≤ Z.min limit (Z.max 0 (total - offset))
  ∧ StronglySorted (fun a b => (schemas.score b <= schemas.score a)%Q) page
  ∧ Forall (fun r =>
      score_ge (schemas.score r) (search.threshold_of min_score) = true
      ∧ (0 <= schemas.score r)%Q ∧ (schemas.score r <= 1)%Q
      ∧ (∀ p, file_filter = Some p → p ≠ EmptyString →
           fnmatch (schemas.file_path r) p = true)
      ∧ ∃ cid chunk,
          database.code_chunks db !! cid = Some chunk
          ∧ schemas.file_path r = code_chunk.file_path chunk
          ∧ schemas.content r = code_chunk.content chunk
          ∧ schemas.start_line r = code_chunk.start_line chunk
          ∧ schemas.end_line r = code_chunk.end_line chunk
          ∧ schemas.symbol r = code_chunk.symbol_name chunk) page.
Proof.
  exact (search_code_page db disk repo_id query limit offset min_score
           file_filter page total).
Qed.

(** X16.  [search_code] raises RepoNotFoundError for a repository that
    is not stored and RepoNotReadyError for one that is FAILED or has
    not reached INDEXED; for a ready repository whose index cannot be
    loaded from disk it returns no results and a total of 0. *)
Theorem search_code_without_index (db : database.Db)
    (disk : gmap string vector_store.artifact) (repo_id query : string)
    (limit offset : Z) (min_score : option Q) (file_filter : option string) :
  let outcome :=
    search.search_code db disk repo_id query limit offset min_score file_filter
  in
  match database.repositories db !! repo_id with
  | None => outcome = Raise (RepoNotFoundError repo_id)
  | Some repo =>
      ∀ cur, repository.status repo = repository.value cur →
        if bool_decide (cur ≠ repository.FAILED)
           && (repository.state_order repository.INDEXED
               <=? repository.state_order cur)
        then fst (vector_store.load (vector_store.init repo_id) disk) = false →
             outcome = Ok ([], 0)
        else outcome
             = Raise (RepoNotReadyError repo_id (repository.status repo)
                        "INDEXED")
  end.
Proof.
  intros outcome. unfold outcome, search.search_code.
  pose proof (check_api_readiness_cases db repo_id "search" repository.INDEXED
                eq_refl) as Hready.
  destruct (database.repositories db !! repo_id) as [repo|]; [|by rewrite Hready].
  intros cur Hcur. rewrite (Hready cur Hcur).
  destruct (_ && _); [|done].
  intros Hload. destruct (vector_store.load _ disk) as [loaded vs].
  simpl in Hload. by rewrite Hload.
Qed.

End search_pages.

Lemma search_code_page_is_sound_witness :
  let outcome :=
    search.search_code (H := samples.caps) (samples.indexed_db 3)
      (samples.indexed_disk 3) "r-1" "where is main" 2 1 None None in
  Forall (fun r => (0 <= schemas.score r)%Q ∧ (schemas.score r <= 1)%Q)
    (search.page_of outcome).
Proof.
  intros outcome.
  destruct outcome as [[page total]|e] eqn:Hout; [|constructor].
  destruct (search_code_page_is_sound (H := samples.caps) (samples.indexed_db 3)
              (samples.indexed_disk 3) "r-1" "where is main" 2 1 None None
              page total reference_exact_top_k ltac:(lia) ltac:(lia) Hout)
    as (_ & _ & Hall).
  simpl. eapply Forall_impl; [exact Hall|].
  intros r (_ & H0 & H1 & _). by split.
Defined.

Lemma search_code_without_index_witness :
  search.search_code (H := samples.caps) (samples.indexed_db 3) ∅
    "r-1" "where is main" 10 0 None None
  = errors.Ok ([], 0).
Proof.
  pose proof (search_code_without_index (H := samples.caps)
                (samples.indexed_db 3) ∅ "r-1" "where is main" 10 0 None None)
    as Hout.
  change (database.repositories (samples.indexed_db 3) !! "r-1"%string)
    with (Some (samples.repo "INDEXED" None)) in Hout.
  exact (Hout repository.INDEXED eq_refl eq_refl).
Defined.
(** ** Tutor: sessions, history and the rolling summary *)

Section tutor_history.
Import errors config tutor_sessions.
Context `{Capabilities}.

Lemma length_drop_string (n : nat) (s : string) :
  String.length (text.drop n s) = (String.length s - n)%nat.
Proof.
  revert s. induction n as [|n IH]; intros s; simpl.
  - lia.
  - destruct s as [|c s]; simpl; [done|]. apply IH.
Qed.

Lemma trim_summary_budget (rounds : nat) (summary : string) :
  0 ≤ max_conversation_tokens settings →
  (String.length summary < rounds)%nat →
  llm.count_tokens (tutor.trim_summary rounds summary)
  ≤ max_conversation_tokens settings.
Proof.
  intros Hmax. revert summary.
  induction rounds as [|rounds IH]; intros summary Hlen; [lia|].
  change (tutor.trim_summary (S rounds) summary)
    with (if max_conversation_tokens settings <? llm.count_tokens summary
          then tutor.trim_summary rounds (text.drop 100 summary)
          else summary).
  destruct (Z.ltb_spec (max_conversation_tokens settings)
              (llm.count_tokens summary)) as [Hover|Hfits]; [|done].
  apply IH. rewrite length_drop_string.
  destruct summary as [|c summary].
  - change (llm.count_tokens EmptyString) with 0 in Hover. lia.
  - cbn [String.length] in Hlen |- *. lia.
Qed.

(** X17.  With a token budget that is not negative,
    [update_rolling_summary] leaves the session as it is while the
    session has fewer than four messages, and otherwise sets a rolling
    summary that is within [max_conversation_tokens], changing no other
    field of the session. *)
Theorem rolling_summary_within_budget (d : database.Db)
    (session : tutor_session.TutorSession) :
  0 ≤ max_conversation_tokens settings →
  let session' := tutor.update_rolling_summary d session in
  let messages := tutor.get_recent_messages d (tutor_session.id session) 10 in
  if (length messages <? 4)%nat then session' = session
  else ∃ summary,
    session' = tutor_session.set_rolling_conversation_summary session
                 (Some summary)
    ∧ llm.count_tokens summary ≤ max_conversation_tokens settings.
Proof.
  intros Hmax session' messages. unfold session', tutor.update_rolling_summary.
  fold messages. destruct (length messages <? 4)%nat; [done|].
  eexists. split; [reflexivity|]. apply trim_summary_budget; [done|lia].
Qed.

(** *** What a question changes *)

(** The ways [ask_question] can end. *)
Lemma ask_question_cases (w : tutor.World) (repo_id session_id question : string) :
  let '(r, w') := tutor.ask_question w repo_id session_id question in
  (w' = w
   ∧ ((∃ e, r = Raise e)
      ∨ r = Ok {| schemas.session_id := session_id;
                  schemas.question := question;
                  schemas.answer := tutor.NOT_FOUND_ANSWER;
                  schemas.references := [];
                  schemas.confidence := 0.0%Q;
                  schemas.answered := false |}))
  ∨ (∃ prompt e, w' = tutor.record_completion_call w prompt ∧ r = Raise e)
  ∨ (∃ session session' prompt p answer,
       database.tutor_sessions (tutor.db w) !! session_id = Some session
       ∧ tutor_session.id session' = tutor_session.id session
       ∧ r = tutor.validated_AskResponse session_id question answer
               (tutor.p_references p) (tutor.p_confidence p)
               (tutor.p_answered p)
       ∧ w' = tutor.with_db (tutor.record_completion_call w prompt)
                (database.put_session
                   (database.add_message
                      (database.add_message (tutor.db w)
                         {| tutor_session.session_id := session_id;
                            tutor_session.role := "user";
                            tutor_session.content := question;
                            tutor_session.references := None |})
                      {| tutor_session.session_id := session_id;
                         tutor_session.role := "assistant";
                         tutor_session.content := answer;
                         tutor_session.references :=
                           Some (tutor.dump_references (tutor.p_references p)) |})
                   session')).
Proof.
  unfold tutor.ask_question.
  destruct (tutor.get_session w session_id) as [session|e] eqn:Hsession;
    [|left; split; [done|left; by eexists]].
  destruct (negb _); [left; split; [done|left; by eexists]|].
  destruct (search.search_code _ _ _ _ _ _ _ _) as [[results total]|e];
    [|left; split; [done|left; by eexists]].
  destruct (bool_decide (results = [])); [left; split; [done|by right]|].
  destruct (tutor.parse_response _ _) as [p|e];
    [|right; left; by eexists _, _].
  destruct (tutor.p_answer p) as [| | |answer| |];
    try (right; left; by eexists _, _).
  right. right.
  assert (Hlook : database.tutor_sessions (tutor.db w) !! session_id
                  = Some session).
  { unfold tutor.get_session in Hsession.
    destruct (database.tutor_sessions (tutor.db w) !! session_id) as [s|];
      [|done].
    destruct (_ <? _); [done|]. by injection Hsession as ->. }
  eexists session, _, _, p, answer. split; [done|].
  split; [|split; reflexivity].
  unfold tutor.update_rolling_summary.
  repeat match goal with
         | |- context [if ?b then _ else _] => destruct b
         end; reflexivity.
Qed.

Lemma validated_AskResponse_Ok (session_id question answer : string)
    (references : list schemas.CodeReference) (confidence answered : json)
    (response : schemas.AskResponse) :
  tutor.validated_AskResponse session_id question answer references confidence
    answered = Ok response →
  schemas.session_id response = session_id
  ∧ schemas.question response = question
  ∧ schemas.answer response = answer
  ∧ schemas.references response = references
  ∧ pydantic_float confidence = Some (schemas.confidence response)
  ∧ pydantic_bool answered = Some (schemas.answered response)
  ∧ (0 <= schemas.confidence response)%Q ∧ (schemas.confidence response <= 1)%Q.
Proof.
  unfold tutor.validated_AskResponse, schemas.make_AskResponse.
  destruct (pydantic_float confidence) as [c|]; [|done].
  destruct (pydantic_bool answered) as [b|]; [|done]. simpl.
  destruct (Qle_bool 0 c && Qle_bool c 1) eqn:Hrange; [|done].
  intros [= <-]. apply andb_true_iff in Hrange as [H0 H1].
  apply Qle_bool_iff in H0, H1. by split_and!.
Qed.

(** X18.  When [ask_question] returns a response, the response is for
    this session and question and its confidence lies between 0 and 1;
    and either it is the fixed not-found response and the world is
    unchanged, or the completion was called exactly once and exactly
    two rows were appended to the message history: the question as
    [user] and the returned answer, with its references, as
    [assistant]. *)
Theorem answered_question_is_recorded (w w' : tutor.World)
    (repo_id session_id question : string) (response : schemas.AskResponse) :
  tutor.ask_question w repo_id session_id question = (Ok response, w') →
  schemas.session_id response = session_id
  ∧ schemas.question response = question
  ∧ (0 <= schemas.confidence response)%Q ∧ (schemas.confidence response <= 1)%Q
  ∧ ((w' = w ∧ schemas.answered response = false
      ∧ schemas.answer response = tutor.NOT_FOUND_ANSWER
      ∧ schemas.references response = [])
     ∨ (∃ prompt,
          tutor.completion_calls w' = tutor.completion_calls w ++ [prompt])
       ∧ database.tutor_messages (tutor.db w')
         = database.tutor_messages (tutor.db w)
           ++ exchange session_id question (schemas.answer response)
                (schemas.references response)).
Proof.
  intros Hask.
  pose proof (ask_question_cases w repo_id session_id question) as Hcases.
  rewrite Hask in Hcases.
  destruct Hcases as [[-> [[e ?]|Hr]]|[(prompt & e & _ & ?)|Hstored]]; try done.
  - injection Hr as ->. simpl. split_and!; try done. left. by split_and!.
  - destruct Hstored
      as (session & session' & prompt & p & answer & _ & _ & Hr & ->).
    symmetry in Hr.
    apply validated_AskResponse_Ok
      in Hr as (Hs & Hq & Ha & Hrefs & _ & _ & H0 & H1).
    split_and!; try done. right. split; [by eexists|].
    rewrite Ha, Hrefs. unfold exchange. simpl. by rewrite <- app_assoc.
Qed.

(** X19.  However [ask_question] ends, it leaves the persisted indexes,
    the repositories, the jobs and the stored chunks as they were, and it
    changes neither the messages nor the row of any other session. *)
Theorem ask_question_touches_one_session (w : tutor.World)
    (repo_id session_id question : string) :
  (∀ k s, database.tutor_sessions (tutor.db w) !! k = Some s →
          tutor_session.id s = k) →
  let '(r, w') := tutor.ask_question w repo_id session_id question in
  tutor.disk w' = tutor.disk w
  ∧ database.repositories (tutor.db w') = database.repositories (tutor.db w)
  ∧ database.jobs (tutor.db w') = database.jobs (tutor.db w)
  ∧ database.code_chunks (tutor.db w') = database.code_chunks (tutor.db w)
  ∧ (∀ other, other ≠ session_id →
       messages_of (tutor.db w') other = messages_of (tutor.db w) other
       ∧ database.tutor_sessions (tutor.db w') !! other
         = database.tutor_sessions (tutor.db w) !! other).
Proof.
  intros Hkeyed.
  pose proof (ask_question_cases w repo_id session_id question) as Hcases.
  destruct (tutor.ask_question w repo_id session_id question) as [r w'].
  destruct Hcases as [[-> _]|[(prompt & e & -> & _)|Hstored]]; try done.
  destruct Hstored
    as (session & session' & prompt & p & answer & Hlook & Hid & -> & ->).
  simpl. split_and!; try done.
  - intros other Hother. split.
    + unfold messages_of. simpl. rewrite !List.filter_app. simpl.
      destruct (String.eqb_spec session_id other); [done|].
      by rewrite !app_nil_r.
    + rewrite lookup_insert_ne; [done|].
      rewrite Hid, (Hkeyed _ _ Hlook). done.
Qed.


(** X21.  A session created for a repository that is ready for sessions
    belongs to that repository and can be fetched under its id from the
    moment it is created until [session_ttl_hours] have passed on the
    clock; after that [get_session] raises SessionNotFoundError. *)
Theorem created_session_lives_for_ttl (w w' : tutor.World)
    (fresh_id repo_id : string) (initial_context : option string)
    (session : tutor_session.TutorSession) (later : Z) :
  create_session w fresh_id repo_id initial_context = (Ok session, w') →
  tutor_session.id session = fresh_id
  ∧ tutor_session.repo_id session = repo_id
  ∧ is_Some (database.repositories (tutor.db w) !! repo_id)
  ∧ tutor.get_session (at_time w' later) fresh_id
    = if session_ttl_hours settings * 3600 * 1000000 <? later - tutor.now w
      then Raise (SessionNotFoundError fresh_id)
      else Ok session.
Proof.
  unfold create_session, lifecycle.check_api_readiness, lifecycle.get_repository.
  destruct (database.repositories (tutor.db w) !! repo_id) as [repo|]; [|done].
  destruct (repository.check_api_readiness repo "session") as [[ready ?]|];
    [|done].
  destruct (negb ready); [done|].
  intros [= <- <-]. simpl. split_and!; try done.
  unfold tutor.get_session. simpl. by rewrite lookup_insert_eq.
Qed.

End tutor_history.

Lemma rolling_summary_within_budget_witness :
  let d := tutor.db samples.related_world in
  let session' := tutor.update_rolling_summary (H := samples.caps) d
                    samples.session in
  let messages := tutor.get_recent_messages d
                    (tutor_session.id samples.session) 10 in
  if (length messages <? 4)%nat then session' = samples.session
  else ∃ summary,
    session' = tutor_session.set_rolling_conversation_summary samples.session
                 (Some summary)
    ∧ llm.count_tokens summary ≤ 500.
Proof.
  intros d.
  apply (rolling_summary_within_budget (H := samples.caps) d samples.session).
  vm_compute. discriminate.
Defined.

Lemma answered_question_is_recorded_witness :
  ∃ response w',
    tutor.ask_question samples.related_world "r-1" "s-1" "where is the parser?"
    = (errors.Ok response, w')
    ∧ schemas.session_id response = "s-1"%string
    ∧ schemas.question response = "where is the parser?"%string.
Proof.
  assert (Hask : ∃ response w',
            tutor.ask_question samples.related_world "r-1" "s-1"
              "where is the parser?" = (errors.Ok response, w')).
  { eexists _, _. vm_compute. reflexivity. }
  destruct Hask as (response & w' & Hask). exists response, w'.
  destruct (answered_question_is_recorded (H := samples.caps) _ _ _ _ _ _ Hask)
    as (Hs & Hq & _).
  by split_and!.
Defined.

Lemma ask_question_touches_one_session_witness :
  tutor.disk (snd (tutor.ask_question samples.related_world "r-1" "s-1"
                     "where is the parser?"))
  = tutor.disk samples.related_world.
Proof.
  pose proof (ask_question_touches_one_session (H := samples.caps)
                samples.related_world "r-1" "s-1" "where is the parser?")
    as Hone.
  destruct (tutor.ask_question samples.related_world "r-1" "s-1"
              "where is the parser?") as [r w'].
  apply Hone. intros k s Hlook. simpl in Hlook.
  apply lookup_insert_Some in Hlook as [[<- <-]|[_ Hlook]]; [done|].
  by rewrite lookup_empty in Hlook.
Defined.

Lemma created_session_lives_for_ttl_witness :
  ∃ session w',
    tutor_sessions.create_session samples.related_world "s-2" "r-1" None
    = (errors.Ok session, w')
    ∧ tutor.get_session (tutor_sessions.at_time w' 2000) "s-2"
      = errors.Ok session.
Proof.
  assert (Hcreate : ∃ session w',
            tutor_sessions.create_session samples.related_world "s-2" "r-1"
              None = (errors.Ok session, w')).
  { eexists _, _. vm_compute. reflexivity. }
  destruct Hcreate as (session & w' & Hcreate). exists session, w'.
  destruct (created_session_lives_for_ttl (H := samples.caps) _ _ _ _ _ _ 2000
              Hcreate) as (_ & _ & _ & Hget).
  by split.
Defined.


(** A confidence that arrives as the string 0.8 is stored with the
    exchange and returned as the number. *)
Example quoted_confidence_is_coerced :
  let '(r, w') :=
    tutor.ask_question tutor_samples.lenient_world "r-1" "s-1"
      "where is the parser?" in
  (∃ response, r = errors.Ok response
               ∧ schemas.answer response = "run.py"%string
               ∧ schemas.confidence response = 0.8%Q)
  ∧ map tutor_session.role (database.tutor_messages (tutor.db w'))
    = ["user"; "assistant"]%string.
Proof.
  vm_compute. split; [|reflexivity].
  eexists. split; [reflexivity|]. split; reflexivity.
Qed.

(** ** Ingestion: the URL, the structure analysis and the job *)

Section structure_analysis.
Import structure structure_invariants.

Lemma count_of_bump (lang other : string) (counts : list (string * Z)) :
  count_of other (bump lang counts)
  = count_of other counts + (if (lang =? other)%string then 1 else 0).
Proof.
  unfold count_of. induction counts as [|[k n] counts IH]; simpl.
  - rewrite String.eqb_sym. destruct (other =? lang)%string; simpl; lia.
  - destruct (String.eqb_spec k lang) as [->|Hk]; simpl.
    + destruct (String.eqb_spec lang other) as [->|Hne]; simpl; lia.
    + destruct (String.eqb_spec k other) as [->|Hko]; simpl; [|done].
      destruct (String.eqb_spec lang other) as [->|Hne]; [done|lia].
Qed.

Lemma bump_keys (lang : string) (counts : list (string * Z)) (k : string) :
  k ∈ map fst (bump lang counts) → k = lang ∨ k ∈ map fst counts.
Proof.
  induction counts as [|[k' n] counts IH]; simpl.
  - intros Hk. apply list_elem_of_singleton in Hk. by left.
  - destruct (k' =? lang)%string; simpl; [by right|].
    intros Hk. apply elem_of_cons in Hk as [->|Hk]; [right; by left|].
    destruct (IH Hk) as [->|Hin]; [by left|right; by right].
Qed.

Lemma bump_NoDup (lang : string) (counts : list (string * Z)) :
  NoDup (map fst counts) → NoDup (map fst (bump lang counts)).
Proof.
  induction counts as [|[k n] counts IH]; simpl; intros Hnd.
  - apply NoDup_singleton.
  - apply NoDup_cons in Hnd as [Hk Hnd].
    destruct (String.eqb_spec k lang) as [->|Hne]; simpl.
    + by apply NoDup_cons.
    + apply NoDup_cons. split; [|by apply IH].
      intros Hin. by destruct (bump_keys _ _ _ Hin).
Qed.

Lemma bump_positive (lang : string) (counts : list (string * Z)) :
  Forall (fun kv => 0 < snd kv) counts →
  Forall (fun kv => 0 < snd kv) (bump lang counts).
Proof.
  induction 1 as [|[k n] counts Hn Hall IH]; simpl.
  - by repeat constructor.
  - destruct (k =? lang)%string; constructor; simpl in *; try done; lia.
Qed.

Lemma detected_language_truthy (p lang : string) :
  chunking.detect_language p = Some lang → text.truthy (Some lang) = true.
Proof.
  unfold chunking.detect_language, chunking.map_get.
  destruct (List.find _ _) as [[k v]|] eqn:Hfind; [|done].
  intros [= <-]. apply find_some in Hfind as [Hin _]. simpl.
  unfold chunking.LANGUAGE_MAP in Hin.
  repeat (destruct Hin as [[= <- <-]|Hin]; [reflexivity|]). destruct Hin.
Qed.

Lemma files_in_snoc (lang : string) (pre : list file_entry) (f : file_entry) :
  files_in lang (pre ++ [f])
  = files_in lang pre
    + (if counted f
          && bool_decide (chunking.detect_language (path f) = Some lang)
       then 1 else 0).
Proof.
  unfold files_in, counted. rewrite List.filter_app, length_app. simpl.
  destruct (_ && _); simpl; lia.
Qed.

Lemma visit_inv (pre : list file_entry) (f : file_entry) (t : tally) :
  tally_inv pre t → tally_inv (pre ++ [f]) (visit t f).
Proof.
  intros (Hcount & Hnd & Hpos & Hlang). unfold visit, tally_inv.
  assert (Hlen : length (List.filter counted (pre ++ [f]))
            = (length (List.filter counted pre)
               + (if counted f then 1 else 0))%nat).
  { rewrite List.filter_app, length_app. simpl. by destruct (counted f). }
  rewrite Hlen.
  assert (Hin : ∀ lang, files_in lang (pre ++ [f])
            = files_in lang pre
              + (if counted f
                    && bool_decide (chunking.detect_language (path f) = Some lang)
                 then 1 else 0)) by (intros; apply files_in_snoc).
  assert (Hc : counted f = negb (chunking.should_skip_file (path f))) by done.
  destruct (chunking.should_skip_file (path f)) eqn:Hskip;
    rewrite Hc in *; simpl in *.
  - split_and!; try done; [lia|]. intros lang. rewrite Hin, Hlang. lia.
  - destruct (chunking.detect_language (path f)) as [lang'|] eqn:Hdetect.
    + pose proof (detected_language_truthy _ _ Hdetect) as Ht.
      simpl in Ht. rewrite Ht.
      split_and!; [lia|by apply bump_NoDup|by apply bump_positive|].
      intros lang. rewrite count_of_bump, Hin, Hlang. f_equal.
      destruct (String.eqb_spec lang' lang) as [->|Hne].
      * by rewrite bool_decide_eq_true_2.
      * rewrite bool_decide_eq_false_2; [done|]. congruence.
    + split_and!; try done; [lia|]. intros lang.
      rewrite Hin, Hlang. rewrite bool_decide_eq_false_2 by done. lia.
Qed.

Lemma fold_visit_inv (files pre : list file_entry) (t : tally) :
  tally_inv pre t → tally_inv (pre ++ files) (fold_left visit files t).
Proof.
  revert pre t. induction files as [|f files IH]; intros pre t Hinv; simpl.
  - by rewrite app_nil_r.
  - replace (pre ++ f :: files) with ((pre ++ [f]) ++ files)
      by (by rewrite <- app_assoc).
    by apply IH, visit_inv.
Qed.

Lemma max_from_spec (best : string * Z) (rest : list (string * Z)) :
  ∃ n, (max_from best rest, n) ∈ best :: rest
       ∧ Forall (fun kv => snd kv ≤ n) (best :: rest).
Proof.
  revert best. induction rest as [|entry rest IH]; intros [k n]; simpl.
  - exists n. split; [by left|]. by repeat constructor.
  - destruct (Z.ltb_spec n (snd entry)) as [Hlt|Hge].
    + destruct (IH entry) as (m & Hin & Hall). exists m.
      split; [by right|].
      apply Forall_cons in Hall as Hall'. destruct Hall' as [Hentry _].
      constructor; [simpl; lia|done].
    + destruct (IH (k, n)) as (m & Hin & Hall). exists m.
      apply Forall_cons in Hall as [Hbest Hrest]. simpl in Hbest. split.
      * apply elem_of_cons in Hin as [Heq|Hin]; [rewrite Heq; by left|].
        right. by right.
      * constructor; [done|]. constructor; [lia|done].
Qed.

Lemma count_of_NoDup (counts : list (string * Z)) (k : string) (n : Z) :
  NoDup (map fst counts) → (k, n) ∈ counts → count_of k counts = n.
Proof.
  unfold count_of. induction counts as [|[k' n'] counts IH]; simpl.
  - intros _ Hin. by apply elem_of_nil in Hin.
  - intros Hnd Hin. apply NoDup_cons in Hnd as [Hk Hnd].
    apply elem_of_cons in Hin as [[= -> ->]|Hin].
    + by rewrite String.eqb_refl.
    + destruct (String.eqb_spec k' k) as [->|Hne]; [|by apply IH].
      exfalso. apply Hk. apply list_elem_of_In, in_map_iff. exists (k, n).
      split; [done|]. by apply list_elem_of_In.
Qed.

Lemma count_of_bound (counts : list (string * Z)) (k : string) (n : Z) :
  0 ≤ n → Forall (fun kv => snd kv ≤ n) counts → count_of k counts ≤ n.
Proof.
  intros Hn Hall. unfold count_of.
  destruct (List.find _ _) as [kv|] eqn:Hfind; [|done].
  apply find_some in Hfind as [Hin _]. rewrite Forall_forall in Hall.
  by apply Hall, list_elem_of_In.
Qed.

(** X22.  [analyze_structure] counts the files that are not skipped;
    it reports no primary language exactly when none of them has a
    detected language, and otherwise a language that at least one of
    them has and that no other language beats in number of files. *)
Theorem primary_language_is_most_common (files : list file_entry) :
  let '(file_count, _, primary_language) := analyze_structure files in
  file_count = Z.of_nat (length (List.filter counted files))
  ∧ match primary_language with
    | None => ∀ lang, files_in lang files = 0
    | Some lang =>
        0 < files_in lang files
        ∧ ∀ other, files_in other files ≤ files_in lang files
    end.
Proof.
  unfold analyze_structure.
  assert (Hinit : tally_inv []
            {| file_count := 0; total_size := 0; language_counts := [] |}).
  { unfold tally_inv. simpl. split_and!; try done; constructor. }
  pose proof (fold_visit_inv files [] _ Hinit) as (Hcount & Hnd & Hpos & Hlang).
  simpl in Hcount, Hnd, Hpos, Hlang.
  destruct (fold_left visit files _) as [n size counts]. simpl in *.
  split; [done|]. unfold primary_of.
  destruct counts as [|first rest].
  - intros lang. by rewrite <- Hlang.
  - destruct (max_from_spec first rest) as (m & Hin & Hall).
    pose proof (count_of_NoDup _ _ _ Hnd Hin) as Hm.
    rewrite Hlang in Hm.
    assert (0 < m).
    { rewrite Forall_forall in Hpos. by apply (Hpos _ Hin). }
    split; [lia|]. intros other. rewrite Hm, <- Hlang.
    apply count_of_bound; [lia|done].
Qed.

End structure_analysis.

Section ingestion_job.
Import errors repository ingest.

(** X23.  [execute_ingestion] on a CREATED repository whose clone
    succeeds returns the repository as STRUCTURED with the commit hash
    and the analysed totals, stores it, and stores the job as completed
    with progress 100. *)
Theorem ingestion_success_reaches_structured (now : Z) (hash : string)
    (files : list structure.file_entry) (db : database.Db)
    (repo : Repository) (j : job.Job) :
  status repo = value CREATED →
  ∃ db' repo' j',
    execute_ingestion now (inr hash) files (db, repo, j)
    = (inr repo', (db', repo', j'))
    ∧ status repo' = value STRUCTURED
    ∧ commit_hash repo' = Some hash
    ∧ (total_files repo', total_size_bytes repo', primary_language repo')
      = (let '(n, size, language) := structure.analyze_structure files in
         (Some n, Some size, language))
    ∧ error_message repo' = error_message repo
    ∧ id repo' = id repo
    ∧ database.repositories db' !! id repo = Some repo'
    ∧ job.status j' = job.value job.COMPLETED
    ∧ job.progress j' = 100
    ∧ job.completed_at j' = Some now
    ∧ job.id j' = job.id j
    ∧ database.jobs db' !! job.id j = Some j'.
Proof.
  intros Hstatus. unfold execute_ingestion. simpl.
  unfold lifecycle.transition_status at 1.
  unfold can_transition_to. simpl. rewrite Hstatus. simpl.
  destruct (structure.analyze_structure files) as [[n size] language].
  eexists _, _, _. split; [reflexivity|]. simpl.
  split_and!; try done; by rewrite lookup_insert_eq.
Qed.

(** X24.  When the clone fails for a repository that is in a state
    other than FAILED, [execute_ingestion] raises the clone's exception
    again after storing the repository as FAILED, with the text of the
    exception as error message unless the text is empty, and the job as
    failed with that text. *)
Theorem failed_clone_marks_repository_and_job (now : Z) (text : string)
    (files : list structure.file_entry) (db : database.Db)
    (repo : Repository) (j : job.Job) (cur : RepoStatus) :
  status repo = value cur → cur ≠ FAILED →
  ∃ db' repo' j',
    execute_ingestion now (inl text) files (db, repo, j)
    = (inl (CloneFailed text), (db', repo', j'))
    ∧ status repo' = value FAILED
    ∧ error_message repo'
      = (if (text =? EmptyString)%string then error_message repo else Some text)
    ∧ database.repositories db' !! id repo = Some repo'
    ∧ job.status j' = job.value job.FAILED
    ∧ job.error_message j' = Some text
    ∧ job.completed_at j' = Some now
    ∧ database.jobs db' !! job.id j = Some j'.
Proof.
  intros Hstatus Hcur. unfold execute_ingestion, handle. simpl.
  unfold lifecycle.mark_failed, lifecycle.transition_status, can_transition_to.
  rewrite Hstatus, RepoStatus_of_value.
  assert (Hin : bool_decide (FAILED ∈ VALID_TRANSITIONS cur) = true)
    by (by destruct cur).
  rewrite Hin. simpl.
  eexists _, _, _. split; [reflexivity|]. simpl.
  destruct (text =? EmptyString)%string; simpl;
    split_and!; try done; by rewrite lookup_insert_eq.
Qed.

(** X25.  [execute_ingestion] on a repository that is FAILED, whether
    the clone succeeds or not: the handler's own [mark_failed] raises the
    invalid-transition ValueError, so [fail_job] is never reached; the
    repositories are stored as before, and the job stays stored as
    running with progress 10, neither pending nor terminal. *)
Theorem failed_repository_strands_job (now : Z) (clone : string + string)
    (files : list structure.file_entry) (db : database.Db)
    (repo : Repository) (j : job.Job) :
  status repo = value FAILED →
  ∃ db' repo' j',
    execute_ingestion now clone files (db, repo, j)
    = (inl (Lifecycle (ValueError (InvalidTransition "FAILED" "FAILED"))),
       (db', repo', j'))
    ∧ database.repositories db' = database.repositories db
    ∧ status repo' = value FAILED
    ∧ database.jobs db' !! job.id j = Some j'
    ∧ job.status j' = job.value job.RUNNING
    ∧ job.progress j' = 10
    ∧ job.completed_at j' = job.completed_at j
    ∧ job.is_terminal j' = false.
Proof.
  intros Hstatus. unfold execute_ingestion, handle. simpl.
  unfold lifecycle.mark_failed, lifecycle.transition_status, can_transition_to.
  destruct clone as [text|hash]; simpl; repeat (rewrite Hstatus; simpl);
    eexists _, _, _; (split; [reflexivity|]); simpl;
    split_and!; try done; by rewrite lookup_insert_eq.
Qed.

End ingestion_job.

Lemma ingestion_success_reaches_structured_witness :
  ∃ db' repo' j',
    ingest.execute_ingestion 7 (inr "c0ffee"%string) []
      (database.empty, samples.repo "CREATED" None, samples.pending_job)
    = (inr repo', (db', repo', j'))
    ∧ repository.status repo' = "STRUCTURED"%string
    ∧ job.progress j' = 100.
Proof.
  destruct (ingestion_success_reaches_structured 7 "c0ffee" []
              database.empty (samples.repo "CREATED" None) samples.pending_job
              eq_refl)
    as (db' & repo' & j' & Hrun & Hstatus & _ & _ & _ & _ & _ & _ & Hp & _).
  by exists db', repo', j'.
Defined.

Lemma failed_clone_marks_repository_and_job_witness :
  ∃ db' repo' j',
    ingest.execute_ingestion 7 (inl "Git clone failed"%string) []
      (database.empty, samples.repo "CREATED" None, samples.pending_job)
    = (inl (ingest.CloneFailed "Git clone failed"), (db', repo', j'))
    ∧ repository.status repo' = "FAILED"%string
    ∧ job.status j' = "failed"%string.
Proof.
  destruct (failed_clone_marks_repository_and_job 7 "Git clone failed" []
              database.empty (samples.repo "CREATED" None) samples.pending_job
              repository.CREATED eq_refl ltac:(discriminate))
    as (db' & repo' & j' & Hrun & Hstatus & _ & _ & Hjob & _).
  by exists db', repo', j'.
Defined.

Lemma failed_repository_strands_job_witness :
  ∃ db' repo' j',
    ingest.execute_ingestion 7 (inr "c0ffee"%string) []
      (database.empty, samples.repo "FAILED" (Some "boom"%string),
       samples.pending_job)
    = (inl (ingest.Lifecycle
              (errors.ValueError (errors.InvalidTransition "FAILED" "FAILED"))),
       (db', repo', j'))
    ∧ job.status j' = "running"%string.
Proof.
  destruct (failed_repository_strands_job 7 (inr "c0ffee"%string) []
              database.empty (samples.repo "FAILED" (Some "boom"%string))
              samples.pending_job eq_refl)
    as (db' & repo' & j' & Hrun & _ & _ & _ & Hjob & _).
  by exists db', repo', j'.
Defined.
Section github_urls.
Import git.

Lemma segment_no_slash (s : string) : text.contains "/" (segment s) = false.
Proof.
  induction s as [|c s IH]; simpl; [done|].
  destruct (is_slash c) eqn:Hc; [done|].
  unfold is_slash in Hc. rewrite Ascii.eqb_sym in Hc.
  cbn [text.contains]. unfold text.startswith.
  cbn [text.strip_prefix]. rewrite Hc. exact IH.
Qed.

Lemma owner_and_name_Some (s owner name : string) :
  owner_and_name s = Some (owner, name) →
  owner ≠ EmptyString ∧ name ≠ EmptyString
  ∧ text.contains "/" owner = false ∧ text.contains "/" name = false.
Proof.
  unfold owner_and_name.
  destruct (String.eqb_spec (segment s) EmptyString) as [|Howner]; [done|].
  destruct (after_segment s) as [|c rest]; [done|].
  destruct (String.eqb_spec (segment rest) EmptyString) as [|Hname]; [done|].
  intros [= <- <-]. split_and!; try done; apply segment_no_slash.
Qed.

(** X26.  Whatever the spelling, a URL that [parse_github_url] accepts
    yields an owner and a name that are not empty and contain no slash,
    and the normalised URL is [https://github.com/owner/name]. *)
Theorem parsed_url_is_normalised (repo_url : string) (info : RepoInfo) :
  parse_github_url repo_url = inr info →
  owner info ≠ EmptyString ∧ name info ≠ EmptyString
  ∧ text.contains "/" (owner info) = false
  ∧ text.contains "/" (name info) = false
  ∧ url info = "https://github.com/" +:+ owner info +:+ "/" +:+ name info.
Proof.
  unfold parse_github_url.
  set (u := if text.endswith ".git" _ then _ else _).
  assert (Hok : ∀ groups s, owner_and_name s = Some groups →
            repo_info groups = info →
            owner info ≠ EmptyString ∧ name info ≠ EmptyString
            ∧ text.contains "/" (owner info) = false
            ∧ text.contains "/" (name info) = false
            ∧ url info
              = "https://github.com/" +:+ owner info +:+ "/" +:+ name info).
  { intros [o n] s Hs <-. simpl.
    destruct (owner_and_name_Some _ _ _ Hs) as (? & ? & ? & ?). done. }
  unfold match_https, match_ssh.
  repeat match goal with
         | |- context [text.strip_prefix ?p u] =>
             destruct (text.strip_prefix p u)
         | |- context [owner_and_name ?r] =>
             let H := fresh "Hgroups" in
             destruct (owner_and_name r) eqn:H
         end;
    intros [= Hinfo]; eauto.
Qed.

End github_urls.

Lemma parsed_url_is_normalised_witness :
  let info := {| git.owner := "octo"; git.name := "demo";
                 git.url := "https://github.com/octo/demo" |} in
  git.owner info ≠ EmptyString ∧ git.name info ≠ EmptyString
  ∧ text.contains "/" (git.owner info) = false
  ∧ text.contains "/" (git.name info) = false
  ∧ git.url info
    = "https://github.com/" +:+ git.owner info +:+ "/" +:+ git.name info.
Proof.
  intros info.
  apply (parsed_url_is_normalised "  git@github.com:octo/demo.git/ " info).
  vm_compute. reflexivity.
Defined.

Section ingest_twice.
Import errors repository ingest_start.

Lemma filter_Permutation_bool {A : Type} (f : A → bool) (l k : list A) :
  l ≡ₚ k → List.filter f l ≡ₚ List.filter f k.
Proof.
  induction 1 as [|x l k _ IH|x y l|l k m _ IH1 _ IH2]; simpl.
  - done.
  - destruct (f x); by rewrite IH.
  - destruct (f x), (f y); try done. apply Permutation_swap.
  - by rewrite IH1.
Qed.

Lemma rows_put_repository (db : database.Db) (repo : Repository) :
  database.repositories db !! id repo = None →
  rows (database.put_repository db repo) ≡ₚ repo :: rows db.
Proof.
  intros Hfresh. unfold rows, database.put_repository. simpl.
  rewrite map_to_list_insert by done. done.
Qed.

Lemma elem_of_repository_rows (db : database.Db) (r : Repository) :
  r ∈ rows db ↔ ∃ k, database.repositories db !! k = Some r.
Proof.
  unfold rows. split.
  - intros Hin. apply list_elem_of_In, in_map_iff in Hin.
    destruct Hin as ([k r'] & <- & Hin). exists k.
    by apply elem_of_map_to_list, list_elem_of_In.
  - intros [k Hk]. apply list_elem_of_In, in_map_iff. exists (k, r).
    split; [done|]. by apply list_elem_of_In, elem_of_map_to_list.
Qed.

(** Replacing the only row of a URL by a row of the same URL under the
    same key leaves it the only one. *)
Lemma rows_replace_repository (db : database.Db) (f : Repository → bool)
    (old new : Repository) :
  database.repositories db !! id new = Some old →
  List.filter f (rows db) = [old] → f new = true →
  List.filter f (rows (database.put_repository db new)) = [new].
Proof.
  intros Hlook Hrows Hnew.
  set (m := database.repositories db) in *.
  assert (Hdb : rows db ≡ₚ old :: map snd (map_to_list (delete (id new) m))).
  { unfold rows. fold m. rewrite <- (insert_delete_id m (id new) old) at 1
      by done.
    rewrite map_to_list_insert by apply lookup_delete_eq. done. }
  assert (Hput : rows (database.put_repository db new)
                 ≡ₚ new :: map snd (map_to_list (delete (id new) m))).
  { unfold rows, database.put_repository. simpl. fold m.
    rewrite <- insert_delete_eq.
    rewrite map_to_list_insert by apply lookup_delete_eq. done. }
  assert (Hold : f old = true).
  { assert (old ∈ List.filter f (rows db)) as Hf by (rewrite Hrows; by left).
    by apply list_elem_of_In, filter_In in Hf as [_ Hf]. }
  apply (filter_Permutation_bool f) in Hdb, Hput.
  rewrite Hrows in Hdb. simpl in Hdb, Hput. rewrite Hnew in Hput.
  rewrite Hold in Hdb.
  apply Permutation_cons_inv, Permutation_nil in Hdb.
  rewrite Hdb in Hput. by apply Permutation_singleton_r in Hput.
Qed.

(** With exactly one repository of the URL and a job of it stored,
    [ingest_repository] without [force] returns them and writes
    nothing. *)
Lemma ingest_again (d : database.Db) (r : Repository) (stored : job.Job)
    (k fresh_repo_id fresh_job_id : string) (now : Z) (repo_url : string)
    (info : git.RepoInfo) :
  git.parse_github_url repo_url = inr info →
  List.filter (fun r => (repository.repo_url r =? git.url info)%string)
    (rows d) = [r] →
  database.jobs d !! k = Some stored → job.repo_id stored = id r →
  ∃ latest,
    ingest_repository d fresh_repo_id fresh_job_id now repo_url false
    = inr (d, r, latest)
    ∧ job.repo_id latest = id r.
Proof.
  intros Hparse Hrows Hstored Hrepo.
  unfold ingest_repository, get_repository_by_url.
  rewrite Hparse, Hrows. simpl.
  assert (Hin : stored ∈ job_queue.get_jobs_for_repo d (id r)).
  { apply elem_of_order_by_filter. split; [by apply String.eqb_eq|].
    by exists k. }
  destruct (job_queue.get_jobs_for_repo d (id r)) as [|latest rest] eqn:Hjobs.
  - by apply elem_of_nil in Hin.
  - exists latest. split; [done|].
    assert (Hl : latest ∈ job_queue.get_jobs_for_repo d (id r))
      by (rewrite Hjobs; by left).
    apply elem_of_order_by_filter in Hl as [Heq _].
    by apply String.eqb_eq in Heq.
Qed.

Lemma ingest_repository_again (db db1 : database.Db)
    (fresh_repo_id fresh_job_id : string) (now : Z) (repo_url : string)
    (force : bool) (repo : Repository) (j : job.Job)
    (fresh_repo_id' fresh_job_id' : string) (now' : Z) (repo_url' : string) :
  (∀ k r, database.repositories db !! k = Some r → id r = k) →
  database.repositories db !! fresh_repo_id = None →
  ingest_repository db fresh_repo_id fresh_job_id now repo_url force
  = inr (db1, repo, j) →
  git.parse_github_url repo_url' = git.parse_github_url repo_url →
  job.repo_id j = id repo
  ∧ ∃ latest,
      ingest_repository db1 fresh_repo_id' fresh_job_id' now' repo_url' false
      = inr (db1, repo, latest)
      ∧ job.repo_id latest = id repo.
Proof.
  intros Hkeyed Hfresh Hfirst Hsame.
  unfold ingest_repository, get_repository_by_url in Hfirst.
  destruct (git.parse_github_url repo_url) as [e|info] eqn:Hparse; [done|].
  set (same_url := fun r => (repository.repo_url r =? git.url info)%string)
    in *.
  destruct (List.filter same_url (rows db)) as [|existing [|]] eqn:Hrows;
    [| |done].
  - (* a new repository *)
    simpl in Hfirst. injection Hfirst as <- <- <-. split; [done|].
    eapply (ingest_again _ _ _ fresh_job_id); [exact Hsame| | |].
    + change (rows (database.put_job ?d _)) with (rows d).
      pose proof (filter_Permutation_bool same_url _ _
                    (rows_put_repository db
                       (new_repository fresh_repo_id info) Hfresh)) as Hperm.
      simpl in Hperm. unfold same_url at 2 in Hperm. simpl in Hperm.
      rewrite String.eqb_refl, Hrows in Hperm.
      by apply Permutation_singleton_r in Hperm.
    + simpl. apply lookup_insert_eq.
    + reflexivity.
  - assert (Hexisting : database.repositories db !! id existing = Some existing).
    { assert (existing ∈ rows db) as Hin.
      { assert (existing ∈ List.filter same_url (rows db)) as Hf
          by (rewrite Hrows; by left).
        by apply list_elem_of_In, filter_In in Hf as [Hf%list_elem_of_In _]. }
      apply elem_of_repository_rows in Hin as [k Hk].
      by rewrite (Hkeyed _ _ Hk). }
    assert (Hurl : same_url existing = true).
    { assert (existing ∈ List.filter same_url (rows db)) as Hf
        by (rewrite Hrows; by left).
      by apply list_elem_of_In, filter_In in Hf as [_ Hf]. }
    destruct force; simpl in Hfirst.
    + (* forced: the existing row is reset *)
      injection Hfirst as <- <- <-. split; [done|].
      eapply (ingest_again _ _ _ fresh_job_id); [exact Hsame| | |].
      * change (rows (database.put_job ?d _)) with (rows d).
        by apply (rows_replace_repository db same_url existing).
      * simpl. apply lookup_insert_eq.
      * reflexivity.
    + destruct (job_queue.get_jobs_for_repo db (id existing))
        as [|latest rest] eqn:Hjobs.
      * injection Hfirst as <- <- <-. split; [done|].
        eapply (ingest_again _ _ _ fresh_job_id); [exact Hsame| | |].
        -- done.
        -- simpl. apply lookup_insert_eq.
        -- reflexivity.
      * injection Hfirst as <- <- <-.
        assert (Hin : latest ∈ job_queue.get_jobs_for_repo db (id existing))
          by (rewrite Hjobs; by left).
        apply elem_of_order_by_filter in Hin as [Heq [k Hk]].
        apply String.eqb_eq in Heq. split; [done|].
        by eapply (ingest_again _ _ _ k).
Qed.

(** X27.  Asking twice for the ingestion of a repository does not
    ingest it twice: in a table keyed by repository id, after
    [ingest_repository] has returned a repository for a URL (forced or
    not, with an identifier for a new repository that was not in use),
    every further call without [force], for any spelling that parses to
    the same repository, returns that same repository with a job of it
    and leaves the database as it is. *)
Theorem ingest_repository_is_idempotent (db db1 : database.Db)
    (fresh_repo_id fresh_job_id : string) (now : Z) (repo_url : string)
    (force : bool) (repo : Repository) (j : job.Job)
    (fresh_repo_id' fresh_job_id' : string) (now' : Z) (repo_url' : string) :
  (∀ k r, database.repositories db !! k = Some r → id r = k) →
  database.repositories db !! fresh_repo_id = None →
  ingest_repository db fresh_repo_id fresh_job_id now repo_url force
  = inr (db1, repo, j) →
  git.parse_github_url repo_url' = git.parse_github_url repo_url →
  job.repo_id j = id repo
  ∧ ∃ latest,
      ingest_repository db1 fresh_repo_id' fresh_job_id' now' repo_url' false
      = inr (db1, repo, latest)
      ∧ job.repo_id latest = id repo.
Proof.
  exact (ingest_repository_again db db1 fresh_repo_id fresh_job_id now repo_url
           force repo j fresh_repo_id' fresh_job_id' now' repo_url').
Qed.

End ingest_twice.

Lemma ingest_repository_is_idempotent_witness :
  ∃ db1 repo j latest,
    ingest_start.ingest_repository database.empty "r-9" "j-9" 0
      "https://github.com/octo/demo" false
    = inr (db1, repo, j)
    ∧ ingest_start.ingest_repository db1 "r-10" "j-10" 5
        "git@github.com:octo/demo.git" false
      = inr (db1, repo, latest).
Proof.
  destruct (ingest_start.ingest_repository database.empty "r-9" "j-9" 0
              "https://github.com/octo/demo" false)
    as [e|[[db1 repo] j]] eqn:Hfirst; [vm_compute in Hfirst; discriminate|].
  destruct (ingest_repository_is_idempotent database.empty db1 "r-9" "j-9" 0
              "https://github.com/octo/demo" false repo j "r-10" "j-10" 5
              "git@github.com:octo/demo.git")
    as (_ & latest & Hsecond & _).
  - intros k r Hlook. simpl in Hlook. by rewrite lookup_empty in Hlook.
  - apply lookup_empty.
  - exact Hfirst.
  - vm_compute. reflexivity.
  - by exists db1, repo, j, latest.
Defined.
(** ** Documentation: starting a job *)

Section docs_start.
Import errors repository documentation.

(** X28.  [start_docs_generation] never returns a job and never writes
    to the database.  For a repository that is not stored it raises
    RepoNotFoundError; for a stored one it raises, and when the stored
    status is one of the enumeration the exception is the AttributeError
    of reading [.value] off the status string, whether the repository
    has reached INDEXED or not and whether [force] is set or not. *)
Theorem start_docs_generation_always_raises (db : database.Db)
    (fresh_job_id : string) (now : Z) (repo_id : string) (force : bool) :
  let '(outcome, db') :=
    start_docs_generation db fresh_job_id now repo_id force in
  db' = db
  ∧ match database.repositories db !! repo_id with
    | None => outcome = Raise (RepoNotFoundError repo_id)
    | Some repo =>
        (∃ e, outcome = Raise e)
        ∧ ∀ cur, status repo = value cur → outcome = Raise AttributeError
    end.
Proof.
  unfold start_docs_generation, lifecycle.get_repository.
  destruct (database.repositories db !! repo_id) as [repo|]; [|done].
  destruct (has_reached_state repo INDEXED) as [[|]|e] eqn:Hreached; simpl.
  - split; [done|]. split; [by eexists|done].
  - split; [done|]. split; [by eexists|done].
  - split; [done|]. split; [by eexists|].
    intros cur Hcur. unfold has_reached_state in Hreached.
    rewrite Hcur, RepoStatus_of_value in Hreached.
    by destruct (bool_decide _).
Qed.

End docs_start.

Lemma start_docs_generation_always_raises_witness :
  documentation.start_docs_generation (samples.indexed_db 2) "j-7" 0 "r-1" true
  = (errors.Raise errors.AttributeError, samples.indexed_db 2).
Proof.
  pose proof (start_docs_generation_always_raises (samples.indexed_db 2)
                "j-7" 0 "r-1" true) as Hraises.
  destruct (documentation.start_docs_generation (samples.indexed_db 2) "j-7" 0
              "r-1" true) as [outcome db'].
  change (database.repositories (samples.indexed_db 2) !! "r-1"%string)
    with (Some (samples.repo "INDEXED" None)) in Hraises.
  destruct Hraises as (-> & _ & Hattr).
  by rewrite (Hattr repository.INDEXED eq_refl).
Defined.
